(** * napcat-plugin-openclaw: a shallow embedding of [src/index.ts]

    The plugin bridges a QQ front-end to the OpenClaw gateway.  This file
    embeds the session registry, the gateway event waiter, the media cache,
    the reply sender and the message entry point of [index.ts], and states
    the properties of the specification over them.

    Conventions.  A JavaScript string is a [string]; its characters stand
    for UTF-16 code units, so [String.length] is the [.length] of the
    source.  The literals of the source that are not ASCII are kept as
    their UTF-8 bytes; no property below depends on their length.  A
    JavaScript [Map] is a [gmap].  A [number] holding an identifier, a byte
    count or a millisecond time stamp is a [Z].  Synchronous code over the
    cache directory runs in a state and exception monad ([Cache.FsM]);
    asynchronous code is read in the order of its [await]s and yields the
    trace of what it asked of its collaborators ([Act]). *)

From Stdlib Require Import Ascii String.
From stdpp Require Import gmap strings list pretty sorting.

Local Open Scope string_scope.
Local Open Scope Z_scope.
Local Open Scope list_scope.

(** ** Configuration ([types.ts], [PluginConfig]) *)

Inductive GroupSessionMode := user | shared.

Record OpenclawConfig := {
  token : string;
  gatewayUrl : string;
  cliPath : string;
}.

Record BehaviorConfig := {
  privateChat : bool;
  groupAtOnly : bool;
  adminQQ : list Z;
  commandAdminOnly : bool;
  userWhitelist : list Z;
  groupWhitelist : list Z;
  groupBypassUserWhitelist : bool;
  userBlacklist : list Z;
  debounceMs : Z;
  resolveReplyFlag : bool;
  replyMaxDepth : Z;
  groupSessionMode : GroupSessionMode;
  replyAtSender : bool;
  replyQuoteMessage : bool;
}.

Record MediaConfig := {
  cacheEnabled : bool;
  cachePath : string;
  cacheMaxSizeMB : Z;
  cacheTTLMinutes : Z;
}.

Record PluginConfig := {
  openclaw : OpenclawConfig;
  behavior : BehaviorConfig;
  media : MediaConfig;
}.

(** Modelled from the spec: [DEFAULT_CONFIG] of [config.ts], a file that is
    not among the sources.  The values are the defaults the README lists
    (the debounce window of 2000 ms among them); the two paths, which the
    README abbreviates, are given sample values. *)
Definition DEFAULT_CONFIG : PluginConfig := {|
  openclaw := {| token := ""; gatewayUrl := "ws://127.0.0.1:18789";
                 cliPath := "openclaw" |};
  behavior := {| privateChat := true; groupAtOnly := true; adminQQ := [];
                 commandAdminOnly := false; userWhitelist := [];
                 groupWhitelist := []; groupBypassUserWhitelist := false;
                 userBlacklist := []; debounceMs := 2000;
                 resolveReplyFlag := true; replyMaxDepth := 1;
                 groupSessionMode := user; replyAtSender := true;
                 replyQuoteMessage := false |};
  media := {| cacheEnabled := false; cachePath := "/tmp/napcat/download";
              cacheMaxSizeMB := 2048; cacheTTLMinutes := 60 |};
|}.

(** ** Identifiers

    [userId] and [groupId] have type [number | string] in the source and
    are rendered by template literals. *)

Inductive jsid := IdNum (n : Z) | IdStr (s : string).

Definition idToString (i : jsid) : string :=
  match i with
  | IdNum n => pretty n
  | IdStr s => s
  end.

(** [`${groupId}`] where [groupId] may be [undefined]. *)
Definition optIdToString (o : option jsid) : string :=
  match o with
  | Some i => idToString i
  | None => "undefined"
  end.

(** Strings of decimal digits, as [String(n)] writes a number that is not
    negative. *)
Definition isDigit (c : ascii) : bool :=
  let n := nat_of_ascii c in (48 <=? n)%nat && (n <=? 57)%nat.

Fixpoint allDigits (s : string) : bool :=
  match s with
  | EmptyString => true
  | String c s' => isDigit c && allDigits s'
  end.

(** ** Session management *)

Module Session.

(** [getSessionBase(messageType, userId, groupId)] *)
Definition getSessionBase (currentConfig : PluginConfig)
    (messageType : string) (userId : jsid) (groupId : option jsid) : string :=
  if decide (messageType = "private") then "qq-" +:+ idToString userId
  else match groupSessionMode (behavior currentConfig) with
       | shared => "qq-g" +:+ optIdToString groupId
       | user => "qq-g" +:+ optIdToString groupId +:+ "-" +:+ idToString userId
       end.

(** [sessionEpochs.get(sessionBase) || 0] *)
Definition epochOf (sessionEpochs : gmap string Z) (sessionBase : string) : Z :=
  match sessionEpochs !! sessionBase with
  | Some e => e
  | None => 0
  end.

(** [getSessionKey(sessionBase)] *)
Definition getSessionKey (sessionEpochs : gmap string Z)
    (sessionBase : string) : string :=
  let epoch := epochOf sessionEpochs sessionBase in
  if decide (epoch > 0) then sessionBase +:+ "-" +:+ pretty epoch
  else sessionBase.

End Session.

(** ** JavaScript string helpers *)

(** White space as [String.prototype.trim] sees it, on the ASCII range:
    TAB, LF, VT, FF, CR and SPACE. *)
Definition isWhiteSpace (c : ascii) : bool :=
  let n := nat_of_ascii c in
  ((9 <=? n)%nat && (n <=? 13)%nat) || (n =? 32)%nat.

Fixpoint trimStart (s : string) : string :=
  match s with
  | EmptyString => EmptyString
  | String c s' => if isWhiteSpace c then trimStart s' else s
  end.

Fixpoint trimEnd (s : string) : string :=
  match s with
  | EmptyString => EmptyString
  | String c s' =>
      match trimEnd s' with
      | EmptyString => if isWhiteSpace c then EmptyString else String c EmptyString
      | t => String c t
      end
  end.

Definition trim (s : string) : string := trimEnd (trimStart s).

(** [s.endsWith(suf)] *)
Definition endsWith (s suf : string) : bool :=
  let n := String.length s in
  let m := String.length suf in
  (m <=? n)%nat && bool_decide (substring (n - m) m s = suf).

(** [s || d] on strings: the empty string is falsy. *)
Definition orElse (s d : string) : string :=
  match s with
  | EmptyString => d
  | _ => s
  end.

(** [s || null] *)
Definition orNull (s : string) : option string :=
  match s with
  | EmptyString => None
  | _ => Some s
  end.

(** ** Text extraction from a chat event *)

(** [ContentBlock], or a bare string in its place. *)
Inductive JsBlock :=
  | BlockStr (s : string)
  | BlockObj (text : option string)
  | BlockNull.

(** [MessageContent.content]: an array of blocks or a single one. *)
Inductive JsContent :=
  | ContentArr (bs : list JsBlock)
  | ContentOne (b : JsBlock).

(** [ChatEventPayload.message]: a string or a [MessageContent]. *)
Inductive JsMessage :=
  | MsgStr (s : string)
  | MsgObj (content : option JsContent) (text : option string).

(** Truthiness of [message.content]. *)
Definition contentTruthy (c : option JsContent) : bool :=
  match c with
  | None => false
  | Some (ContentOne (BlockStr EmptyString)) => false
  | Some (ContentOne BlockNull) => false
  | Some _ => true
  end.

Definition blockText (b : JsBlock) : string :=
  match b with
  | BlockStr s => s
  | BlockObj (Some t) => t
  | BlockObj None => ""
  | BlockNull => ""
  end.

(** [extractTextFromPayload(message)] *)
Definition extractTextFromPayload (message : option JsMessage) : string :=
  match message with
  | Some (MsgStr s) => s
  | None => ""
  | Some (MsgObj content text) =>
      if negb (contentTruthy content) then default "" text
      else
        let blocks := match content with
                      | Some (ContentArr bs) => bs
                      | Some (ContentOne b) => [b]
                      | None => []
                      end in
        fold_left (λ text b, text +:+ blockText b) blocks ""
  end.

(** [extractContentText(message)] *)
Definition extractContentText (message : option JsMessage) : string :=
  extractTextFromPayload message.

(** ** Gateway event waiters ([plugin_onmessage], the reply promise) *)

Module Gateway.

Record ChatEventPayload := {
  sessionKey : option string;
  runId : option string;
  state : string;
  message : option JsMessage;
  errorMessage : option string;
}.

(** How a reply promise was settled. *)
Inductive Cause :=
  | ByEvent (p : ChatEventPayload)
  | ByTimeout.

Record Settlement := {
  s_waiter : nat;
  s_value : option string;
  s_cause : Cause;
}.

(** The part of the heap the reply promises live in.  Each call of
    [plugin_onmessage] that reaches the gateway allocates one waiter: its
    promise, its [setTimeout] handle and the closure it stores in
    [gw.eventHandlers].  [closures] records the [sessionKey] each closure
    captured, [eventHandlers] is the client's [Map] from event type to
    handler, [timers] holds the pending time-outs with their delay, and
    [settled] lists every call of a promise's [resolve], latest first. *)
Record GwState := {
  closures : gmap nat string;
  eventHandlers : gmap string nat;
  timers : gmap nat Z;
  settled : list Settlement;
  nextWaiter : nat;
}.

Definition initial : GwState :=
  {| closures := ∅; eventHandlers := ∅; timers := ∅; settled := [];
     nextWaiter := 0 |}.

(** [cleanup()]: [clearTimeout(timeout); gw.eventHandlers.delete('chat')] *)
Definition cleanup (w : nat) (st : GwState) : GwState :=
  {| closures := closures st;
     eventHandlers := delete "chat" (eventHandlers st);
     timers := delete w (timers st);
     settled := settled st;
     nextWaiter := nextWaiter st |}.

(** [resolve(v)] *)
Definition resolve (w : nat) (v : option string) (c : Cause)
    (st : GwState) : GwState :=
  {| closures := closures st;
     eventHandlers := eventHandlers st;
     timers := timers st;
     settled := {| s_waiter := w; s_value := v; s_cause := c |} :: settled st;
     nextWaiter := nextWaiter st |}.

(** The value a promise holds: that of the first [resolve]. *)
Definition promiseValue (w : nat) (st : GwState) : option (option string) :=
  s_value <$> last (filter (λ s, s_waiter s = w) (settled st)).

(** The correlation test of the handler:
    [payload.sessionKey !== sessionKey &&
     !payload.sessionKey?.endsWith(':' + sessionKey)] makes it return. *)
Definition correlates (p : ChatEventPayload) (key : string) : bool :=
  match sessionKey p with
  | Some k => bool_decide (k = key) || endsWith k (":" +:+ key)
  | None => false
  end.

Definition ABORTED_NOTICE : string := "⏹ 已中止".
Definition ERROR_MARK : string := "❌ ".
Definition ERROR_DEFAULT : string := "处理出错".

(** The handler stored by [gw.eventHandlers.set('chat', (payload) => ...)],
    for the waiter [w] whose closure captured [key]. *)
Definition chatHandler (w : nat) (key : string)
    (payload : option ChatEventPayload) (st : GwState) : GwState :=
  match payload with
  | None => st
  | Some p =>
      if negb (correlates p key) then st
      else
        let st1 :=
          if decide (state p = "final") then
            let text := extractContentText (message p) in
            resolve w (orNull (trim text)) (ByEvent p) (cleanup w st)
          else st in
        let st2 :=
          if decide (state p = "aborted") then
            resolve w (Some ABORTED_NOTICE) (ByEvent p) (cleanup w st1)
          else st1 in
        if decide (state p = "error") then
          resolve w
            (Some (ERROR_MARK +:+ orElse (default "" (errorMessage p)) ERROR_DEFAULT))
            (ByEvent p) (cleanup w st2)
        else st2
  end.

Definition REPLY_TIMEOUT_MS : Z := 180000.

(** [new Promise((resolve) => { const timeout = setTimeout(..., 180000);
    ...; gw.eventHandlers.set('chat', handler) })] *)
Definition newWaiter (key : string) (st : GwState) : nat * GwState :=
  let w := nextWaiter st in
  (w, {| closures := <[w := key]> (closures st);
         eventHandlers := <["chat" := w]> (eventHandlers st);
         timers := <[w := REPLY_TIMEOUT_MS]> (timers st);
         settled := settled st;
         nextWaiter := S w |}).

(** The callback of [setTimeout]: [cleanup(); resolve(null)].  A timer
    that was cleared does not fire. *)
Definition onTimeout (w : nat) (st : GwState) : GwState :=
  match timers st !! w with
  | Some _ => resolve w None ByTimeout (cleanup w st)
  | None => st
  end.

(** Modelled from the spec: the dispatch of an inbound event frame by
    [GatewayClient] ([gateway-client.ts] is not part of the sources at
    hand).  A frame of type [ev] is delivered to the handlers the
    [eventHandlers] map of [index.ts] holds for [ev]; the map has one slot
    per event type. *)
Definition dispatchEvent (ev : string) (payload : option ChatEventPayload)
    (st : GwState) : GwState :=
  match eventHandlers st !! ev with
  | Some w =>
      match closures st !! w with
      | Some key => chatHandler w key payload st
      | None => st
      end
  | None => st
  end.

(** What can happen to the waiters, one at a time. *)
Inductive Action :=
  | Register (key : string)
  | Deliver (ev : string) (payload : option ChatEventPayload)
  | TimerFires (w : nat).

Definition step (st : GwState) (a : Action) : GwState :=
  match a with
  | Register key => (newWaiter key st).2
  | Deliver ev payload => dispatchEvent ev payload st
  | TimerFires w => onTimeout w st
  end.

Definition run (st : GwState) (acts : list Action) : GwState :=
  fold_left step acts st.

(** The settlements of one waiter. *)
Definition settlementsOf (w : nat) (st : GwState) : list Settlement :=
  filter (λ s, s_waiter s = w) (settled st).

(** A terminal state of a run. *)
Definition terminal (s : string) : bool :=
  bool_decide (s = "final") || bool_decide (s = "aborted")
  || bool_decide (s = "error").

(** What every reachable heap satisfies. *)
Record Inv (st : GwState) : Prop := {
  inv_closures : ∀ w key, closures st !! w = Some key → (w < nextWaiter st)%nat;
  inv_handlers : ∀ ev w, eventHandlers st !! ev = Some w →
    ev = "chat" ∧ is_Some (closures st !! w) ∧ is_Some (timers st !! w);
  inv_timers : ∀ w d, timers st !! w = Some d →
    d = REPLY_TIMEOUT_MS ∧ (w < nextWaiter st)%nat ∧ settlementsOf w st = [];
  inv_pending : ∀ w, (w < nextWaiter st)%nat →
    settlementsOf w st ≠ [] ∨ timers st !! w = Some REPLY_TIMEOUT_MS;
  inv_once : NoDup (s_waiter <$> settled st);
  inv_cause : ∀ s, s ∈ settled st →
    (s_waiter s < nextWaiter st)%nat ∧
    match s_cause s with
    | ByEvent p => ∃ key, closures st !! s_waiter s = Some key
                    ∧ correlates p key = true ∧ terminal (state p) = true
    | ByTimeout => s_value s = None
    end;
}.

(** The handler settled the promise of [w] with [v] on the event [p],
    and removed the waiter. *)
Definition settlesWith (w : nat) (v : option string) (p : ChatEventPayload)
    (st st' : GwState) : Prop :=
  settled st' = {| s_waiter := w; s_value := v; s_cause := ByEvent p |} :: settled st
  ∧ eventHandlers st' !! "chat" = None
  ∧ timers st' !! w = None.

End Gateway.

(** ** Outcomes

    The outcome of a call: a value, or an exception with its message. *)
Inductive Result (A : Type) : Type :=
  | Ok (a : A)
  | Thrown (e : string).
Arguments Ok {A} a.
Arguments Thrown {A} e.

(** ** Media cache

    The cache directory is the only part of the file system the code
    touches.  It is modelled as the list of its entries in the order
    [readdirSync] enumerates them, or [None] when the directory does not
    exist.  Each entry carries what [statSync] reports and whether
    [statSync] or [unlinkSync] fails on it, so that the [try]/[catch]
    blocks of the source have something to catch. *)

Module Cache.

Record FileInfo := {
  name : string;
  mtimeMs : Z;
  size : Z;
}.

Record FileEntry := {
  info : FileInfo;
  statFails : bool;
  unlinkFails : bool;
}.

(** The cache path: missing ([None]), or a directory that can be listed,
    with its entries in the order [readdirSync] enumerates them.  A path
    that exists without being a directory that can be listed, on which
    [readdirSync] throws, is not among the states. *)
Definition Fs : Type := option (list FileEntry).

(** What the host does with the calls of [downloadMedia] that create
    something: the error [fs.mkdirSync] or [fs.writeFileSync] throws, if it
    throws; the place, counted from the start, at which the directory
    enumerates a file that was just written; and [path.join], which depends
    on the platform. *)
Record Host := {
  mkdirThrows : option string;
  writeThrows : option string;
  slot : nat;
  pathJoin : string → string → string;
}.

(** Synchronous code over the file system; effects done before an
    exception stay done. *)
Definition FsM (A : Type) : Type := Fs → Result A * Fs.

#[global] Instance FsM_ret : MRet FsM := λ A a fs, (Ok a, fs).

#[global] Instance FsM_bind : MBind FsM := λ A B f m fs,
  match m fs with
  | (Ok a, fs') => f a fs'
  | (Thrown e, fs') => (Thrown e, fs')
  end.

(** [throw new Error(e)] *)
Definition throw {A : Type} (e : string) : FsM A := λ fs, (Thrown e, fs).

(** [try { m } catch (e) { h e }] *)
Definition tryCatch {A : Type} (m : FsM A) (h : string → FsM A) : FsM A :=
  λ fs, match m fs with
        | (Ok a, fs') => (Ok a, fs')
        | (Thrown e, fs') => h e fs'
        end.

Definition findEntry (f : string) (d : list FileEntry) : option FileEntry :=
  head (filter (λ e, name (info e) = f) d).

(** [fs.existsSync(dir)] *)
Definition existsSync : FsM bool := λ fs,
  (Ok (match fs with Some _ => true | None => false end), fs).

(** [fs.mkdirSync(dir, { recursive: true })] *)
Definition mkdirSync (host : Host) : FsM unit := λ fs,
  match mkdirThrows host with
  | Some e => (Thrown e, fs)
  | None => (Ok (), match fs with Some d => Some d | None => Some [] end)
  end.

(** [fs.readdirSync(dir)], on a path that is missing or a directory that
    can be listed. *)
Definition readdirSync : FsM (list string) := λ fs,
  match fs with
  | Some d => (Ok ((name ∘ info) <$> d), fs)
  | None => (Thrown "ENOENT", fs)
  end.

(** [fs.statSync(path.join(dir, f))] *)
Definition statSync (f : string) : FsM FileInfo := λ fs,
  match fs ≫= findEntry f with
  | Some e => if statFails e then (Thrown "EACCES", fs) else (Ok (info e), fs)
  | None => (Thrown "ENOENT", fs)
  end.

(** [fs.unlinkSync(path.join(dir, f))] *)
Definition unlinkSync (f : string) : FsM unit := λ fs,
  match fs with
  | Some d =>
      match findEntry f d with
      | Some e =>
          if unlinkFails e then (Thrown "EPERM", fs)
          else (Ok (), Some (filter (λ e', name (info e') ≠ f) d))
      | None => (Thrown "ENOENT", fs)
      end
  | None => (Thrown "ENOENT", fs)
  end.

(** [l] with [x] at place [n], or at the end when [l] is shorter. *)
Definition insertAt {A : Type} (n : nat) (x : A) (l : list A) : list A :=
  take n l ++ x :: drop n l.

(** The entry of a file of [len] bytes written at time [now]. *)
Definition written (f : string) (len now : Z) : FileEntry :=
  {| info := {| name := f; mtimeMs := now; size := len |};
     statFails := false; unlinkFails := false |}.

(** [fs.writeFileSync(path.join(dir, f), buf)] at time [now].  The write
    may throw, and it throws when the directory is missing; otherwise the
    file takes the place of an entry of its name, and the directory
    enumerates it where the host puts it. *)
Definition writeFileSync (host : Host) (f : string) (len now : Z) : FsM unit :=
  λ fs,
  match fs with
  | Some d =>
      match writeThrows host with
      | Some e => (Thrown e, fs)
      | None =>
          (Ok (), Some (insertAt (slot host) (written f len now)
                          (filter (λ e', name (info e') ≠ f) d)))
      end
  | None => (Thrown "ENOENT", fs)
  end.

(** [ensureCacheDir()] *)
Definition ensureCacheDir (host : Host) : FsM unit :=
  ex ← existsSync;
  if negb ex then mkdirSync host else mret ().

(** The loop of [getCacheDirSize]:
    [for (const f of ...) { try { total += statSync(f).size } catch {} }] *)
Fixpoint sumSizes (files : list string) (total : Z) : FsM Z :=
  match files with
  | [] => mret total
  | f :: rest =>
      total' ← tryCatch (s ← statSync f; mret (total + size s))
                        (λ _, mret total);
      sumSizes rest total'
  end.

(** [getCacheDirSize()] *)
Definition getCacheDirSize : FsM Z :=
  ex ← existsSync;
  if negb ex then mret 0
  else files ← readdirSync; sumSizes files 0.

(** [names.map((f) => { try { ...statSync... } catch { return null } })] *)
Fixpoint statAll (files : list string) : FsM (list (option FileInfo)) :=
  match files with
  | [] => mret []
  | f :: rest =>
      r ← tryCatch (s ← statSync f;
                    mret (Some {| name := f; mtimeMs := mtimeMs s; size := size s |}))
                   (λ _, mret None);
      rs ← statAll rest;
      mret (r :: rs)
  end.

(** [files.sort((a, b) => a.mtimeMs - b.mtimeMs)]: [Array.prototype.sort]
    is stable, and a stable sort is determined by its comparison; it is
    written here as an insertion sort. *)
Fixpoint insertByMtime (f : FileInfo) (l : list FileInfo) : list FileInfo :=
  match l with
  | [] => [f]
  | g :: l' => if mtimeMs f <=? mtimeMs g then f :: l
               else g :: insertByMtime f l'
  end.

Definition sortByMtime (l : list FileInfo) : list FileInfo :=
  foldr insertByMtime [] l.

(** The loop of [evictOldestFiles]:
    [for (const f of files) { if (currentSize + needBytes <= maxBytes) break;
       try { unlinkSync(f.name); currentSize -= f.size } catch {} }] *)
Fixpoint evictLoop (maxBytes needBytes : Z) (files : list FileInfo)
    (currentSize : Z) : FsM unit :=
  match files with
  | [] => mret ()
  | f :: rest =>
      if currentSize + needBytes <=? maxBytes then mret ()
      else
        currentSize' ← tryCatch (unlinkSync (name f);; mret (currentSize - size f))
                                (λ _, mret currentSize);
        evictLoop maxBytes needBytes rest currentSize'
  end.

Definition maxBytesOf (currentConfig : PluginConfig) : Z :=
  cacheMaxSizeMB (media currentConfig) * 1024 * 1024.

(** [evictOldestFiles(needBytes)] *)
Definition evictOldestFiles (currentConfig : PluginConfig) (needBytes : Z)
    : FsM unit :=
  ex ← existsSync;
  if negb ex then mret ()
  else
    let maxBytes := maxBytesOf currentConfig in
    currentSize ← getCacheDirSize;
    if currentSize + needBytes <=? maxBytes then mret ()
    else
      names ← readdirSync;
      stats ← statAll names;
      let files := sortByMtime (omap id stats) in
      evictLoop maxBytes needBytes files currentSize.

Definition ttlMsOf (currentConfig : PluginConfig) : Z :=
  cacheTTLMinutes (media currentConfig) * 60 * 1000.

(** The loop of [cleanExpiredCache]. *)
Fixpoint sweepLoop (ttlMs now : Z) (files : list string) : FsM unit :=
  match files with
  | [] => mret ()
  | f :: rest =>
      tryCatch (s ← statSync f;
                if now - mtimeMs s >? ttlMs then unlinkSync f else mret ())
               (λ _, mret ());;
      sweepLoop ttlMs now rest
  end.

(** [cleanExpiredCache()], run when [Date.now()] is [now]. *)
Definition cleanExpiredCache (currentConfig : PluginConfig) (now : Z)
    : FsM unit :=
  ex ← existsSync;
  if negb ex then mret ()
  else
    let ttlMs := ttlMsOf currentConfig in
    files ← readdirSync;
    sweepLoop ttlMs now files.

(** [startCacheCleanup()]: the state is [cacheCleanupTimer], the interval
    of the pending [setInterval] whose callback is [cleanExpiredCache], if
    any.  [stopCacheCleanup()] clears it first. *)
Definition stopCacheCleanup (cacheCleanupTimer : option Z) : option Z := None.

Definition startCacheCleanup (currentConfig : PluginConfig)
    (cacheCleanupTimer : option Z) : option Z :=
  let cleared := stopCacheCleanup cacheCleanupTimer in
  if negb (cacheEnabled (media currentConfig)) then cleared
  else Some (cacheTTLMinutes (media currentConfig) * 60 * 1000).

(** What [fetch(url)] came to. *)
Inductive Fetched :=
  | FetchThrows (e : string)
  | FetchNotOk
  | FetchBody (len : Z).

(** [downloadMedia(url, ext)].  [uuid] is what [randomUUID()] returns,
    [fetched] what the download came to and [now] the time of the write. *)
Definition downloadMedia (host : Host) (currentConfig : PluginConfig)
    (uuid ext : string) (fetched : Fetched) (now : Z) : FsM (option string) :=
  let filename := uuid +:+ ext in
  let filepath := pathJoin host (cachePath (media currentConfig)) filename in
  let body : FsM (option string) :=
    ensureCacheDir host;;
    match fetched with
    | FetchThrows e => throw e
    | FetchNotOk => mret None
    | FetchBody len =>
        evictOldestFiles currentConfig len;;
        writeFileSync host filename len now;;
        mret (Some filepath)
    end in
  tryCatch body (λ _, mret None).

(** Total size of a list of entries. *)
Definition totalSize (l : list FileInfo) : Z :=
  foldr (λ f acc, size f + acc) 0 l.

(** [a] was not modified after [b]. *)
Definition olderEq (a b : FileInfo) : Prop := mtimeMs a ≤ mtimeMs b.

(** Every entry can be inspected and deleted. *)
Definition healthy (d : list FileEntry) : Prop :=
  ∀ e, e ∈ d → statFails e = false ∧ unlinkFails e = false.

(** The entries [statSync] can read, which are those the size of the
    cache counts, and among them those [unlinkSync] can delete. *)
Definition readable (d : list FileEntry) : list FileEntry :=
  filter (λ e, statFails e = false) d.

Definition evictable (d : list FileEntry) : list FileEntry :=
  filter (λ e, statFails e = false ∧ unlinkFails e = false) d.

(** The file of these attributes is an entry of [d] that [unlinkSync] can
    delete. *)
Definition deletable (d : list FileEntry) (f : FileInfo) : Prop :=
  unlinkFails <$> findEntry (name f) d = Some false.

#[global] Instance deletable_dec d f : Decision (deletable d f).
Proof. unfold deletable. apply _. Defined.

(** The sweep deletes an entry when it can inspect it, finds it older
    than the TTL, and can delete it. *)
Definition swept (ttlMs now : Z) (e : FileEntry) : bool :=
  negb (statFails e) && (now - mtimeMs (info e) >? ttlMs)
  && negb (unlinkFails e).

(** The files the loop of [evictOldestFiles] deletes when every deletion
    succeeds: the shortest prefix that makes room. *)
Fixpoint evictPrefix (maxBytes needBytes : Z) (files : list FileInfo)
    (currentSize : Z) : list FileInfo :=
  match files with
  | [] => []
  | f :: rest =>
      if currentSize + needBytes <=? maxBytes then []
      else f :: evictPrefix maxBytes needBytes rest (currentSize - size f)
  end.

(** A sample: three files that can be inspected and deleted. *)
Definition cached (f : string) (mtime bytes : Z) : FileEntry :=
  {| info := {| name := f; mtimeMs := mtime; size := bytes |};
     statFails := false; unlinkFails := false |}.

Definition threeFiles : list FileEntry :=
  [cached "b.jpg" 200 600000; cached "a.jpg" 100 500000;
   cached "c.jpg" 200 300000].

(** A sample host: nothing throws, a new file is enumerated first, and
    paths are joined with a slash. *)
Definition posix : Host :=
  {| mkdirThrows := None; writeThrows := None; slot := 0;
     pathJoin := λ dir f, dir +:+ "/" +:+ f |}.

(** A sample configuration with a cap of 1 MB. *)
Definition smallCache : PluginConfig :=
  {| openclaw := openclaw DEFAULT_CONFIG; behavior := behavior DEFAULT_CONFIG;
     media := {| cacheEnabled := true; cachePath := "/tmp/cache";
                 cacheMaxSizeMB := 1; cacheTTLMinutes := 60 |} |}.

End Cache.

(** ** Effects *)

(** A message segment of the OneBot protocol, as far as the plugin builds
    them. *)
Inductive Segment :=
  | SegReply (id : string)
  | SegAt (qq : string)
  | SegText (text : string)
  | SegImage (file : string).

(** What the plugin asks of its collaborators, in the order it asks.
    [SendMsg] is [ctx.actions.call(action, { [idKey]: idVal, message })],
    [UploadFile] the call of [upload_group_file] or [upload_private_file],
    [Sleep] the [await sleep(ms)] between two chunks, [SetInputStatus] the
    call of [set_input_status], [RegisterWaiter] the registration of the
    reply waiter in [gw.eventHandlers], [GatewayRequest] the call of
    [gw.request], [GatewayDisconnect] that of [gatewayClient.disconnect()]
    and [Exec] the command line handed to [execAsync]; [GetMsg] is the call
    of [get_msg] for a quoted message, [GetGroupInfo] that of
    [get_group_info], and [Download] the call [downloadMedia(url, ext)],
    whose work on the cache directory is the subject of [Cache].  Calls of
    the logger are left out. *)
Inductive Effect :=
  | SendMsg (action idKey idVal : string) (message : list Segment)
  | UploadFile (action idKey idVal file fileName : string)
  | Sleep (ms : Z)
  | SetInputStatus (userId : string) (eventType : Z)
  | RegisterWaiter (sessionKey : string)
  | GatewayRequest (method sessionKey message idempotencyKey : string)
  | GatewayDisconnect
  | Exec (command : string) (timeout maxBuffer : Z)
  | GetMsg (messageId : string)
  | GetGroupInfo (groupId : string)
  | Download (url ext : string).

(** The adapter: [callThrows e] is the message of the error the action
    call [e] is rejected with, if it is rejected. *)
Record Ctx := {
  callThrows : Effect → option string;
}.

(** Asynchronous code of the plugin, awaited in sequence: the effects it
    attempted, and how it ended. *)
Definition Act (A : Type) : Type := list Effect * Result A.

#[global] Instance Act_ret : MRet Act := λ A a, ([], Ok a).

#[global] Instance Act_bind : MBind Act := λ A B f m,
  match m with
  | (tr, Ok a) => let '(tr', r) := f a in (tr ++ tr', r)
  | (tr, Thrown e) => (tr, Thrown e)
  end.

Definition actCatch {A : Type} (m : Act A) (h : string → Act A) : Act A :=
  match m with
  | (tr, Ok a) => (tr, Ok a)
  | (tr, Thrown e) => let '(tr', r) := h e in (tr ++ tr', r)
  end.

(** [await ctx.actions.call(...)] *)
Definition call (ctx : Ctx) (e : Effect) : Act unit :=
  match callThrows ctx e with
  | Some msg => ([e], Thrown msg)
  | None => ([e], Ok ())
  end.

(** [await sleep(ms)] *)
Definition sleep (ms : Z) : Act unit := ([Sleep ms], Ok ()).

(** ** Sending a reply ([sendReply]) *)

Module Reply.

(** The line feed; Rocq strings have no escapes. *)
Definition LF : string := String "010"%char EmptyString.

Definition isLineTerminator (c : ascii) : bool :=
  let n := nat_of_ascii c in (n =? 10)%nat || (n =? 13)%nat.

Fixpoint takeWhile (p : ascii → bool) (s : string) : string :=
  match s with
  | EmptyString => EmptyString
  | String c s' => if p c then String c (takeWhile p s') else EmptyString
  end.

Fixpoint dropWhile (p : ascii → bool) (s : string) : string :=
  match s with
  | EmptyString => EmptyString
  | String c s' => if p c then dropWhile p s' else s
  end.

Fixpoint dropChars (n : nat) (s : string) : string :=
  match n, s with
  | O, _ => s
  | S n', String _ s' => dropChars n' s'
  | S _, EmptyString => EmptyString
  end.

(** [s.slice(i, j)] for [0 <= i <= j]. *)
Definition slice (i j : nat) (s : string) : string := substring i (j - i) s.

(** The index after the last character of [w] that is no line terminator,
    if there is one. *)
Fixpoint afterLastInLine (w : string) : option nat :=
  match w with
  | EmptyString => None
  | String c w' =>
      match afterLastInLine w' with
      | Some n => Some (S n)
      | None => if isLineTerminator c then None else Some 1%nat
      end
  end.

(** A match of [/^MEDIA:\s*(.+)$/m] at the head of [s], which stands at the
    start of a line: the captured group and the length of the match.
    [\s*] first takes the whole run of white space; when something other
    than white space follows, [.+] runs to the end of that line.  When the
    input ends after the run, the engine backtracks into the run up to its
    last character that is no line terminator, which [.+] takes alone. *)
Definition mediaMatch (s : string) : option (string * nat) :=
  if String.prefix "MEDIA:" s then
    let r := dropChars 6 s in
    let w := takeWhile isWhiteSpace r in
    match dropWhile isWhiteSpace r with
    | String c r' =>
        let group := takeWhile (λ c, negb (isLineTerminator c)) (String c r') in
        Some (group, (6 + String.length w + String.length group)%nat)
    | EmptyString =>
        match afterLastInLine w with
        | Some n => Some (substring (n - 1) 1 w, (6 + n)%nat)
        | None => None
        end
    end
  else None.

(** One pass over the text for the global regular expression: the groups
    of all matches, and the text with the matches removed.  [atStart] says
    whether the position is at the start of a line, [skip] how many
    characters of the current match are still to be passed. *)
Fixpoint scanMedia (s : string) (atStart : bool) (skip : nat)
    : list string * string :=
  match s with
  | EmptyString => ([], EmptyString)
  | String c s' =>
      match skip with
      | S k => scanMedia s' false k
      | O =>
          match (if atStart then mediaMatch s else None) with
          | Some (group, len) =>
              let '(groups, kept) := scanMedia s' false (len - 1) in
              (group :: groups, kept)
          | None =>
              let '(groups, kept) := scanMedia s' (isLineTerminator c) 0 in
              (groups, String c kept)
          end
      end
  end.

(** The [while ((match = mediaRegex.exec(text)) !== null)] loop. *)
Definition mediaFilesOf (text : string) : list string :=
  filter (λ filePath, filePath ≠ "") (trim <$> (scanMedia text true 0).1).

(** [text.replace(/^MEDIA:\s*.+$/gm, '').trim()] *)
Definition stripMedia (text : string) : string :=
  trim (scanMedia text true 0).2.

(** [cleanText.replace(/^@\S+\s*\(<userId>\)\s*/, '')], or [None] when the
    pattern does not match.  [\S+] is tried from its longest extent [k]
    downwards.  The identifier is taken literally. *)
Fixpoint stripAtFrom (k : nat) (idText rest : string) : option string :=
  match k with
  | O => None
  | S k' =>
      let after := dropWhile isWhiteSpace (dropChars k rest) in
      let target := "(" +:+ idText +:+ ")" in
      if String.prefix target after then
        Some (dropWhile isWhiteSpace (dropChars (String.length target) after))
      else stripAtFrom k' idText rest
  end.

Definition stripLeadingAt (idText cleanText : string) : option string :=
  match cleanText with
  | String "@" rest =>
      let run := takeWhile (λ c, negb (isWhiteSpace c)) rest in
      stripAtFrom (String.length run) idText rest
  | _ => None
  end.

(** [cleanText.replace(/^\[CQ:reply[^\]]*\]\s*/, '')], or [None] when the
    pattern does not match. *)
Definition stripLeadingCqReply (cleanText : string) : option string :=
  if String.prefix "[CQ:reply" cleanText then
    let r := dropChars 9 cleanText in
    match dropWhile (λ c, negb (Ascii.eqb c "]")) r with
    | String _ after => Some (dropWhile isWhiteSpace after)
    | EmptyString => None
    end
  else None.

Fixpoint lastIndexOf (c : ascii) (s : string) : option nat :=
  match s with
  | EmptyString => None
  | String d s' =>
      match lastIndexOf c s' with
      | Some n => Some (S n)
      | None => if Ascii.eqb c d then Some 0%nat else None
      end
  end.

Fixpoint trimEndSlashes (p : string) : string :=
  match p with
  | EmptyString => EmptyString
  | String c p' =>
      match trimEndSlashes p' with
      | EmptyString => if Ascii.eqb c "/" then EmptyString else String c EmptyString
      | t => String c t
      end
  end.

(** [path.basename(p)] *)
Definition basename (p : string) : string :=
  let p' := trimEndSlashes p in
  match lastIndexOf "/" p' with
  | Some n => dropChars (S n) p'
  | None => p'
  end.

(** [path.extname(fileName)] for a name without a slash: from the last dot
    on, unless there is no dot, the last dot is the first character, or
    the name is [..]. *)
Definition extname (fileName : string) : string :=
  match lastIndexOf "." fileName with
  | None => ""
  | Some O => ""
  | Some n =>
      if bool_decide (fileName = "..") then "" else dropChars n fileName
  end.

(** [c.toLowerCase()] on the ASCII letters. *)
Definition lowerChar (c : ascii) : ascii :=
  let n := nat_of_ascii c in
  if (65 <=? n)%nat && (n <=? 90)%nat then ascii_of_nat (n + 32) else c.

Fixpoint toLowerCase (s : string) : string :=
  match s with
  | EmptyString => EmptyString
  | String c s' => String (lowerChar c) (toLowerCase s')
  end.

Definition imageExts : list string :=
  [".jpg"; ".jpeg"; ".png"; ".gif"; ".bmp"; ".webp"].

(** Truthiness of [opts?.eventMessageId]. *)
Definition idTruthy (o : option jsid) : bool :=
  match o with
  | None => false
  | Some (IdNum n) => negb (n =? 0)
  | Some (IdStr s) => negb (bool_decide (s = ""))
  end.

(** The prefix segments of a group reply: the quote, then the mention. *)
Definition prefixSegsOf (currentConfig : PluginConfig) (messageType : string)
    (userId : jsid) (eventMessageId : option jsid) : list Segment :=
  if bool_decide (messageType = "group") then
    (if replyQuoteMessage (behavior currentConfig) && idTruthy eventMessageId
     then [SegReply (optIdToString eventMessageId)] else [])
    ++ (if replyAtSender (behavior currentConfig)
        then [SegAt (idToString userId)] else [])
  else [].

(** The removal of a leading mention or quote that the prefix segments
    already carry. *)
Definition dedupPrefix (currentConfig : PluginConfig) (messageType : string)
    (userId : jsid) (prefixSegs : list Segment) (cleanText : string) : string :=
  if bool_decide (messageType = "group") && negb (bool_decide (prefixSegs = []))
  then
    let cleanText1 :=
      if replyAtSender (behavior currentConfig) then
        match stripLeadingAt (idToString userId) cleanText with
        | Some rest => trim rest
        | None => cleanText
        end
      else cleanText in
    if replyQuoteMessage (behavior currentConfig) then
      match stripLeadingCqReply cleanText1 with
      | Some rest => trim rest
      | None => cleanText1
      end
    else cleanText1
  else cleanText.

Definition maxLen : nat := 3000.

(** [Math.ceil(a / b)] on natural numbers. *)
Definition ceilDiv (a b : nat) : nat :=
  (if (a mod b =? 0)%nat then a / b else a / b + 1)%nat.

(** [`[${idx}/${total}]\n`] *)
Definition chunkPrefix (idx total : nat) : string :=
  "[" +:+ pretty idx +:+ "/" +:+ pretty total +:+ "]" +:+ LF.

(** The loop [for (let i = 0; i < cleanText.length; i += maxLen)], from
    index [i] on.  [fuel] bounds the number of rounds; [cleanText.length]
    rounds are more than the loop ever makes. *)
Fixpoint chunkLoop (fuel : nat) (ctx : Ctx) (action idKey idVal : string)
    (prefixSegs : list Segment) (cleanText : string) (total : nat) (i : nat)
    : Act unit :=
  match fuel with
  | O => mret ()
  | S fuel' =>
      if (i <? String.length cleanText)%nat then
        let idx := (i / maxLen + 1)%nat in
        let pre := if (1 <? total)%nat then chunkPrefix idx total else "" in
        let segs := (if (i =? 0)%nat then prefixSegs else [])
                    ++ [SegText (pre +:+ slice i (i + maxLen) cleanText)] in
        call ctx (SendMsg action idKey idVal segs);;
        (if (i + maxLen <? String.length cleanText)%nat
         then sleep 1000 else mret ());;
        chunkLoop fuel' ctx action idKey idVal prefixSegs cleanText total
          (i + maxLen)
      else mret ()
  end.

(** The text part of [sendReply]. *)
Definition sendTextPart (ctx : Ctx) (action idKey idVal : string)
    (prefixSegs : list Segment) (cleanText : string) : Act unit :=
  if bool_decide (cleanText = "") then mret ()
  else if (String.length cleanText <=? maxLen)%nat then
    call ctx (SendMsg action idKey idVal (prefixSegs ++ [SegText cleanText]))
  else
    let total := ceilDiv (String.length cleanText) maxLen in
    chunkLoop (String.length cleanText) ctx action idKey idVal prefixSegs
      cleanText total 0.

(** The media part of [sendReply]; a failure is caught for each file. *)
Fixpoint sendMediaFiles (ctx : Ctx) (messageType action idKey idVal : string)
    (mediaFiles : list string) : Act unit :=
  match mediaFiles with
  | [] => mret ()
  | filePath :: rest =>
      actCatch
        (let fileName := basename filePath in
         let ext := toLowerCase (extname fileName) in
         if bool_decide (ext ∈ imageExts) then
           call ctx (SendMsg action idKey idVal [SegImage ("file://" +:+ filePath)])
         else if bool_decide (messageType = "group") then
           call ctx (UploadFile "upload_group_file" "group_id" idVal filePath fileName)
         else
           call ctx (UploadFile "upload_private_file" "user_id" idVal filePath fileName))
        (λ _, mret ());;
      sendMediaFiles ctx messageType action idKey idVal rest
  end.

Definition actionOf (messageType : string) : string :=
  if bool_decide (messageType = "group") then "send_group_msg"
  else "send_private_msg".

Definition idKeyOf (messageType : string) : string :=
  if bool_decide (messageType = "group") then "group_id" else "user_id".

(** [String(messageType === 'group' ? groupId : userId)] *)
Definition idValOf (messageType : string) (groupId : option jsid)
    (userId : jsid) : string :=
  if bool_decide (messageType = "group") then optIdToString groupId
  else idToString userId.

(** [cleanText] as it stands before the text part is sent. *)
Definition cleanTextOf (currentConfig : PluginConfig) (messageType : string)
    (userId : jsid) (eventMessageId : option jsid) (text : string) : string :=
  dedupPrefix currentConfig messageType userId
    (prefixSegsOf currentConfig messageType userId eventMessageId)
    (stripMedia text).

(** [sendReply(ctx, messageType, groupId, userId, text, { eventMessageId })] *)
Definition sendReply (ctx : Ctx) (currentConfig : PluginConfig)
    (messageType : string) (groupId : option jsid) (userId : jsid)
    (text : string) (eventMessageId : option jsid) : Act unit :=
  let action := actionOf messageType in
  let idKey := idKeyOf messageType in
  let idVal := idValOf messageType groupId userId in
  let prefixSegs := prefixSegsOf currentConfig messageType userId eventMessageId in
  let mediaFiles := mediaFilesOf text in
  let cleanText := cleanTextOf currentConfig messageType userId eventMessageId text in
  sendTextPart ctx action idKey idVal prefixSegs cleanText;;
  sendMediaFiles ctx messageType action idKey idVal mediaFiles.

(** The [k]-th round of the chunk loop, counted from 0, for a text of
    [total] chunks: the message, and the pause unless it is the last. *)
Definition chunkMessage (action idKey idVal : string)
    (prefixSegs : list Segment) (cleanText : string) (total k : nat) : Effect :=
  SendMsg action idKey idVal
    ((if (k =? 0)%nat then prefixSegs else [])
     ++ [SegText (chunkPrefix (k + 1) total
                  +:+ slice (k * maxLen) (k * maxLen + maxLen) cleanText)]).

Definition chunkRound (action idKey idVal : string) (prefixSegs : list Segment)
    (cleanText : string) (total k : nat) : list Effect :=
  chunkMessage action idKey idVal prefixSegs cleanText total k
  :: (if (k + 1 <? total)%nat then [Sleep 1000] else []).


(** Whether some line of [s] begins with [MEDIA:]; [atStart] says whether
    [s] itself stands at the start of a line. *)
Fixpoint mediaLineAt (s : string) (atStart : bool) : bool :=
  match s with
  | EmptyString => false
  | String c s' =>
      (atStart && String.prefix "MEDIA:" s) || mediaLineAt s' (isLineTerminator c)
  end.

(** An effect that goes to the chat: a message, an upload, or the pause
    between two chunks. *)
Definition toChat (e : Effect) : bool :=
  match e with
  | SendMsg _ _ _ _ | UploadFile _ _ _ _ _ | Sleep _ => true
  | _ => false
  end.

(** The messages of a trace, without the pauses. *)
Definition isSleep (e : Effect) : bool :=
  match e with
  | Sleep _ => true
  | _ => false
  end.


End Reply.

(** ** The message entry point ([plugin_onmessage]) *)

Module Onmessage.
Import Session Reply.

(** [seg.data] of an inbound segment; every field may be missing. *)
Record SegData := {
  d_text : option string;
  d_url : option string;
  d_qq : option jsid;
  d_name : option string;
  d_id : option jsid;
  d_summary : option string;
}.

Record InSegment := {
  seg_type : string;
  seg_data : option SegData;
}.

(** [ExtractedMedia]; [extractMessage] only builds entries with a [url]. *)
Record ExtractedMedia := {
  m_type : string;
  m_url : string;
  m_name : option string;
}.

(** An inbound event as NapCat delivers it, identifiers being numbers.
    [time] is when it arrived; the code does not read it. *)
Record Event := {
  post_type : string;
  user_id : Z;
  nickname : option string;
  message_type : string;
  group_id : option Z;
  message_id : option Z;
  self_id : option Z;
  message : option (list InSegment);
  time : Z;
}.

(** The module-level variables the entry point reads. *)
Record Plugin := {
  loggerSet : bool;
  botUserId : option jsid;
  currentConfig : PluginConfig;
  sessionEpochs : gmap string Z;
}.

(** How the gateway round trip of one message went: [getGateway()] was
    rejected, [gw.request] was rejected, or the request was accepted and
    the reply promise was settled with [reply] ([None] for [null]). *)
Inductive GatewayOutcome :=
  | ConnectFails (e : string)
  | RequestFails (e : string)
  | Replied (reply : option string).

(** The message [get_msg] answers with ([result?.data || result]), as far
    as [resolveReply] reads it: [msg.sender?.nickname],
    [msg.sender?.user_id], [msg.message] when it is an array, and
    [msg.raw_message] when it is a string. *)
Record QuotedMsg := {
  q_nickname : option string;
  q_user_id : option jsid;
  q_message : option (list InSegment);
  q_raw_message : option string;
}.

(** The answers of the collaborators to one call of the entry point:
    the adapter, the message [get_msg] answers with when the call is not
    rejected ([None] for an answer that is falsy), the group name
    [get_group_info] answers with when the call is not rejected (empty
    when the answer has none), the result of [downloadMedia] for a URL and
    an extension, the value of [randomUUID()], the gateway round trip, and
    the local CLI. *)
Record Env := {
  ctx : Ctx;
  getMsgResult : option QuotedMsg;
  groupNameResult : string;
  downloadResult : string → string → option string;
  uuid : string;
  gateway : GatewayOutcome;
  cli : Result string;
}.

(** A string that is present and not empty. *)
Definition truthyStr (o : option string) : option string :=
  match o with
  | Some EmptyString => None
  | _ => o
  end.

(** An identifier that is present, not 0 and not empty. *)
Definition truthyId (o : option jsid) : option jsid :=
  if idTruthy o then o else None.

Definition truthyNum (o : option Z) : option Z :=
  match o with
  | Some 0 => None
  | _ => o
  end.

(** [String(botUserId)], where [botUserId] may be [null]. *)
Definition botIdToString (o : option jsid) : string :=
  match o with
  | Some i => idToString i
  | None => "null"
  end.

Definition FACE_OPEN : string := "[表情:".
Definition MFACE_DEFAULT : string := "[商城表情]".
Definition NICKNAME_DEFAULT : string := "未知".

(** One round of the loop of [extractMessage]. *)
Definition extractStep (botUserId : option jsid)
    (acc : list string * list ExtractedMedia * option string)
    (seg : InSegment) : list string * list ExtractedMedia * option string :=
  let '(textParts, media, replyMessageId) := acc in
  let data {A} (f : SegData → option A) : option A := seg_data seg ≫= f in
  let pushMedia (type : string) (name : option string) :=
    match truthyStr (data d_url) with
    | Some url =>
        (textParts, media ++ [{| m_type := type; m_url := url; m_name := name |}],
         replyMessageId)
    | None => acc
    end in
  if bool_decide (seg_type seg = "text") then
    match truthyStr (trim <$> data d_text) with
    | Some t => (textParts ++ [t], media, replyMessageId)
    | None => acc
    end
  else if bool_decide (seg_type seg = "image") then pushMedia "image" None
  else if bool_decide (seg_type seg = "at") then
    if bool_decide (optIdToString (data d_qq) ≠ botIdToString botUserId) then
      (textParts ++ ["@" +:+ match truthyStr (data d_name) with
                             | Some n => n
                             | None => optIdToString (data d_qq)
                             end],
       media, replyMessageId)
    else acc
  else if bool_decide (seg_type seg = "file") then pushMedia "file" (data d_name)
  else if bool_decide (seg_type seg = "record") then pushMedia "voice" None
  else if bool_decide (seg_type seg = "video") then pushMedia "video" None
  else if bool_decide (seg_type seg = "reply") then
    match truthyId (data d_id) with
    | Some i => (textParts, media, Some (idToString i))
    | None => acc
    end
  else if bool_decide (seg_type seg = "face") then
    (textParts ++ [FACE_OPEN +:+ match truthyId (data d_id) with
                                 | Some i => idToString i
                                 | None => "?"
                                 end +:+ "]"],
     media, replyMessageId)
  else if bool_decide (seg_type seg = "mface") then
    (textParts ++ [match truthyStr (data d_summary) with
                   | Some t => t
                   | None => MFACE_DEFAULT
                   end],
     media, replyMessageId)
  else acc.

(** [extractMessage(segments)] *)
Definition extractMessage (botUserId : option jsid) (segments : list InSegment)
    : string * list ExtractedMedia * option string :=
  let '(textParts, media, replyMessageId) :=
    fold_left (extractStep botUserId) segments ([], [], None) in
  (String.concat " " textParts, media, replyMessageId).

(** [cmdHelp()] *)
Definition cmdHelp : string :=
  String.concat LF
    ["ℹ️ Help"; ""; "Session"; "  /new  |  /clear  |  /stop"; "";
     "Options"; "  /think <level>  |  /model <id>  |  /verbose on|off"; "";
     "Status"; "  /status  |  /whoami  |  /context"; "";
     "所有 OpenClaw 命令均可直接使用"; "更多: /commands"].

(** [cmdWhoami(sessionBase, userId, nickname, messageType, groupId)] *)
Definition cmdWhoami (sessionEpochs : gmap string Z) (sessionBase : string)
    (userId : jsid) (nickname messageType : string) (groupId : option jsid)
    : string :=
  String.concat LF
    ["👤 " +:+ nickname;
     "QQ: " +:+ idToString userId;
     "类型: " +:+ (if bool_decide (messageType = "private") then "私聊"
                   else "群聊 (" +:+ optIdToString groupId +:+ ")");
     "Session: " +:+ getSessionKey sessionEpochs sessionBase].

(** [text.indexOf(' ')] *)
Fixpoint indexOfSpace (s : string) : option nat :=
  match s with
  | EmptyString => None
  | String c s' => if Ascii.eqb c " " then Some 0%nat
                   else S <$> indexOfSpace s'
  end.

(** The command word of a text that starts with a slash, in lower case. *)
Definition commandOf (text : string) : string :=
  toLowerCase (match indexOfSpace text with
               | Some (S n) => slice 0 (S n) text
               | _ => text
               end).

(** [LOCAL_COMMANDS[cmd](sessionBase, userId, nickname, messageType,
    groupId, args)] when there is such a command. *)
Definition localCommand (sessionEpochs : gmap string Z) (cmd sessionBase : string)
    (userId : jsid) (nickname messageType : string) (groupId : option jsid)
    : option string :=
  if bool_decide (cmd = "/help") then Some cmdHelp
  else if bool_decide (cmd = "/whoami") then
    Some (cmdWhoami sessionEpochs sessionBase userId nickname messageType groupId)
  else None.

(** The extension [downloadMedia] is asked for. *)
Definition extOf (m : ExtractedMedia) : string :=
  match truthyStr (m_name m) with
  | Some n => extname (basename n)
  | None =>
      if bool_decide (m_type m = "image") then ".jpg"
      else if bool_decide (m_type m = "voice") then ".amr"
      else if bool_decide (m_type m = "video") then ".mp4"
      else ""
  end.

(** One line of the media block: the cached file when caching is on and
    the download succeeded, the URL otherwise. *)
Definition mediaLine (env : Env) (currentConfig : PluginConfig)
    (m : ExtractedMedia) : string :=
  let suffix := match truthyStr (m_name m) with
                | Some n => " (" +:+ n +:+ ")"
                | None => ""
                end in
  let remote := "[" +:+ m_type m +:+ ": " +:+ m_url m +:+ suffix +:+ "]" in
  if cacheEnabled (media currentConfig) && negb (bool_decide (m_url m = "")) then
    match truthyStr (downloadResult env (m_url m) (extOf m)) with
    | Some localPath =>
        "[" +:+ m_type m +:+ ": file://" +:+ localPath +:+ suffix +:+ "]"
    | None => remote
    end
  else remote.

(** An effect that cannot fail, and several of them. *)
Definition emit (e : Effect) : Act unit := ([e], Ok ()).

Definition emitAll (es : list Effect) : Act unit := (es, Ok ()).

(** The calls of [downloadMedia] the loop over the media items makes: one
    for each item with a URL, when caching is on. *)
Definition downloadsOf (currentConfig : PluginConfig)
    (items : list ExtractedMedia) : list Effect :=
  omap (λ m, if cacheEnabled (media currentConfig)
                && negb (bool_decide (m_url m = ""))
             then Some (Download (m_url m) (extOf m)) else None) items.

(** *** The quoted message ([resolveReply]) *)

(** One round of the loop of [resolveReply] over the segments. *)
Definition quoteStep (acc : list string * list ExtractedMedia)
    (seg : InSegment) : list string * list ExtractedMedia :=
  let '(textParts, mediaItems) := acc in
  let data {A} (f : SegData → option A) : option A := seg_data seg ≫= f in
  let pushMedia (type : string) (name : option string) :=
    match truthyStr (data d_url) with
    | Some url =>
        (textParts,
         mediaItems ++ [{| m_type := type; m_url := url; m_name := name |}])
    | None => acc
    end in
  if bool_decide (seg_type seg = "text") then
    match truthyStr (trim <$> data d_text) with
    | Some t => (textParts ++ [t], mediaItems)
    | None => acc
    end
  else if bool_decide (seg_type seg = "image") then pushMedia "image" None
  else if bool_decide (seg_type seg = "file") then pushMedia "file" (data d_name)
  else if bool_decide (seg_type seg = "record") then pushMedia "voice" None
  else if bool_decide (seg_type seg = "video") then pushMedia "video" None
  else if bool_decide (seg_type seg = "at") then
    (textParts ++ ["@" +:+ match truthyStr (data d_name) with
                           | Some n => n
                           | None => optIdToString (data d_qq)
                           end],
     mediaItems)
  else if bool_decide (seg_type seg = "face") then
    (textParts ++ [FACE_OPEN +:+ match truthyId (data d_id) with
                                 | Some i => idToString i
                                 | None => "?"
                                 end +:+ "]"],
     mediaItems)
  else if bool_decide (seg_type seg = "mface") then
    (textParts ++ [match truthyStr (data d_summary) with
                   | Some t => t
                   | None => MFACE_DEFAULT
                   end],
     mediaItems)
  else acc.

(** [\w] *)
Definition isWordChar (c : ascii) : bool :=
  let n := nat_of_ascii c in
  ((48 <=? n)%nat && (n <=? 57)%nat) || ((65 <=? n)%nat && (n <=? 90)%nat)
  || (n =? 95)%nat || ((97 <=? n)%nat && (n <=? 122)%nat).

(** [[^,\]]] *)
Definition isCqValueChar (c : ascii) : bool :=
  negb (Ascii.eqb c ",") && negb (Ascii.eqb c "]").

(** The items of a CQ code, each a comma and a run of characters other
    than a comma and a closing bracket, read from a comma or from inside an
    item: the text they take and what follows.  An item runs to the next comma or closing
    bracket; a comma opens an item only when a character of an item
    follows it. *)
Fixpoint cqRun (s : string) : string * string :=
  match s with
  | EmptyString => (EmptyString, EmptyString)
  | String c s' =>
      if Ascii.eqb c "," then
        match s' with
        | String c2 _ =>
            if isCqValueChar c2
            then let '(m, r) := cqRun s' in (String c m, r)
            else (EmptyString, s)
        | EmptyString => (EmptyString, s)
        end
      else if Ascii.eqb c "]" then (EmptyString, s)
      else let '(m, r) := cqRun s' in (String c m, r)
  end.

(** A match of the regular expression of [resolveReply] at the head of
    [s]: an opening bracket with [CQ:], a word (the first group), any
    number of items each opened by a comma (together the second group), and
    a closing bracket.  The result is the two groups and the length of the
    match.  The word and every item are taken as far as they run; a shorter
    one would leave a character that neither a comma nor the closing
    bracket matches. *)
Definition cqMatch (s : string) : option (string * string * nat) :=
  if String.prefix "[CQ:" s then
    let s1 := dropChars 4 s in
    let cqType := takeWhile isWordChar s1 in
    if bool_decide (cqType = "") then None
    else
      let s2 := dropChars (String.length cqType) s1 in
      let '(paramsStr, s3) :=
        if String.prefix "," s2 then cqRun s2 else (EmptyString, s2) in
      if String.prefix "]" s3
      then Some (cqType, paramsStr,
                 (4 + String.length cqType + String.length paramsStr + 1)%nat)
      else None
  else None.

(** One pass over [raw_message] for the global regular expression: the
    text before the first match, and for every match its two groups and the
    text between it and the next match or the end.  [skip] says how many
    characters of the current match are still to be passed. *)
Fixpoint scanCQ (s : string) (skip : nat)
    : string * list (string * string * string) :=
  match s with
  | EmptyString => (EmptyString, [])
  | String c s' =>
      match skip with
      | S k => scanCQ s' k
      | O =>
          match cqMatch s with
          | Some (cqType, paramsStr, len) =>
              let '(after, more) := scanCQ s' (len - 1) in
              (EmptyString, (cqType, paramsStr, after) :: more)
          | None =>
              let '(before, more) := scanCQ s' 0 in
              (String c before, more)
          end
      end
  end.

(** [s.split(sep)] for a separator of one character. *)
Fixpoint splitOn (sep : ascii) (s : string) : list string :=
  match s with
  | EmptyString => [EmptyString]
  | String c s' =>
      if Ascii.eqb c sep then EmptyString :: splitOn sep s'
      else match splitOn sep s' with
           | x :: xs => String c x :: xs
           | [] => [String c EmptyString]
           end
  end.

(** [s.indexOf(c)] *)
Fixpoint indexOfChar (c : ascii) (s : string) : option nat :=
  match s with
  | EmptyString => None
  | String d s' => if Ascii.eqb d c then Some 0%nat
                   else S <$> indexOfChar c s'
  end.

(** The assignments [params[p.slice(0, eq)] = p.slice(eq + 1)], in their
    order. *)
Definition cqParams (paramsStr : string) : list (string * string) :=
  if bool_decide (paramsStr = "") then []
  else omap (λ p, match indexOfChar "=" p with
                  | Some (S n) => Some (slice 0 (S n) p, dropChars (S n + 1) p)
                  | _ => None
                  end)
            (splitOn "," (dropChars 1 paramsStr)).

(** [params[key]] when it is a string that is not empty; the last
    assignment to a key is the one that counts. *)
Definition cqParam (key : string) (params : list (string * string))
    : option string :=
  truthyStr (snd <$> head (filter (λ kv, kv.1 = key) (reverse params))).

(** [params[key]], possibly empty or missing. *)
Definition cqParamRaw (key : string) (params : list (string * string))
    : option string :=
  snd <$> head (filter (λ kv, kv.1 = key) (reverse params)).

(** What one CQ code adds. *)
Definition cqStep (acc : list string * list ExtractedMedia)
    (cqType paramsStr : string) : list string * list ExtractedMedia :=
  let '(textParts, mediaItems) := acc in
  let params := cqParams paramsStr in
  let pushMedia (type : string) (url : string) (name : option string) :=
    (textParts,
     mediaItems ++ [{| m_type := type; m_url := url; m_name := name |}]) in
  match cqParam "url" params with
  | Some url =>
      if bool_decide (cqType = "image") then pushMedia "image" url None
      else if bool_decide (cqType = "file")
      then pushMedia "file" url (cqParamRaw "file" params)
      else if bool_decide (cqType = "record") then pushMedia "voice" url None
      else if bool_decide (cqType = "video") then pushMedia "video" url None
      else if bool_decide (cqType = "at")
      then (textParts ++ ["@" +:+ default (default "" (cqParam "qq" params))
                                    (cqParam "name" params)],
            mediaItems)
      else acc
  | None =>
      if bool_decide (cqType = "at")
      then (textParts ++ ["@" +:+ default (default "" (cqParam "qq" params))
                                    (cqParam "name" params)],
            mediaItems)
      else acc
  end.

(** [if (t) textParts.push(t)] *)
Definition pushText (acc : list string * list ExtractedMedia) (t : string)
    : list string * list ExtractedMedia :=
  if bool_decide (t = "") then acc else (acc.1 ++ [t], acc.2).

(** The loop of [resolveReply] over the CQ codes of [raw_message]. *)
Definition rawParts (raw : string) : list string * list ExtractedMedia :=
  let '(before, matches) := scanCQ raw 0 in
  fold_left (λ acc m, let '(cqType, paramsStr, after) := m in
                      pushText (cqStep acc cqType paramsStr) (trim after))
            matches (pushText ([], []) (trim before)).

(** [textParts] and [mediaItems] of the quoted message: from the segments
    when there are any, from [raw_message] otherwise. *)
Definition quotedParts (msg : QuotedMsg) : list string * list ExtractedMedia :=
  match q_message msg with
  | Some (seg :: segs) => fold_left quoteStep (seg :: segs) ([], [])
  | _ =>
      match truthyStr (q_raw_message msg) with
      | Some raw => rawParts raw
      | None => ([], [])
      end
  end.

Definition QUOTE_OPEN : string := "[引用 ".
Definition QUOTE_MID : string := ") 的消息]".
Definition QUOTE_CLOSE : string := "[/引用]".

(** [resolveReply(ctx, messageId)] *)
Definition resolveReply (env : Env) (currentConfig : PluginConfig)
    (messageId : string) : Act (option string) :=
  actCatch
    (call (ctx env) (GetMsg messageId);;
     match getMsgResult env with
     | None => mret None
     | Some msg =>
         let senderName :=
           match truthyStr (q_nickname msg) with
           | Some n => n
           | None => match truthyId (q_user_id msg) with
                     | Some i => idToString i
                     | None => NICKNAME_DEFAULT
                     end
           end in
         let senderQQ := match truthyId (q_user_id msg) with
                         | Some i => idToString i
                         | None => ""
                         end in
         let '(textParts, mediaItems) := quotedParts msg in
         emitAll (downloadsOf currentConfig mediaItems);;
         let mediaParts := mediaLine env currentConfig <$> mediaItems in
         let body := String.concat " " textParts in
         let mediaStr := match mediaParts with
                         | [] => ""
                         | _ => LF +:+ String.concat LF mediaParts
                         end in
         let content := body +:+ mediaStr in
         if bool_decide (trim content = "") then mret None
         else mret (Some (QUOTE_OPEN +:+ senderName +:+ "(" +:+ senderQQ
                          +:+ QUOTE_MID +:+ LF +:+ content +:+ LF
                          +:+ QUOTE_CLOSE))
     end)
    (λ _, mret None).

(** [if (replyMessageId && currentConfig.behavior.resolveReply) ...]: the
    quoted message, when there is one and it is to be resolved. *)
Definition quoteOf (env : Env) (currentConfig : PluginConfig)
    (replyMessageId : option string) : Act (option string) :=
  match truthyStr replyMessageId with
  | Some messageId =>
      if resolveReplyFlag (behavior currentConfig)
      then resolveReply env currentConfig messageId
      else mret None
  | None => mret None
  end.

(** [if (messageType === 'group' && groupId) try { ... } catch { ... }]: the
    name of the group. *)
Definition groupNameOf (env : Env) (messageType : string)
    (groupId : option jsid) : Act string :=
  if bool_decide (messageType = "group") && idTruthy groupId then
    actCatch (call (ctx env) (GetGroupInfo (optIdToString groupId));;
              mret (groupNameResult env))
             (λ _, mret "")
  else mret "".

(** The identity header. *)
Definition identityHeader (groupName nickname messageType : string)
    (userId : jsid) (groupId : option jsid) : string :=
  String.concat " | "
    (["[发送者: " +:+ nickname +:+ " (QQ: " +:+ idToString userId +:+ ")"]
     ++ (if bool_decide (messageType = "group") && idTruthy groupId
         then ["群: " +:+ orElse groupName (optIdToString groupId)
               +:+ " (" +:+ optIdToString groupId +:+ ")"]
         else [])
     ++ [if bool_decide (messageType = "private") then "私聊]" else "群聊]"]).

(** [openclawMessage] *)
Definition buildMessage (env : Env) (currentConfig : PluginConfig)
    (identity replyContext text : string) (extractedMedia : list ExtractedMedia)
    : string :=
  identity +:+ LF
  +:+ (if bool_decide (replyContext = "") then "" else replyContext +:+ LF)
  +:+ text
  +:+ (match extractedMedia with
       | [] => ""
       | _ => LF +:+ LF
              +:+ String.concat LF (mediaLine env currentConfig <$> extractedMedia)
       end).

(** [openclawMessage.replace(/'/g, "'\\''")] *)
Fixpoint escapeQuotes (s : string) : string :=
  match s with
  | EmptyString => EmptyString
  | String c s' =>
      if Ascii.eqb c "'" then "'\''" +:+ escapeQuotes s'
      else String c (escapeQuotes s')
  end.

(** How [sh] reads a word written with single quotes and backslashes
    (POSIX Shell Command Language, 2.2.2 and 2.2.3): between single quotes
    every character stands for itself up to the next single quote; outside
    them a backslash makes the next character stand for itself.  [None] for
    a word that leaves a quote open or uses anything else.  This is the
    reader of the command line, not code of the plugin. *)
Fixpoint shellRead (word : string) (quoted : bool) : option string :=
  match word with
  | EmptyString => if quoted then None else Some EmptyString
  | String c rest =>
      if quoted then
        if Ascii.eqb c "'" then shellRead rest false
        else String c <$> shellRead rest true
      else if Ascii.eqb c "'" then shellRead rest true
      else if Ascii.eqb c "\" then
        match rest with
        | String d rest' => String d <$> shellRead rest' false
        | EmptyString => None
        end
      else None
  end.

(** The command line of the fallback. *)
Definition cliCommand (currentConfig : PluginConfig)
    (sessionKey openclawMessage : string) : string :=
  "OPENCLAW_TOKEN='" +:+ token (openclaw currentConfig) +:+ "' "
  +:+ cliPath (openclaw currentConfig) +:+ " agent --session-id '"
  +:+ sessionKey +:+ "' --message '" +:+ escapeQuotes openclawMessage
  +:+ "' 2>&1".

Definition CLI_TIMEOUT_MS : Z := 180000.
Definition CLI_MAX_BUFFER : Z := 1024 * 1024.
Definition FAILURE_PREFIX : string := "处理出错: ".

(** [await execAsync(command, { timeout, maxBuffer })] *)
Definition execAsync (env : Env) (command : string) (timeout maxBuffer : Z)
    : Act string :=
  ([Exec command timeout maxBuffer], cli env).

(** The gateway round trip and its fallback: the inner [try]/[catch] of
    the entry point. *)
Definition roundTrip (env : Env) (currentConfig : PluginConfig)
    (messageType : string) (groupId : option jsid) (userId : jsid)
    (eventMessageId : option jsid) (sessionKey openclawMessage : string)
    : Act unit :=
  let reply text :=
    sendReply (ctx env) currentConfig messageType groupId userId text
      eventMessageId in
  actCatch
    (match gateway env with
     | ConnectFails e => ([], Thrown e)
     | RequestFails e =>
         emit (RegisterWaiter sessionKey);;
         ([GatewayRequest "chat.send" sessionKey openclawMessage (uuid env)],
          Thrown e)
     | Replied r =>
         emit (RegisterWaiter sessionKey);;
         emit (GatewayRequest "chat.send" sessionKey openclawMessage (uuid env));;
         match truthyStr r with
         | Some text => reply text
         | None => mret ()
         end
     end)
    (λ e,
       emit GatewayDisconnect;;
       actCatch
         (stdout ← execAsync env
                     (cliCommand currentConfig sessionKey openclawMessage)
                     CLI_TIMEOUT_MS CLI_MAX_BUFFER;
          if bool_decide (trim stdout = "") then mret ()
          else reply (trim stdout))
         (λ _, reply (FAILURE_PREFIX +:+ slice 0 100 e))).

(** [Number(id) === Number(x)] for some [id] of the list. *)
Definition listed (l : list Z) (x : Z) : bool := bool_decide (x ∈ l).

(** [if (messageType === 'private') setTypingStatus(ctx, userId, true)] *)
Definition typingOf (env : Env) (messageType : string) (userId : jsid)
    : Act unit :=
  if bool_decide (messageType = "private")
  then actCatch (call (ctx env) (SetInputStatus (idToString userId) 1))
                (λ _, mret ())
  else mret ().

(** The body of the outer [try] of the entry point, after [botUserId] was
    set. *)
Definition handle (env : Env) (st : Plugin) (event : Event) : Act unit :=
  let cfg := currentConfig st in
  let b := behavior cfg in
  let userId := user_id event in
  let nick := orElse (default "" (nickname event)) NICKNAME_DEFAULT in
  let messageType := message_type event in
  let groupId := group_id event in
  let gid := IdNum <$> groupId in
  let uid := IdNum userId in
  let eventMessageId := IdNum <$> message_id event in
  let isGroup := bool_decide (messageType = "group") in
  let isPrivate := bool_decide (messageType = "private") in
  let hasGroup := bool_decide (is_Some (truthyNum groupId)) in
  let inGroupWhitelist := match groupId with
                          | Some g => listed (groupWhitelist b) g
                          | None => false
                          end in
  if negb (bool_decide (userBlacklist b = [])) && listed (userBlacklist b) userId
  then mret ()
  else if negb (bool_decide (userWhitelist b = []))
          && negb (isGroup && hasGroup && groupBypassUserWhitelist b
                   && negb (bool_decide (groupWhitelist b = []))
                   && inGroupWhitelist)
          && negb (listed (userWhitelist b) userId)
  then mret ()
  else
    let shouldHandle :=
      if isPrivate then privateChat b
      else if isGroup then
        hasGroup
        && (bool_decide (groupWhitelist b = []) || inGroupWhitelist)
        && (negb (groupAtOnly b)
            || match message event with
               | Some segs =>
                   bool_decide (Exists (λ seg,
                     seg_type seg = "at"
                     ∧ optIdToString (seg_data seg ≫= d_qq)
                       = optIdToString
                           (match truthyId (botUserId st) with
                            | Some i => Some i
                            | None => IdNum <$> self_id event
                            end)) segs)
               | None => false
               end)
      else false in
    if negb shouldHandle then mret ()
    else
      let '(text, extractedMedia, replyMessageId) :=
        extractMessage (botUserId st) (default [] (message event)) in
      if bool_decide (text = "") && bool_decide (extractedMedia = [])
         && negb (bool_decide (is_Some (truthyStr replyMessageId)))
      then mret ()
      else
        resolved ← quoteOf env cfg replyMessageId;
        let replyContext := default "" (truthyStr resolved) in
        let sessionBase := getSessionBase cfg messageType uid gid in
        let isCommand := String.prefix "/" text in
        if isCommand && commandAdminOnly b
           && negb (bool_decide (adminQQ b = [])) && negb (listed (adminQQ b) userId)
        then mret ()
        else
          match (if isCommand
                 then localCommand (sessionEpochs st) (commandOf text) sessionBase
                        uid nick messageType gid
                 else None) with
          | Some result =>
              sendReply (ctx env) cfg messageType gid uid result eventMessageId
          | None =>
              groupName ← groupNameOf env messageType gid;
              let identity :=
                identityHeader groupName nick messageType uid gid in
              emitAll (downloadsOf cfg extractedMedia);;
              let openclawMessage :=
                buildMessage env cfg identity replyContext text extractedMedia in
              typingOf env messageType uid;;
              let sessionKey := getSessionKey (sessionEpochs st) sessionBase in
              roundTrip env cfg messageType gid uid eventMessageId sessionKey
                openclawMessage
          end.

(** [plugin_onmessage(ctx, event)]: the effects, and the module-level
    variables afterwards.  The outer [catch] only logs. *)
Definition plugin_onmessage (env : Env) (st : Plugin) (event : Event)
    : Act unit * Plugin :=
  if negb (loggerSet st) then (mret (), st)
  else if negb (bool_decide (post_type event = "message")) then (mret (), st)
  else
    let st' :=
      match truthyId (botUserId st), truthyNum (self_id event) with
      | None, Some self =>
          {| loggerSet := loggerSet st; botUserId := Some (IdNum self);
             currentConfig := currentConfig st;
             sessionEpochs := sessionEpochs st |}
      | _, _ => st
      end in
    (actCatch (handle env st' event) (λ _, mret ()), st').

(** The entry point on a sequence of events, each with the answers of the
    collaborators to it; the events are taken up in the order they
    arrive. *)
Fixpoint onmessages (st : Plugin) (events : list (Env * Event))
    : list Effect * Plugin :=
  match events with
  | [] => ([], st)
  | (env, event) :: rest =>
      let '(act, st') := plugin_onmessage env st event in
      let '(tr, st'') := onmessages st' rest in
      (act.1 ++ tr, st'')
  end.

(** The requests to the gateway in a trace. *)
Definition requestsOf (tr : list Effect) : list (string * string) :=
  omap (λ e, match e with
             | GatewayRequest _ sessionKey message _ => Some (sessionKey, message)
             | _ => None
             end) tr.

(** An effect that only fetches something for the plugin: a quoted
    message, the name of a group, or a media file. *)
Definition fetches (e : Effect) : bool :=
  match e with
  | GetMsg _ | GetGroupInfo _ | Download _ _ => true
  | _ => false
  end.

(** The session key the entry point computes for an event:
    [getSessionKey(getSessionBase(messageType, userId, groupId))]. *)
Definition keyOf (st : Plugin) (event : Event) : string :=
  getSessionKey (sessionEpochs st)
    (getSessionBase (currentConfig st) (message_type event)
       (IdNum (user_id event)) (IdNum <$> group_id event)).

(** The module-level variables with [behavior.commandAdminOnly] set to
    [v] and everything else as it is. *)
Definition setCommandAdminOnly (v : bool) (st : Plugin) : Plugin :=
  let cfg := currentConfig st in
  let b := behavior cfg in
  {| loggerSet := loggerSet st; botUserId := botUserId st;
     currentConfig :=
       {| openclaw := openclaw cfg;
          behavior :=
            {| privateChat := privateChat b; groupAtOnly := groupAtOnly b;
               adminQQ := adminQQ b; commandAdminOnly := v;
               userWhitelist := userWhitelist b;
               groupWhitelist := groupWhitelist b;
               groupBypassUserWhitelist := groupBypassUserWhitelist b;
               userBlacklist := userBlacklist b; debounceMs := debounceMs b;
               resolveReplyFlag := resolveReplyFlag b;
               replyMaxDepth := replyMaxDepth b;
               groupSessionMode := groupSessionMode b;
               replyAtSender := replyAtSender b;
               replyQuoteMessage := replyQuoteMessage b |};
          media := media cfg |};
     sessionEpochs := sessionEpochs st |}.

(** Samples. *)

Definition textSegment (t : string) : InSegment :=
  {| seg_type := "text";
     seg_data := Some {| d_text := Some t; d_url := None; d_qq := None;
                         d_name := None; d_id := None; d_summary := None |} |}.

(** A private text message of user [u], arriving at time [t]. *)
Definition privateText (t u : Z) (text : string) : Event :=
  {| post_type := "message"; user_id := u; nickname := Some "bob";
     message_type := "private"; group_id := None; message_id := Some 1;
     self_id := Some 999; message := Some [textSegment text]; time := t |}.

(** Collaborators that never fail, and a gateway that answers [r]. *)
Definition answering (r : option string) : Env :=
  {| ctx := {| callThrows := λ _, None |}; getMsgResult := None;
     groupNameResult := ""; downloadResult := λ _ _, None; uuid := "run";
     gateway := Replied r; cli := Ok "" |}.

(** An adapter that rejects every call, with a gateway that answers [r]. *)
Definition refusing (r : option string) : Env :=
  {| ctx := {| callThrows := λ _, Some "rejected" |};
     getMsgResult := None; groupNameResult := "";
     downloadResult := λ _ _, None; uuid := "run";
     gateway := Replied r; cli := Ok "" |}.

Definition started : Plugin :=
  {| loggerSet := true; botUserId := None; currentConfig := DEFAULT_CONFIG;
     sessionEpochs := ∅ |}.

End Onmessage.

(** ** Theorems *)

Module SessionFacts.
Import Session.

(** C3.  The session base is a function of the message scope, the
    participant and the configuration: private gives [qq-<userId>], a
    group gives [qq-g<groupId>] under the shared policy and
    [qq-g<groupId>-<userId>] under the per-user policy; and the session
    key of a base is the base when its epoch is 0 (or was never set) and
    [<base>-<epoch>] when the epoch is positive. *)
Theorem session_identity_and_key :
  ∀ (cfg : PluginConfig) (userId groupId : jsid)
    (sessionEpochs : gmap string Z) (base : string) (epoch : Z),
    0 ≤ epoch →
    epochOf sessionEpochs base = epoch →
    getSessionBase cfg "private" userId (Some groupId)
      = "qq-" +:+ idToString userId
    ∧ getSessionBase cfg "private" userId None = "qq-" +:+ idToString userId
    ∧ (groupSessionMode (behavior cfg) = shared →
       getSessionBase cfg "group" userId (Some groupId)
         = "qq-g" +:+ idToString groupId)
    ∧ (groupSessionMode (behavior cfg) = user →
       getSessionBase cfg "group" userId (Some groupId)
         = "qq-g" +:+ idToString groupId +:+ "-" +:+ idToString userId)
    ∧ (epoch = 0 → getSessionKey sessionEpochs base = base)
    ∧ (epoch ≠ 0 →
       getSessionKey sessionEpochs base = base +:+ "-" +:+ pretty epoch).
Proof.
  intros cfg userId groupId eps base epoch Hnn Hep.
  unfold getSessionBase, getSessionKey. rewrite Hep. simpl.
  repeat split.
  - by intros ->.
  - by intros ->.
  - intros ->. by rewrite decide_False by lia.
  - intros Hne. by rewrite decide_True by lia.
Qed.

(** A base whose epoch was set to 2, and a group message under the
    per-user policy. *)
Lemma session_identity_and_key_witness :
  getSessionBase DEFAULT_CONFIG "group" (IdNum 123) (Some (IdNum 456))
    = "qq-g" +:+ idToString (IdNum 456) +:+ "-" +:+ idToString (IdNum 123)
  ∧ getSessionKey {[ "qq-123" := 2 ]} "qq-123" = "qq-123" +:+ "-" +:+ pretty 2.
Proof.
  destruct (session_identity_and_key DEFAULT_CONFIG (IdNum 123) (IdNum 456)
              {[ "qq-123" := 2 ]} "qq-123" 2) as (_ & _ & _ & Hu & _ & Hk).
  - lia.
  - reflexivity.
  - split; [by apply Hu | by apply Hk].
Defined.

Example session_key_examples :
  getSessionBase DEFAULT_CONFIG "private" (IdNum 123) None = "qq-123"
  ∧ getSessionBase DEFAULT_CONFIG "group" (IdNum 123) (Some (IdNum 456))
    = "qq-g456-123"
  ∧ getSessionKey ∅ "qq-123" = "qq-123"
  ∧ getSessionKey {[ "qq-123" := 2 ]} "qq-123" = "qq-123-2".
Proof. vm_compute. repeat split; reflexivity. Qed.

End SessionFacts.

(** *** The reply waiters *)

Module GatewayFacts.
Import Gateway.

Lemma chatHandler_unfold w key p st :
  chatHandler w key (Some p) st =
    if correlates p key then
      if decide (state p = "final") then
        resolve w (orNull (trim (extractContentText (message p)))) (ByEvent p)
          (cleanup w st)
      else if decide (state p = "aborted") then
        resolve w (Some ABORTED_NOTICE) (ByEvent p) (cleanup w st)
      else if decide (state p = "error") then
        resolve w
          (Some (ERROR_MARK +:+ orElse (default "" (errorMessage p)) ERROR_DEFAULT))
          (ByEvent p) (cleanup w st)
      else st
    else st.
Proof.
  unfold chatHandler. destruct (correlates p key); simpl; [|done].
  repeat case_decide; congruence.
Qed.

Lemma terminal_false s :
  terminal s = false ↔ s ≠ "final" ∧ s ≠ "aborted" ∧ s ≠ "error".
Proof.
  unfold terminal. rewrite !orb_false_iff, !bool_decide_eq_false. tauto.
Qed.

Lemma terminal_true s :
  terminal s = true ↔ s = "final" ∨ s = "aborted" ∨ s = "error".
Proof.
  unfold terminal. rewrite !orb_true_iff, !bool_decide_eq_true. tauto.
Qed.

(** The handler either leaves the heap alone or cleans up and settles
    its own promise, and the latter only on a correlating terminal
    event. *)
Lemma chatHandler_effect w key payload st :
  chatHandler w key payload st = st
  ∨ ∃ p v, payload = Some p ∧ correlates p key = true
      ∧ terminal (state p) = true
      ∧ chatHandler w key payload st = resolve w v (ByEvent p) (cleanup w st).
Proof.
  destruct payload as [p|]; [|by left].
  rewrite chatHandler_unfold.
  destruct (correlates p key) eqn:Hc; [|by left].
  repeat case_decide; try (by left); right; eexists p, _;
    (split; [done|split; [done|split; [|done]]]);
    apply terminal_true; auto.
Qed.

Lemma settlementsOf_nil w st :
  settlementsOf w st = [] ↔ w ∉ (s_waiter <$> settled st).
Proof.
  unfold settlementsOf. split.
  - intros Hnil [s [-> Hin]]%list_elem_of_fmap.
    assert (s ∈ filter (λ s0, s_waiter s0 = s_waiter s) (settled st)) as Hf
      by (apply list_elem_of_filter; done).
    rewrite Hnil in Hf. by apply not_elem_of_nil in Hf.
  - intros Hnot. induction (settled st) as [|s l IH]; [done|].
    rewrite filter_cons. rewrite fmap_cons, not_elem_of_cons in Hnot.
    destruct Hnot as [Hne Hl]. rewrite decide_False by done. by apply IH.
Qed.

Lemma Inv_initial : Inv initial.
Proof.
  split; simpl; try done.
  - intros w. lia.
  - constructor.
  - intros s Hs. by apply not_elem_of_nil in Hs.
Qed.

Lemma Inv_newWaiter key st : Inv st → Inv (newWaiter key st).2.
Proof.
  intros [Hc Hh Ht Hp Ho Hca]. split; simpl.
  - intros w k. rewrite lookup_insert. case_decide; [lia|].
    intros ?%Hc. lia.
  - intros ev w. rewrite lookup_insert. case_decide as Hev.
    + intros [= <-]. rewrite !lookup_insert_eq. eauto.
    + intros (-> & _)%Hh. done.
  - intros w d. unfold settlementsOf; simpl.
    rewrite lookup_insert. case_decide as Hw.
    + intros [= <-]. subst w. repeat split; [lia|].
      apply (settlementsOf_nil _ st). intros [s [Heq Hs]]%list_elem_of_fmap.
      apply Hca in Hs as [Hlt _]. lia.
    + intros (-> & ? & ?)%Ht. repeat split; [lia|done].
  - intros w Hw. unfold settlementsOf; simpl.
    destruct (decide (w = nextWaiter st)) as [->|Hne].
    + right. by rewrite lookup_insert_eq.
    + rewrite lookup_insert_ne by done. apply Hp. lia.
  - done.
  - intros s Hs. destruct (Hca s Hs) as [Hlt Hcause]. split; [lia|].
    destruct (s_cause s); [|done].
    destruct Hcause as (k & Hk & ? & ?). exists k. split; [|done].
    rewrite lookup_insert_ne; [done|]. apply Hc in Hk. lia.
Qed.

(** [cleanup] followed by [resolve], for a waiter whose timer is pending. *)
Lemma Inv_settle w v c st :
  Inv st → is_Some (timers st !! w) →
  match c with
  | ByEvent p => ∃ key, closures st !! w = Some key
                  ∧ correlates p key = true ∧ terminal (state p) = true
  | ByTimeout => v = None
  end →
  Inv (resolve w v c (cleanup w st)).
Proof.
  intros [Hc Hh Ht Hp Ho Hca] [d Hd] Hcause.
  destruct (Ht _ _ Hd) as (-> & Hlt & Hnil).
  split; simpl.
  - done.
  - intros ev w'. rewrite lookup_delete. case_decide as Hev; [done|].
    intros Hev'. destruct (Hh _ _ Hev') as (-> & _). done.
  - intros w' d'. rewrite lookup_delete. case_decide as Hw; [done|].
    intros (-> & ? & Hn)%Ht. repeat split; [done|].
    unfold settlementsOf in *; simpl. rewrite filter_cons; simpl.
    by rewrite decide_False by done.
  - intros w' Hw'. unfold settlementsOf; simpl. rewrite filter_cons; simpl.
    destruct (decide (w = w')) as [->|Hne]; [by left|].
    rewrite lookup_delete_ne by done. by apply Hp.
  - constructor; [|done]. by apply settlementsOf_nil.
  - intros s [->|Hs]%elem_of_cons; simpl; [done|]. by apply Hca.
Qed.

Lemma Inv_step st a : Inv st → Inv (step st a).
Proof.
  intros HI. destruct a as [key|ev payload|w]; simpl.
  - by apply Inv_newWaiter.
  - unfold dispatchEvent.
    destruct (eventHandlers st !! ev) as [w|] eqn:Hev; [|done].
    destruct (closures st !! w) as [key|] eqn:Hk; [|done].
    destruct (chatHandler_effect w key payload st) as [->|(p & v & -> & ? & ? & ->)];
      [done|].
    apply Inv_settle; [done| |by exists key].
    by destruct (inv_handlers _ HI _ _ Hev) as (_ & _ & ?).
  - unfold onTimeout. destruct (timers st !! w) eqn:Hw; [|done].
    apply Inv_settle; [done|by rewrite Hw|done].
Qed.

Lemma Inv_run st acts : Inv st → Inv (run st acts).
Proof.
  revert st. induction acts as [|a acts IH]; intros st HI; [done|].
  apply IH. by apply Inv_step.
Qed.

Lemma Inv_reachable acts : Inv (run initial acts).
Proof. apply Inv_run, Inv_initial. Qed.

(** One step of a reachable heap adds at most one settlement, and only
    for a waiter whose timer was still pending. *)
Lemma step_settled st a :
  Inv st →
  settled (step st a) = settled st
  ∨ ∃ s, settled (step st a) = s :: settled st
      ∧ is_Some (timers st !! s_waiter s)
      ∧ (∀ p, s_cause s = ByEvent p →
           ∃ ev, a = Deliver ev (Some p)
             ∧ eventHandlers st !! ev = Some (s_waiter s)).
Proof.
  intros HI. destruct a as [key|ev payload|w]; simpl.
  - by left.
  - unfold dispatchEvent.
    destruct (eventHandlers st !! ev) as [w|] eqn:Hev; [|by left].
    destruct (closures st !! w) as [key|] eqn:Hk; [|by left].
    destruct (chatHandler_effect w key payload st)
      as [->|(p & v & -> & ? & ? & ->)]; [by left|].
    right. eexists. simpl. split; [done|]. simpl. split.
    + by destruct (inv_handlers _ HI _ _ Hev) as (_ & _ & ?).
    + intros p' [= <-]. by exists ev.
  - unfold onTimeout. destruct (timers st !! w) eqn:Hw; [|by left].
    right. eexists. simpl. split; [done|]. simpl. split; [by rewrite Hw|done].
Qed.

(** Once settled, a promise is never settled again. *)
Lemma settlementsOf_step_stable w st a :
  Inv st → settlementsOf w st ≠ [] →
  settlementsOf w (step st a) = settlementsOf w st.
Proof.
  intros HI Hne.
  destruct (step_settled st a HI) as [Heq|(s & Heq & [d Hd] & _)];
    unfold settlementsOf in *; rewrite Heq; [done|].
  rewrite filter_cons. case_decide as Hw; [|done].
  destruct (inv_timers _ HI _ _ Hd) as (_ & _ & Hnil).
  unfold settlementsOf in Hnil. by rewrite Hw in Hnil.
Qed.

Lemma settlementsOf_run_stable w st acts :
  Inv st → settlementsOf w st ≠ [] →
  settlementsOf w (run st acts) = settlementsOf w st.
Proof.
  revert st. induction acts as [|a acts IH]; intros st HI Hne; [done|].
  simpl. rewrite IH.
  - by apply settlementsOf_step_stable.
  - by apply Inv_step.
  - by rewrite settlementsOf_step_stable.
Qed.

(** A heap whose slot for ['chat'] is empty takes no event. *)
Lemma dispatch_nobody st ev payload :
  Inv st → eventHandlers st !! "chat" = None →
  dispatchEvent ev payload st = st.
Proof.
  intros HI Hnone. unfold dispatchEvent.
  destruct (eventHandlers st !! ev) as [w|] eqn:Hev; [|done].
  destruct (inv_handlers _ HI _ _ Hev) as (-> & _). congruence.
Qed.

(** The time-out of a pending waiter settles it with [null] and empties
    the slot. *)
Lemma onTimeout_pending w st :
  Inv st → is_Some (timers st !! w) →
  settlementsOf w (onTimeout w st)
    = [{| s_waiter := w; s_value := None; s_cause := ByTimeout |}]
  ∧ eventHandlers (onTimeout w st) !! "chat" = None
  ∧ timers (onTimeout w st) !! w = None.
Proof.
  intros HI [d Hd]. unfold onTimeout. rewrite Hd.
  destruct (inv_timers _ HI _ _ Hd) as (_ & _ & Hnil).
  unfold settlementsOf in *; simpl. rewrite filter_cons; simpl.
  rewrite decide_True by done. rewrite Hnil.
  by rewrite !lookup_delete_eq.
Qed.

(** C1 (as amended).  [gw.eventHandlers] has one slot per event type:
    registering a waiter puts its handler in the slot of ['chat'] in place
    of whatever was there, and an event is handed to the handler in the
    slot only.  Whatever the order of registrations, events and time-outs,
    a promise is settled at most once; when an event settled it, that
    event carried a terminal state and correlated with the session key of
    this very waiter; and every waiter that is not yet settled still has
    its 180 s timer pending, whose firing settles it exactly once. *)
Theorem waiters_share_one_slot :
  ∀ (acts : list Action) (key : string),
    let st := run initial acts in
    eventHandlers (step st (Register key)) = {[ "chat" := nextWaiter st ]}
    ∧ (∀ ev payload w, eventHandlers st !! ev ≠ Some w →
         settlementsOf w (dispatchEvent ev payload st) = settlementsOf w st)
    ∧ NoDup (s_waiter <$> settled st)
    ∧ (∀ s p, s ∈ settled st → s_cause s = ByEvent p →
         ∃ k, closures st !! s_waiter s = Some k
           ∧ correlates p k = true ∧ terminal (state p) = true)
    ∧ (∀ w, (w < nextWaiter st)%nat →
         (length (settlementsOf w st) = 1)%nat
         ∨ (settlementsOf w st = [] ∧ timers st !! w = Some REPLY_TIMEOUT_MS
            ∧ (length (settlementsOf w (step st (TimerFires w))) = 1)%nat)).
Proof.
  intros acts key st. pose proof (Inv_reachable acts) as HI. fold st in HI.
  split; [|split; [|split; [|split]]].
  - simpl. apply map_eq. intros ev.
    destruct (decide (ev = "chat")) as [->|Hne].
    + by rewrite lookup_insert_eq, lookup_singleton_eq.
    + rewrite lookup_insert_ne, lookup_singleton_ne by done.
      destruct (eventHandlers st !! ev) as [w|] eqn:Hev; [|done].
      by destruct (inv_handlers _ HI _ _ Hev) as (-> & _).
  - intros ev payload w Hslot.
    destruct (step_settled st (Deliver ev payload) HI)
      as [Heq|(s & Heq & _ & Hcause)]; simpl in *.
    + unfold settlementsOf. by rewrite Heq.
    + unfold settlementsOf. rewrite Heq, filter_cons.
      case_decide as Hw; [|done]. exfalso.
      unfold dispatchEvent in Heq.
      destruct (eventHandlers st !! ev) as [w'|] eqn:Hev;
        [|by apply (f_equal length) in Heq; simpl in Heq; lia].
      destruct (closures st !! w') as [k|] eqn:Hk;
        [|by apply (f_equal length) in Heq; simpl in Heq; lia].
      destruct (chatHandler_effect w' k payload st)
        as [Hsame|(p & v & -> & ? & ? & Hres)].
      * rewrite Hsame in Heq. apply (f_equal length) in Heq; simpl in Heq; lia.
      * rewrite Hres in Heq. simpl in Heq. injection Heq as <-.
        simpl in Hw. congruence.
  - apply (inv_once _ HI).
  - intros s p Hs Hc. destruct (inv_cause _ HI s Hs) as [_ Hcause].
    by rewrite Hc in Hcause.
  - intros w Hw.
    destruct (inv_pending _ HI w Hw) as [Hne|Ht].
    + left. pose proof (inv_once _ HI) as Hnd.
      unfold settlementsOf in *.
      induction (settled st) as [|s l IH]; [done|].
      rewrite fmap_cons in Hnd. apply NoDup_cons in Hnd as [Hnot Hnd].
      rewrite filter_cons in *. case_decide as Hsw.
      * simpl. f_equal.
        assert (filter (λ s0, s_waiter s0 = w) l = []) as ->; [|done].
        apply (settlementsOf_nil w
                 {| closures := ∅; eventHandlers := ∅; timers := ∅;
                    settled := l; nextWaiter := 0 |}).
        simpl. by rewrite <- Hsw.
      * by apply IH.
    + right. destruct (inv_timers _ HI _ _ Ht) as (_ & _ & Hnil).
      split; [done|split; [done|]]. simpl.
      destruct (onTimeout_pending w st HI) as (-> & _); [by rewrite Ht|done].
Qed.

(** C1, as stated, fails: after a second registration the first waiter is
    still pending but its handler is gone from the table, so a final event
    for its own session key settles nobody and the first waiter ends with
    the [null] of its time-out. *)
Lemma second_waiter_replaces_first :
  let st := run initial [Register "qq-1"; Register "qq-2"] in
  let p := {| sessionKey := Some "qq-1"; runId := None; state := "final";
              message := Some (MsgStr "hi"); errorMessage := None |} in
  closures st !! 0%nat = Some "qq-1"
  ∧ settlementsOf 0 st = []
  ∧ correlates p "qq-1" = true
  ∧ eventHandlers st !! "chat" = Some 1%nat
  ∧ settled (step st (Deliver "chat" (Some p))) = []
  ∧ promiseValue 0 (run st [Deliver "chat" (Some p); TimerFires 0])
    = Some None.
Proof. vm_compute. repeat split; reflexivity. Qed.

(** A further consequence of the single slot: the time-out of the first
    waiter empties the slot that by then holds the handler of the second,
    so the final event of the second is lost as well. *)
Example first_timeout_removes_second :
  let st := run initial [Register "qq-1"; Register "qq-2"; TimerFires 0] in
  let p := {| sessionKey := Some "qq-2"; runId := None; state := "final";
              message := Some (MsgStr "hi"); errorMessage := None |} in
  eventHandlers st = ∅
  ∧ settlementsOf 1 st = []
  ∧ step st (Deliver "chat" (Some p)) = st
  ∧ promiseValue 1 (run st [Deliver "chat" (Some p); TimerFires 1]) = Some None.
Proof. vm_compute. repeat split; reflexivity. Qed.

(** C5 (as amended).  For an event that correlates with the waiter's
    session key: [final] settles the promise with the trimmed text
    extracted from the payload message, or with [null] when nothing is left
    after trimming; [aborted] settles it with the abort notice; [error]
    settles it with the error mark followed by the error message, or by a
    default text when there is none; in the three cases the waiter is
    removed.  An event with any other state, [delta] among them, changes
    nothing. *)
Theorem chat_handler_terminal_states :
  ∀ (w : nat) (key : string) (p : ChatEventPayload) (st : GwState),
    correlates p key = true →
    (state p = "final" →
       settlesWith w (orNull (trim (extractTextFromPayload (message p)))) p
         st (chatHandler w key (Some p) st))
    ∧ (state p = "aborted" →
       settlesWith w (Some ABORTED_NOTICE) p st (chatHandler w key (Some p) st))
    ∧ (state p = "error" →
       settlesWith w
         (Some (ERROR_MARK +:+ orElse (default "" (errorMessage p)) ERROR_DEFAULT))
         p st (chatHandler w key (Some p) st))
    ∧ (terminal (state p) = false → chatHandler w key (Some p) st = st)
    ∧ terminal "delta" = false.
Proof.
  intros w key p st Hc. rewrite chatHandler_unfold, Hc.
  split; [|split; [|split; [|split]]].
  - intros Hs. rewrite decide_True by done. unfold settlesWith; simpl.
    by rewrite !lookup_delete_eq.
  - intros Hs. rewrite decide_False, decide_True by (done || by rewrite Hs).
    unfold settlesWith; simpl. by rewrite !lookup_delete_eq.
  - intros Hs.
    rewrite !decide_False, decide_True by (done || by rewrite Hs).
    unfold settlesWith; simpl. by rewrite !lookup_delete_eq.
  - intros (? & ? & ?)%terminal_false. by rewrite !decide_False by done.
  - done.
Qed.

(** C5, as stated, fails on a final event whose text is blank: the promise
    is settled with [null], not with the extracted text. *)
Lemma final_blank_text_settles_null :
  let p := {| sessionKey := Some "qq-123"; runId := None; state := "final";
              message := Some (MsgStr "  "); errorMessage := None |} in
  let st := (newWaiter "qq-123" initial).2 in
  correlates p "qq-123" = true
  ∧ extractTextFromPayload (message p) = "  "
  ∧ promiseValue 0 (chatHandler 0 "qq-123" (Some p) st) = Some None
  ∧ promiseValue 0 (chatHandler 0 "qq-123" (Some p) st) ≠ Some (Some "  ").
Proof. vm_compute. repeat split; try reflexivity. discriminate. Qed.

(** A final event with the text [hello] for the waiter of [qq-123]. *)
Lemma chat_handler_terminal_states_witness :
  let p := {| sessionKey := Some "agent:main:qq-123"; runId := None;
              state := "final"; message := Some (MsgStr " hello ");
              errorMessage := None |} in
  let st := (newWaiter "qq-123" initial).2 in
  settlesWith 0 (orNull (trim (extractTextFromPayload (message p)))) p st
    (chatHandler 0 "qq-123" (Some p) st).
Proof.
  intros p st.
  destruct (chat_handler_terminal_states 0 "qq-123" p st) as (Hfinal & _).
  - reflexivity.
  - by apply Hfinal.
Defined.

Example chat_handler_examples :
  let st := (newWaiter "qq-123" initial).2 in
  let ev s m e := {| sessionKey := Some "agent:main:qq-123"; runId := None;
                     state := s; message := m; errorMessage := e |} in
  promiseValue 0 (chatHandler 0 "qq-123" (Some (ev "final" (Some (MsgStr " hello ")) None)) st)
    = Some (Some "hello")
  ∧ promiseValue 0 (chatHandler 0 "qq-123"
      (Some (ev "final" (Some (MsgObj (Some (ContentArr [BlockObj (Some "a"); BlockStr "b"])) None)) None)) st)
    = Some (Some "ab")
  ∧ promiseValue 0 (chatHandler 0 "qq-123" (Some (ev "aborted" None None)) st)
    = Some (Some ABORTED_NOTICE)
  ∧ promiseValue 0 (chatHandler 0 "qq-123" (Some (ev "error" None (Some "boom"))) st)
    = Some (Some (ERROR_MARK +:+ "boom"))
  ∧ promiseValue 0 (chatHandler 0 "qq-123" (Some (ev "error" None None)) st)
    = Some (Some (ERROR_MARK +:+ ERROR_DEFAULT))
  ∧ chatHandler 0 "qq-123" (Some (ev "delta" (Some (MsgStr "he")) None)) st = st
  ∧ chatHandler 0 "qq-999" (Some (ev "final" (Some (MsgStr "hello")) None)) st = st.
Proof. vm_compute. repeat split; reflexivity. Qed.

End GatewayFacts.

(** *** The media cache *)

Module CacheFacts.
Import Cache.

Ltac fs_unfold :=
  unfold mbind, FsM_bind, mret, FsM_ret, tryCatch, throw in *.

Lemma statSync_Some f d :
  statSync f (Some d)
  = match findEntry f d with
    | Some e => if statFails e then (Thrown "EACCES", Some d)
                else (Ok (info e), Some d)
    | None => (Thrown "ENOENT", Some d)
    end.
Proof. reflexivity. Qed.

Lemma statSync_reads f fs : ∃ r, statSync f fs = (r, fs).
Proof.
  unfold statSync. destruct (fs ≫= findEntry f) as [e|]; [|by eexists].
  destruct (statFails e); by eexists.
Qed.

Lemma sumSizes_safe files : ∀ total fs, ∃ z, sumSizes files total fs = (Ok z, fs).
Proof.
  induction files as [|f rest IH]; intros total fs; simpl.
  - by exists total.
  - fs_unfold. destruct (statSync_reads f fs) as [[s|e] ->]; apply IH.
Qed.

Lemma getCacheDirSize_safe fs : ∃ z, getCacheDirSize fs = (Ok z, fs).
Proof.
  unfold getCacheDirSize. fs_unfold. destruct fs as [d|]; simpl.
  - apply sumSizes_safe.
  - by exists 0.
Qed.

Lemma statAll_safe files : ∀ fs, ∃ rs, statAll files fs = (Ok rs, fs).
Proof.
  induction files as [|f rest IH]; intros fs; simpl.
  - by exists [].
  - fs_unfold. destruct (statSync_reads f fs) as [[s|e] ->];
      destruct (IH fs) as [rs ->]; by eexists.
Qed.

Lemma unlinkSync_keeps_dir f d :
  ∃ r d', unlinkSync f (Some d) = (r, Some d').
Proof.
  unfold unlinkSync. destruct (findEntry f d) as [e|]; [|by eexists _, _].
  destruct (unlinkFails e); by eexists _, _.
Qed.

Lemma evictLoop_safe maxBytes needBytes files :
  ∀ currentSize d,
    ∃ d', evictLoop maxBytes needBytes files currentSize (Some d) = (Ok (), Some d').
Proof.
  induction files as [|f rest IH]; intros cs d; simpl.
  - by exists d.
  - destruct (cs + needBytes <=? maxBytes); [by exists d|].
    fs_unfold. destruct (unlinkSync_keeps_dir (name f) d) as ([[]|e] & d' & ->);
      apply IH.
Qed.

(** Eviction never throws, whatever fails underneath, and leaves a
    missing directory missing. *)
Lemma evictOldestFiles_safe cfg needBytes fs :
  ∃ fs', evictOldestFiles cfg needBytes fs = (Ok (), fs')
         ∧ (fs = None → fs' = None).
Proof.
  unfold evictOldestFiles. fs_unfold. destruct fs as [d|].
  - cbn [existsSync negb].
    destruct (getCacheDirSize_safe (Some d)) as [z ->].
    destruct (z + needBytes <=? maxBytesOf cfg); [by eexists|].
    cbn [readdirSync].
    destruct (statAll_safe ((name ∘ info) <$> d) (Some d)) as [rs ->].
    destruct (evictLoop_safe (maxBytesOf cfg) needBytes
                (sortByMtime (omap id rs)) z d) as [d' ->].
    by eexists.
  - by eexists.
Qed.

Lemma filter_ext_elem {A} (P Q : A → Prop) `{!∀ x, Decision (P x)}
    `{!∀ x, Decision (Q x)} (l : list A) :
  (∀ x, x ∈ l → (P x ↔ Q x)) → filter P l = filter Q l.
Proof.
  induction l as [|x l IH]; intros Hext; [done|].
  rewrite !filter_cons.
  assert (filter P l = filter Q l) as ->.
  { apply IH. intros y Hy. apply Hext. by right. }
  destruct (Hext x) as [H1 H2]; [left|].
  repeat case_decide; tauto.
Qed.

Lemma filter_all {A} (P : A → Prop) `{!∀ x, Decision (P x)} (l : list A) :
  (∀ x, x ∈ l → P x) → filter P l = l.
Proof.
  induction l as [|x l IH]; intros Hall; [done|].
  rewrite filter_cons, decide_True by (apply Hall; left).
  f_equal. apply IH. intros y Hy. apply Hall. by right.
Qed.

Lemma findEntry_None f d :
  findEntry f d = None → ∀ e, e ∈ d → name (info e) ≠ f.
Proof.
  unfold findEntry. intros Hnone e He Heq.
  assert (e ∈ filter (λ e0, name (info e0) = f) d) as Hin
    by (by apply list_elem_of_filter).
  destruct (filter _ d); [by apply not_elem_of_nil in Hin|done].
Qed.

Lemma findEntry_Some f d e :
  findEntry f d = Some e → e ∈ d ∧ name (info e) = f.
Proof.
  unfold findEntry. intros Hh.
  assert (e ∈ filter (λ e0, name (info e0) = f) d) as Hin.
  { destruct (filter _ d) as [|x l]; [done|]. injection Hh as ->. left. }
  by apply list_elem_of_filter in Hin as [? ?].
Qed.

Lemma NoDup_names_unique (d : list FileEntry) e e' :
  NoDup ((name ∘ info) <$> d) → e ∈ d → e' ∈ d →
  name (info e) = name (info e') → e = e'.
Proof.
  induction d as [|x d IH]; intros Hnd He He'; [by apply not_elem_of_nil in He|].
  rewrite fmap_cons in Hnd. apply NoDup_cons in Hnd as [Hx Hnd].
  apply elem_of_cons in He as [->|He], He' as [->|He']; intros Heq.
  - done.
  - exfalso. apply Hx. simpl. rewrite Heq. apply list_elem_of_fmap. by exists e'.
  - exfalso. apply Hx. simpl. rewrite <- Heq. apply list_elem_of_fmap. by exists e.
  - by apply IH.
Qed.

Lemma findEntry_NoDup (d : list FileEntry) e :
  NoDup ((name ∘ info) <$> d) → e ∈ d → findEntry (name (info e)) d = Some e.
Proof.
  intros Hnd He. destruct (findEntry (name (info e)) d) as [e'|] eqn:Hf.
  - apply findEntry_Some in Hf as [He' Heq]. f_equal.
    by apply (NoDup_names_unique d).
  - by destruct (findEntry_None _ _ Hf e He).
Qed.

Lemma NoDup_names_filter (P : FileEntry → Prop) `{!∀ e, Decision (P e)}
    (d : list FileEntry) :
  NoDup ((name ∘ info) <$> d) → NoDup ((name ∘ info) <$> filter P d).
Proof.
  induction d as [|x d IH]; [done|]. rewrite fmap_cons. intros [Hx Hnd]%NoDup_cons.
  rewrite filter_cons. case_decide; [|by apply IH].
  rewrite fmap_cons. apply NoDup_cons. split; [|by apply IH].
  intros [e [Heq [_ He]%list_elem_of_filter]]%list_elem_of_fmap.
  apply Hx. apply list_elem_of_fmap. by exists e.
Qed.

(** One round of the sweep on a directory whose names are distinct. *)
Lemma sweep_one ttlMs now f (d : list FileEntry) :
  NoDup ((name ∘ info) <$> d) →
  tryCatch (s ← statSync f;
            if now - mtimeMs s >? ttlMs then unlinkSync f else mret ())
           (λ _, mret ()) (Some d)
  = (Ok (), Some (filter (λ e, ¬ (name (info e) = f ∧ swept ttlMs now e = true)) d)).
Proof.
  intros Hnd. fs_unfold. unfold statSync, unlinkSync. simpl.
  destruct (findEntry f d) as [e|] eqn:Hf.
  - apply findEntry_Some in Hf as Hf'. destruct Hf' as [He Hname].
    assert (∀ e', e' ∈ d → name (info e') = f → e' = e) as Huniq.
    { intros e' He' Heq. apply (NoDup_names_unique d); [done..|congruence]. }
    destruct (statFails e) eqn:Hs.
    { f_equal. f_equal. symmetry. apply filter_all.
      intros e' He' [Hn Hsw]. rewrite (Huniq e' He' Hn) in Hsw.
      unfold swept in Hsw. by rewrite Hs in Hsw. }
    destruct (now - mtimeMs (info e) >? ttlMs) eqn:Hage.
    + rewrite Hf. destruct (unlinkFails e) eqn:Hu.
      * f_equal. f_equal. symmetry. apply filter_all.
        intros e' He' [Hn Hsw]. rewrite (Huniq e' He' Hn) in Hsw.
        unfold swept in Hsw. rewrite Hu in Hsw.
        by rewrite andb_false_r in Hsw.
      * f_equal. f_equal. apply filter_ext_elem. intros e' He'. split.
        -- intros Hne [Hn _]. done.
        -- intros Hnot Hn. apply Hnot. split; [done|].
           rewrite (Huniq e' He' Hn). unfold swept. by rewrite Hs, Hage, Hu.
    + f_equal. f_equal. symmetry. apply filter_all.
      intros e' He' [Hn Hsw]. rewrite (Huniq e' He' Hn) in Hsw.
      unfold swept in Hsw. rewrite Hage in Hsw.
      by rewrite andb_false_r in Hsw.
  - f_equal. f_equal. symmetry. apply filter_all.
    intros e' He' [Hn _]. by apply (findEntry_None _ _ Hf e' He').
Qed.

Lemma sweepLoop_spec ttlMs now files :
  ∀ d : list FileEntry,
    NoDup ((name ∘ info) <$> d) →
    sweepLoop ttlMs now files (Some d)
    = (Ok (), Some (filter (λ e, ¬ (name (info e) ∈ files
                                    ∧ swept ttlMs now e = true)) d)).
Proof.
  induction files as [|f rest IH]; intros d Hnd; simpl.
  - unfold mret, FsM_ret. f_equal. f_equal. symmetry. apply filter_all.
    intros e _ [Hin _]. by apply not_elem_of_nil in Hin.
  - unfold mbind at 1. unfold FsM_bind at 1.
    rewrite (sweep_one ttlMs now f d Hnd).
    rewrite IH by (by apply NoDup_names_filter).
    f_equal. f_equal. rewrite list_filter_filter.
    apply filter_ext_elem. intros e He. rewrite elem_of_cons. tauto.
Qed.

Lemma sweepLoop_safe ttlMs now files :
  ∀ d, ∃ d', sweepLoop ttlMs now files (Some d) = (Ok (), Some d').
Proof.
  induction files as [|f rest IH]; intros d; simpl.
  - by exists d.
  - fs_unfold. destruct (statSync_reads f (Some d)) as [[s|e] ->]; [|apply IH].
    destruct (now - mtimeMs s >? ttlMs); [|apply IH].
    destruct (unlinkSync_keeps_dir f d) as ([[]|e] & d' & ->); apply IH.
Qed.

(** C8.  When the cache is enabled the sweep is scheduled on an interval
    equal to the TTL.  Neither the sweep nor the eviction throws, whatever
    fails on an individual file; on a missing directory both return at once
    and leave it missing; the sweep deletes exactly the entries whose age
    exceeds the TTL, those it cannot inspect or delete apart; and the
    eviction passes over a file it cannot delete and goes on with the
    next. *)
Theorem sweep_and_eviction_tolerate_failures :
  ∀ (cfg : PluginConfig) (now needBytes : Z) (fs : Fs) (timer : option Z)
    (d : list FileEntry),
    (cacheEnabled (media cfg) = true →
       startCacheCleanup cfg timer = Some (ttlMsOf cfg))
    ∧ (∃ fs', cleanExpiredCache cfg now fs = (Ok (), fs'))
    ∧ (∃ fs', evictOldestFiles cfg needBytes fs = (Ok (), fs'))
    ∧ cleanExpiredCache cfg now None = (Ok (), None)
    ∧ evictOldestFiles cfg needBytes None = (Ok (), None)
    ∧ (NoDup ((name ∘ info) <$> d) →
       cleanExpiredCache cfg now (Some d)
       = (Ok (), Some (filter (λ e, swept (ttlMsOf cfg) now e = false) d)))
    ∧ (NoDup ((name ∘ info) <$> d) → healthy d →
       cleanExpiredCache cfg now (Some d)
       = (Ok (), Some (filter (λ e, ¬ (now - mtimeMs (info e) > ttlMsOf cfg)) d)))
    ∧ (∀ f rest currentSize e,
         currentSize + needBytes > maxBytesOf cfg →
         unlinkSync (name f) (Some d) = (Thrown e, Some d) →
         evictLoop (maxBytesOf cfg) needBytes (f :: rest) currentSize (Some d)
         = evictLoop (maxBytesOf cfg) needBytes rest currentSize (Some d)).
Proof.
  intros cfg now needBytes fs timer d.
  assert (NoDup ((name ∘ info) <$> d) →
          cleanExpiredCache cfg now (Some d)
          = (Ok (), Some (filter (λ e, swept (ttlMsOf cfg) now e = false) d)))
    as Hsweep.
  { intros Hnd. unfold cleanExpiredCache. fs_unfold. cbn [existsSync negb readdirSync].
    rewrite sweepLoop_spec by done. f_equal. f_equal.
    apply filter_ext_elem. intros e He. split.
    - intros Hnot. destruct (swept (ttlMsOf cfg) now e) eqn:Hs; [|done].
      exfalso. apply Hnot. split; [|done]. apply list_elem_of_fmap. by exists e.
    - intros Hs [_ Hs']. congruence. }
  split; [|split; [|split; [|split; [|split; [|split; [|split]]]]]].
  - intros Hen. unfold startCacheCleanup, ttlMsOf. by rewrite Hen.
  - unfold cleanExpiredCache. fs_unfold. destruct fs as [d0|]; [|by eexists].
    cbn [existsSync negb readdirSync].
    destruct (sweepLoop_safe (ttlMsOf cfg) now ((name ∘ info) <$> d0) d0) as [d' ->].
    by eexists.
  - destruct (evictOldestFiles_safe cfg needBytes fs) as (fs' & -> & _).
    by eexists.
  - done.
  - done.
  - done.
  - intros Hnd Hh. rewrite Hsweep by done. f_equal. f_equal.
    apply filter_ext_elem. intros e He. destruct (Hh e He) as [Hs Hu].
    unfold swept. rewrite Hs, Hu. simpl. rewrite andb_true_r.
    rewrite Z.gtb_ltb. destruct (Z.ltb_spec (ttlMsOf cfg) (now - mtimeMs (info e)));
      split; intros; (done || lia).
  - intros f rest cs e Hbig Hfail. cbn [evictLoop].
    assert ((cs + needBytes <=? maxBytesOf cfg) = false) as ->
      by (apply Z.leb_gt; lia).
    unfold mbind at 1. unfold FsM_bind at 1. unfold tryCatch.
    unfold mbind at 1. unfold FsM_bind at 1. by rewrite Hfail.
Qed.

(** **** Sorting by modification time *)

Lemma insertByMtime_perm f l : insertByMtime f l ≡ₚ f :: l.
Proof.
  induction l as [|g l IH]; simpl; [done|].
  destruct (mtimeMs f <=? mtimeMs g); [done|].
  rewrite IH. apply Permutation_swap.
Qed.

Lemma sortByMtime_perm l : sortByMtime l ≡ₚ l.
Proof.
  induction l as [|f l IH]; simpl; [done|].
  by rewrite insertByMtime_perm, IH.
Qed.

Lemma insertByMtime_sorted f l :
  StronglySorted olderEq l → StronglySorted olderEq (insertByMtime f l).
Proof.
  induction 1 as [|g l Hs IH Hall]; simpl.
  - repeat constructor.
  - destruct (Z.leb_spec (mtimeMs f) (mtimeMs g)).
    + constructor; [by constructor|]. constructor; [done|].
      eapply Forall_impl; [exact Hall|]. unfold olderEq. intros; lia.
    + constructor; [done|].
      rewrite insertByMtime_perm. constructor; [unfold olderEq; lia|done].
Qed.

Lemma sortByMtime_sorted l : StronglySorted olderEq (sortByMtime l).
Proof.
  induction l as [|f l IH]; simpl; [constructor|].
  by apply insertByMtime_sorted.
Qed.

(** Stability: entries with one time stamp keep their enumeration order. *)
Lemma insertByMtime_stable t f l :
  StronglySorted olderEq l →
  filter (λ g, mtimeMs g = t) (insertByMtime f l)
  = filter (λ g, mtimeMs g = t) (f :: l).
Proof.
  induction 1 as [|g l Hs IH Hall]; simpl; [done|].
  destruct (Z.leb_spec (mtimeMs f) (mtimeMs g)); [done|].
  rewrite filter_cons, IH, !filter_cons.
  destruct (decide (mtimeMs g = t)) as [Hg|Hg]; [|done].
  destruct (decide (mtimeMs f = t)) as [Hf|Hf]; [lia|done].
Qed.

Lemma sortByMtime_stable t l :
  filter (λ g, mtimeMs g = t) (sortByMtime l) = filter (λ g, mtimeMs g = t) l.
Proof.
  induction l as [|f l IH]; simpl; [done|].
  rewrite insertByMtime_stable by apply sortByMtime_sorted.
  by rewrite !filter_cons, IH.
Qed.

Lemma totalSize_app l1 l2 : totalSize (l1 ++ l2) = totalSize l1 + totalSize l2.
Proof. induction l1 as [|f l1 IH]; simpl; [done|]. rewrite IH. lia. Qed.

Lemma totalSize_perm l1 l2 : l1 ≡ₚ l2 → totalSize l1 = totalSize l2.
Proof. induction 1; simpl; lia. Qed.

(** **** The directory when nothing fails *)

Lemma healthy_filter (P : FileEntry → Prop) `{!∀ e, Decision (P e)} d :
  healthy d → healthy (filter P d).
Proof. intros Hh e [_ He]%list_elem_of_filter. by apply Hh. Qed.

Lemma sumSizes_healthy (d : list FileEntry) :
  healthy d → NoDup ((name ∘ info) <$> d) →
  ∀ (l : list FileEntry) total, (∀ e, e ∈ l → e ∈ d) →
    sumSizes ((name ∘ info) <$> l) total (Some d)
    = (Ok (total + totalSize (info <$> l)), Some d).
Proof.
  intros Hh Hnd. induction l as [|e l IH]; intros total Hsub; simpl.
  - unfold mret, FsM_ret. do 2 f_equal. lia.
  - fs_unfold. unfold statSync. simpl.
    rewrite findEntry_NoDup by (done || apply Hsub; left).
    destruct (Hh e) as [-> _]; [apply Hsub; left|].
    rewrite IH by (intros; apply Hsub; by right).
    do 2 f_equal. change (list_fmap _ _ info l) with (info <$> l). lia.
Qed.

Lemma statAll_healthy (d : list FileEntry) :
  healthy d → NoDup ((name ∘ info) <$> d) →
  ∀ (l : list FileEntry), (∀ e, e ∈ l → e ∈ d) →
    statAll ((name ∘ info) <$> l) (Some d)
    = (Ok ((Some ∘ info) <$> l), Some d).
Proof.
  intros Hh Hnd. induction l as [|e l IH]; intros Hsub.
  - done.
  - rewrite !fmap_cons. cbn [statAll]. fs_unfold. rewrite statSync_Some.
    cbn [compose].
    rewrite findEntry_NoDup by (done || apply Hsub; left).
    destruct (Hh e) as [-> _]; [apply Hsub; left|].
    rewrite IH by (intros; apply Hsub; by right).
    cbn [compose]. by destruct (info e).
Qed.

Lemma omap_id_Some {A B} (f : A → B) (l : list A) :
  omap id ((Some ∘ f) <$> l) = f <$> l.
Proof.
  induction l as [|x l IH]; [done|].
  rewrite !fmap_cons. cbn [omap list_omap compose id]. f_equal. apply IH.
Qed.

Lemma evictLoop_healthy maxBytes needBytes files :
  ∀ (d : list FileEntry) currentSize,
    healthy d →
    (∀ f, f ∈ files → name f ∈ (name ∘ info) <$> d) →
    NoDup (name <$> files) →
    evictLoop maxBytes needBytes files currentSize (Some d)
    = (Ok (), Some (filter (λ e, name (info e) ∉
                 name <$> evictPrefix maxBytes needBytes files currentSize) d)).
Proof.
  induction files as [|f rest IH]; intros d cs Hh Hin Hnd; simpl.
  - unfold mret, FsM_ret. do 2 f_equal. symmetry. apply filter_all.
    intros e _ Hn. by apply not_elem_of_nil in Hn.
  - destruct (cs + needBytes <=? maxBytes).
    { unfold mret, FsM_ret. do 2 f_equal. symmetry. apply filter_all.
      intros e _ Hn. by apply not_elem_of_nil in Hn. }
    rewrite fmap_cons in Hnd. apply NoDup_cons in Hnd as [Hf Hnd].
    fs_unfold. unfold unlinkSync.
    destruct (findEntry (name f) d) as [e|] eqn:Hfind.
    + apply findEntry_Some in Hfind as [He Hname].
      destruct (Hh e He) as [_ ->].
      rewrite IH; [| by apply healthy_filter | | done].
      * do 2 f_equal. rewrite list_filter_filter.
        apply filter_ext_elem. intros e' _.
        rewrite fmap_cons, not_elem_of_cons. tauto.
      * intros g Hg. assert (g ∈ f :: rest) as Hg' by (by right).
        apply Hin, list_elem_of_fmap in Hg'. destruct Hg' as (e' & Hn' & He').
        apply list_elem_of_fmap. exists e'. split; [done|].
        apply list_elem_of_filter. split; [|done].
        simpl in Hn'. rewrite <- Hn'. intros Heq. apply Hf.
        apply list_elem_of_fmap. by exists g.
    + exfalso. assert (f ∈ f :: rest) as Hx by left.
      apply Hin, list_elem_of_fmap in Hx. destruct Hx as (e & Hn & He).
      by apply (findEntry_None _ _ Hfind e He).
Qed.

Lemma evictPrefix_spec maxBytes needBytes files :
  ∀ currentSize,
    let evicted := evictPrefix maxBytes needBytes files currentSize in
    ∃ kept, files = evicted ++ kept
      ∧ (currentSize + needBytes ≤ maxBytes → evicted = [])
      ∧ (currentSize - totalSize evicted + needBytes ≤ maxBytes ∨ kept = [])
      ∧ (∀ pre x post, evicted = pre ++ x :: post →
           currentSize - totalSize pre + needBytes > maxBytes).
Proof.
  induction files as [|f rest IH]; intros cs; simpl.
  - exists []. split; [done|]. split; [done|]. split; [by right|].
    intros [|? ?] ? ? Heq; discriminate.
  - destruct (Z.leb_spec (cs + needBytes) maxBytes) as [Hfit|Hfit].
    + exists (f :: rest). split; [done|]. split; [done|].
      split; [left; simpl; lia|]. intros [|? ?] ? ? Heq; discriminate.
    + destruct (IH (cs - size f)) as (kept & Heq & _ & Hend & Hmin).
      exists kept. split; [simpl; by f_equal|]. split; [lia|]. split.
      * destruct Hend as [Hend| ->]; [left; simpl; lia|by right].
      * intros [|y pre] x post Hpre; simpl in *; [lia|].
        injection Hpre as <- Hpre. specialize (Hmin _ _ _ Hpre). lia.
Qed.

Lemma fmap_filter_info (P : FileInfo → Prop) `{!∀ f, Decision (P f)}
    (d : list FileEntry) :
  info <$> filter (λ e, P (info e)) d = filter P (info <$> d).
Proof.
  induction d as [|e d IH]; [done|].
  rewrite fmap_cons, !filter_cons. case_decide; [|done].
  by rewrite fmap_cons, IH.
Qed.

Lemma filter_none {A} (P : A → Prop) `{!∀ x, Decision (P x)} (l : list A) :
  (∀ x, x ∈ l → ¬ P x) → filter P l = [].
Proof.
  induction l as [|x l IH]; intros Hno; [done|].
  rewrite filter_cons, decide_False by (apply Hno; left).
  apply IH. intros y Hy. apply Hno. by right.
Qed.

(** Eviction on a directory where nothing fails. *)
Lemma evictOldestFiles_healthy cfg needBytes (d : list FileEntry) :
  healthy d → NoDup ((name ∘ info) <$> d) →
  evictOldestFiles cfg needBytes (Some d)
  = (Ok (), Some (filter (λ e, name (info e) ∉
       name <$> evictPrefix (maxBytesOf cfg) needBytes
                  (sortByMtime (info <$> d)) (totalSize (info <$> d))) d)).
Proof.
  intros Hh Hnd. unfold evictOldestFiles, getCacheDirSize. fs_unfold.
  cbn [existsSync negb readdirSync].
  rewrite (sumSizes_healthy d Hh Hnd d 0) by done. rewrite Z.add_0_l.
  destruct (totalSize (info <$> d) + needBytes <=? maxBytesOf cfg) eqn:Hfit.
  - assert (evictPrefix (maxBytesOf cfg) needBytes (sortByMtime (info <$> d))
              (totalSize (info <$> d)) = []) as ->.
    { destruct (sortByMtime (info <$> d)); [done|].
      cbn [evictPrefix]. by rewrite Hfit. }
    do 2 f_equal. symmetry.
    apply filter_all. intros e _ Hn. by apply not_elem_of_nil in Hn.
  - cbn [readdirSync].
    rewrite (statAll_healthy d Hh Hnd d) by done. rewrite omap_id_Some.
    apply evictLoop_healthy; [done| |].
    + intros f Hf. rewrite sortByMtime_perm in Hf.
      rewrite list_fmap_compose. apply list_elem_of_fmap. by exists f.
    + rewrite sortByMtime_perm. by rewrite <- list_fmap_compose.
Qed.

Lemma sumSizes_readable (d : list FileEntry) :
  NoDup ((name ∘ info) <$> d) →
  ∀ (l : list FileEntry) total, (∀ e, e ∈ l → e ∈ d) →
    sumSizes ((name ∘ info) <$> l) total (Some d)
    = (Ok (total + totalSize (info <$> filter (λ e, statFails e = false) l)),
       Some d).
Proof.
  intros Hnd. induction l as [|e l IH]; intros total Hsub.
  - rewrite filter_nil. simpl. by rewrite Z.add_0_r.
  - rewrite fmap_cons. cbn [sumSizes]. fs_unfold. rewrite statSync_Some.
    cbn [compose].
    rewrite findEntry_NoDup by (done || apply Hsub; left).
    rewrite filter_cons.
    destruct (statFails e) eqn:Hs.
    + rewrite decide_False by done.
      rewrite IH by (intros; apply Hsub; by right). done.
    + rewrite decide_True by done.
      rewrite IH by (intros; apply Hsub; by right).
      rewrite fmap_cons. simpl. do 2 f_equal. lia.
Qed.

Lemma kept_entries (d : list FileEntry) (evicted kept : list FileInfo) :
  NoDup ((name ∘ info) <$> d) →
  sortByMtime (info <$> d) = evicted ++ kept →
  info <$> filter (λ e, name (info e) ∉ name <$> evicted) d ≡ₚ kept.
Proof.
  intros Hnd Hsplit.
  pose proof (fmap_filter_info (λ f, name f ∉ name <$> evicted) d) as Hff.
  cbv beta in Hff. rewrite Hff. clear Hff.
  rewrite <- (sortByMtime_perm (info <$> d)), Hsplit, filter_app.
  assert (NoDup (name <$> (evicted ++ kept))) as Hnames.
  { rewrite <- Hsplit, sortByMtime_perm, <- list_fmap_compose. done. }
  rewrite fmap_app in Hnames. apply NoDup_app in Hnames as (_ & Hdisj & _).
  rewrite filter_none, filter_all; [done| |].
  - intros k Hk Hin. apply (Hdisj (name k)); [done|].
    apply list_elem_of_fmap. by exists k.
  - intros e He Hn. apply Hn. apply list_elem_of_fmap. by exists e.
Qed.

(** **** The directory when entries fail *)

Lemma statAll_readable (d : list FileEntry) :
  NoDup ((name ∘ info) <$> d) →
  ∀ (l : list FileEntry), (∀ e, e ∈ l → e ∈ d) →
    ∃ rs, statAll ((name ∘ info) <$> l) (Some d) = (Ok rs, Some d)
          ∧ omap id rs = info <$> readable l.
Proof.
  intros Hnd. induction l as [|e l IH]; intros Hsub.
  - by exists [].
  - destruct IH as (rs & Hrs & Hom); [intros; apply Hsub; by right|].
    rewrite fmap_cons. cbn [statAll]. fs_unfold. rewrite statSync_Some.
    cbn [compose].
    rewrite findEntry_NoDup by (done || apply Hsub; left).
    unfold readable. rewrite filter_cons.
    destruct (statFails e) eqn:Hs.
    + rewrite Hrs, decide_False by done. exists (None :: rs). done.
    + rewrite Hrs, decide_True by done. eexists. split; [done|].
      rewrite fmap_cons. cbn [omap list_omap id].
      change (list_omap _ _ id rs) with (omap id rs). rewrite Hom.
      f_equal. by destruct (info e).
Qed.

Lemma findEntry_filter_other (f g : string) (d : list FileEntry) :
  g ≠ f →
  findEntry g (filter (λ e, name (info e) ≠ f) d) = findEntry g d.
Proof.
  intros Hne. unfold findEntry. rewrite list_filter_filter. f_equal.
  apply filter_ext_elem. intros e _. split; [tauto|].
  intros Hg. split; [done|]. congruence.
Qed.

Lemma evictPrefix_fits maxBytes needBytes files currentSize :
  (currentSize + needBytes <=? maxBytes) = true →
  evictPrefix maxBytes needBytes files currentSize = [].
Proof. intros Hfit. destruct files; [done|]. cbn [evictPrefix]. by rewrite Hfit. Qed.

(** The loop of the eviction on any directory: it deletes, oldest first,
    the files it can delete, and passes over the others. *)
Lemma evictLoop_general maxBytes needBytes files :
  ∀ (d : list FileEntry) currentSize,
    NoDup ((name ∘ info) <$> d) →
    (∀ f, f ∈ files → name f ∈ (name ∘ info) <$> d) →
    NoDup (name <$> files) →
    evictLoop maxBytes needBytes files currentSize (Some d)
    = (Ok (), Some (filter (λ e, name (info e) ∉
                 name <$> evictPrefix maxBytes needBytes
                            (filter (deletable d) files) currentSize) d)).
Proof.
  induction files as [|f rest IH]; intros d cs Hd Hin Hnd.
  - cbn. unfold mret, FsM_ret. do 2 f_equal. symmetry. apply filter_all.
    intros e _ Hn. by apply not_elem_of_nil in Hn.
  - cbn [evictLoop].
    destruct (cs + needBytes <=? maxBytes) eqn:Hfit.
    { rewrite evictPrefix_fits by done.
      unfold mret, FsM_ret. do 2 f_equal. symmetry. apply filter_all.
      intros e _ Hn. by apply not_elem_of_nil in Hn. }
    rewrite fmap_cons in Hnd. apply NoDup_cons in Hnd as [Hf Hnd].
    assert (∃ e, findEntry (name f) d = Some e) as [e Hfind].
    { destruct (findEntry (name f) d) as [e|] eqn:Hfind; [by eexists|].
      exfalso. assert (f ∈ f :: rest) as Hx by left.
      apply Hin, list_elem_of_fmap in Hx. destruct Hx as (e & Hn & He).
      by apply (findEntry_None _ _ Hfind e He). }
    fs_unfold. unfold unlinkSync. rewrite Hfind.
    rewrite filter_cons.
    destruct (unlinkFails e) eqn:Hu.
    + rewrite decide_False
        by (unfold deletable; rewrite Hfind; cbn; by rewrite Hu).
      apply IH; [done| |done]. intros g Hg. apply Hin. by right.
    + rewrite decide_True
        by (unfold deletable; rewrite Hfind; cbn; by rewrite Hu).
      cbn [evictPrefix]. rewrite Hfit.
      assert (filter (deletable (filter (λ e', name (info e') ≠ name f) d)) rest
              = filter (deletable d) rest) as Hsame.
      { apply filter_ext_elem. intros g Hg. unfold deletable.
        rewrite findEntry_filter_other; [done|].
        intros Heq. apply Hf. apply list_elem_of_fmap. by exists g. }
      rewrite IH; [|by apply NoDup_names_filter| |done].
      * rewrite Hsame. do 2 f_equal. rewrite list_filter_filter.
        apply filter_ext_elem. intros e' _.
        rewrite fmap_cons, not_elem_of_cons. tauto.
      * intros g Hg. assert (g ∈ f :: rest) as Hg' by (by right).
        apply Hin, list_elem_of_fmap in Hg'. destruct Hg' as (e' & Hn' & He').
        apply list_elem_of_fmap. exists e'. split; [done|].
        apply list_elem_of_filter. split; [|done].
        simpl in Hn'. rewrite <- Hn'. intros Heq. apply Hf.
        apply list_elem_of_fmap. by exists g.
Qed.

Lemma insertByMtime_head f l :
  Forall (λ g, mtimeMs f ≤ mtimeMs g) l → insertByMtime f l = f :: l.
Proof.
  destruct l as [|g l]; [done|]. intros [Hg _]%Forall_cons. cbn.
  by assert ((mtimeMs f <=? mtimeMs g) = true) as -> by (by apply Z.leb_le).
Qed.

(** Sorting by time and leaving entries out can be done in either order. *)
Lemma filter_insertByMtime (P : FileInfo → Prop) `{!∀ f, Decision (P f)} f l :
  StronglySorted olderEq l →
  filter P (insertByMtime f l)
  = if decide (P f) then insertByMtime f (filter P l) else filter P l.
Proof.
  induction 1 as [|g l Hs IH Hall].
  - cbn [insertByMtime]. rewrite filter_cons, filter_nil. by case_decide.
  - cbn [insertByMtime].
    destruct (Z.leb_spec (mtimeMs f) (mtimeMs g)) as [Hle|Hgt].
    + rewrite (filter_cons _ f). case_decide; [|done].
      rewrite insertByMtime_head; [done|].
      apply Forall_forall. intros h [_ Hh]%list_elem_of_filter.
      apply elem_of_cons in Hh as [->|Hh]; [done|].
      pose proof (proj1 (Forall_forall _ _) Hall h Hh) as Hgh.
      unfold olderEq in Hgh. lia.
    + rewrite (filter_cons _ g), IH, (filter_cons _ g).
      destruct (decide (P f)), (decide (P g)); try done.
      cbn [insertByMtime].
      by assert ((mtimeMs f <=? mtimeMs g) = false) as ->
        by (apply Z.leb_gt; lia).
Qed.

Lemma filter_sortByMtime (P : FileInfo → Prop) `{!∀ f, Decision (P f)} l :
  filter P (sortByMtime l) = sortByMtime (filter P l).
Proof.
  induction l as [|f l IH]; [done|].
  cbn [sortByMtime foldr]. fold (sortByMtime l).
  rewrite filter_insertByMtime by apply sortByMtime_sorted.
  rewrite filter_cons, IH. by case_decide.
Qed.

Lemma deletable_evictable (d : list FileEntry) :
  NoDup ((name ∘ info) <$> d) →
  filter (deletable d) (info <$> readable d) = info <$> evictable d.
Proof.
  intros Hnd.
  pose proof (fmap_filter_info (deletable d) (readable d)) as Hff.
  cbv beta in Hff. rewrite <- Hff. f_equal.
  unfold readable, evictable. rewrite list_filter_filter.
  apply filter_ext_elem. intros e He. unfold deletable.
  rewrite findEntry_NoDup by done. cbn. split.
  - intros [[= Hu] Hs]. done.
  - intros [Hs Hu]. by rewrite Hu.
Qed.

(** Eviction on any directory with distinct names. *)
Lemma evictOldestFiles_general cfg needBytes (d : list FileEntry) :
  NoDup ((name ∘ info) <$> d) →
  evictOldestFiles cfg needBytes (Some d)
  = (Ok (), Some (filter (λ e, name (info e) ∉
       name <$> evictPrefix (maxBytesOf cfg) needBytes
                  (sortByMtime (info <$> evictable d))
                  (totalSize (info <$> readable d))) d)).
Proof.
  intros Hnd. unfold evictOldestFiles, getCacheDirSize. fs_unfold.
  cbn [existsSync negb readdirSync].
  rewrite (sumSizes_readable d Hnd d 0) by done. rewrite Z.add_0_l.
  fold (readable d).
  destruct (totalSize (info <$> readable d) + needBytes <=? maxBytesOf cfg)
    eqn:Hfit.
  - rewrite evictPrefix_fits by done.
    do 2 f_equal. symmetry.
    apply filter_all. intros e _ Hn. by apply not_elem_of_nil in Hn.
  - cbn [readdirSync].
    destruct (statAll_readable d Hnd d) as (rs & -> & ->); [done|].
    rewrite evictLoop_general; [|done| |].
    + by rewrite filter_sortByMtime, deletable_evictable.
    + intros f Hf. rewrite sortByMtime_perm in Hf.
      apply list_elem_of_fmap in Hf as (e & -> & [_ He]%list_elem_of_filter).
      apply list_elem_of_fmap. by exists e.
    + rewrite sortByMtime_perm, <- list_fmap_compose.
      by apply NoDup_names_filter.
Qed.

Lemma evictable_filter (P : FileEntry → Prop) `{!∀ e, Decision (P e)} d :
  evictable (filter P d) = filter P (evictable d).
Proof.
  unfold evictable. rewrite !list_filter_filter.
  apply filter_ext_elem. intros e _. tauto.
Qed.

(** C2 (as amended).  On a cache directory with distinct names, writing
    a file of [needBytes] bytes goes as follows.  The size of the cache is
    the total of the entries that can be inspected.  If that total plus
    [needBytes] fits under the cap, nothing is evicted.  Otherwise the
    entries that can be inspected are tried in the order of their
    modification times, oldest first and ties in enumeration order; an
    entry that cannot be deleted is passed over and stays, so that the
    evicted entries are a prefix [evicted] of those that can be inspected
    and deleted, in that order; each eviction happens only while the
    remaining total plus [needBytes] still exceeds the cap, and eviction
    goes on until it fits or nothing is left that can be deleted; no
    evicted entry is younger than an entry that was kept though it could
    have been deleted.  Only then is the file written; if the write is
    refused, the evicted entries are gone and no file is there.  When
    every entry can be inspected and deleted, the evicted entries are a
    prefix of the whole directory sorted by age, and eviction ends when the
    total fits or the directory is empty. *)
Theorem eviction_is_oldest_first :
  ∀ (host : Host) (cfg : PluginConfig) (needBytes now : Z)
    (uuid ext : string) (d : list FileEntry),
    NoDup ((name ∘ info) <$> d) →
    let maxBytes := cacheMaxSizeMB (media cfg) * 1024 * 1024 in
    let sorted := sortByMtime (info <$> evictable d) in
    let total := totalSize (info <$> readable d) in
    ∃ (evicted kept : list FileInfo) (rest : list FileEntry),
      sorted = evicted ++ kept
      ∧ StronglySorted olderEq sorted
      ∧ (∀ t, filter (λ f, mtimeMs f = t) sorted
              = filter (λ f, mtimeMs f = t) (info <$> evictable d))
      ∧ rest = filter (λ e, name (info e) ∉ name <$> evicted) d
      ∧ info <$> evictable rest ≡ₚ kept
      ∧ (∀ e, e ∈ d → e ∉ evictable d → e ∈ rest)
      ∧ evictOldestFiles cfg needBytes (Some d) = (Ok (), Some rest)
      ∧ (writeThrows host = None →
         downloadMedia host cfg uuid ext (FetchBody needBytes) now (Some d)
         = (Ok (Some (pathJoin host (cachePath (media cfg)) (uuid +:+ ext))),
            Some (insertAt (slot host) (written (uuid +:+ ext) needBytes now)
                    (filter (λ e, name (info e) ≠ uuid +:+ ext) rest))))
      ∧ (∀ e, writeThrows host = Some e →
         downloadMedia host cfg uuid ext (FetchBody needBytes) now (Some d)
         = (Ok None, Some rest))
      ∧ (total + needBytes ≤ maxBytes → evicted = [])
      ∧ (∀ pre x post, evicted = pre ++ x :: post →
           total - totalSize pre + needBytes > maxBytes)
      ∧ (total - totalSize evicted + needBytes ≤ maxBytes ∨ kept = [])
      ∧ (∀ e k, e ∈ evicted → k ∈ kept → mtimeMs e ≤ mtimeMs k)
      ∧ (healthy d →
         sorted = sortByMtime (info <$> d)
         ∧ total = totalSize (info <$> d)
         ∧ info <$> rest ≡ₚ kept
         ∧ (totalSize kept + needBytes ≤ maxBytes ∨ rest = [])).
Proof.
  intros host cfg needBytes now uuid ext d Hnd maxBytes sorted total.
  destruct (evictPrefix_spec maxBytes needBytes sorted total)
    as (kept & Hsplit & Hfit & Hend & Hmin).
  set (evicted := evictPrefix maxBytes needBytes sorted total) in *.
  pose proof (sortByMtime_sorted (info <$> evictable d)) as Hsorted.
  fold sorted in Hsorted.
  pose proof (sortByMtime_perm (info <$> evictable d)) as Hperm.
  fold sorted in Hperm.
  set (rest := filter (λ e, name (info e) ∉ name <$> evicted) d).
  assert (evictOldestFiles cfg needBytes (Some d) = (Ok (), Some rest))
    as Hev by (by apply evictOldestFiles_general).
  assert (NoDup ((name ∘ info) <$> evictable d)) as Hnd'
    by (by apply NoDup_names_filter).
  assert (info <$> evictable rest ≡ₚ kept) as Hrest.
  { unfold rest. rewrite evictable_filter.
    by apply kept_entries. }
  exists evicted, kept, rest.
  split; [done|]. split; [done|].
  split; [intros t; apply sortByMtime_stable|].
  split; [done|]. split; [done|].
  split; [|split; [done|split; [|split; [|split; [done|split;
    [done|split; [done|split]]]]]]].
  - intros e He Hnot. apply list_elem_of_filter. split; [|done].
    intros Hin. apply Hnot.
    apply list_elem_of_fmap in Hin as (f & Hname & Hf).
    assert (f ∈ info <$> evictable d) as Hf'.
    { rewrite <- Hperm, Hsplit. apply elem_of_app. by left. }
    apply list_elem_of_fmap in Hf' as (e' & -> & He').
    assert (e = e') as ->; [|done].
    apply (NoDup_names_unique d); [done|done| |done].
    by apply list_elem_of_filter in He' as [_ He'].
  - intros Hw. unfold downloadMedia, ensureCacheDir. fs_unfold.
    cbn [existsSync negb]. rewrite Hev. unfold writeFileSync. by rewrite Hw.
  - intros e Hw. unfold downloadMedia, ensureCacheDir. fs_unfold.
    cbn [existsSync negb]. rewrite Hev. unfold writeFileSync. by rewrite Hw.
  - intros e k He Hk. rewrite Hsplit in Hsorted.
    by apply (StronglySorted_app_1_elem_of _ _ _ _ _ Hsorted He Hk).
  - intros Hh.
    assert (evictable d = d) as Hed.
    { apply filter_all. intros e He. by apply Hh. }
    assert (readable d = d) as Hrd.
    { apply filter_all. intros e He. by apply Hh. }
    assert (evictable rest = rest) as Her.
    { apply filter_all. intros e [_ He]%list_elem_of_filter. by apply Hh. }
    split; [unfold sorted; by rewrite Hed|].
    split; [unfold total; by rewrite Hrd|].
    rewrite Her in Hrest. split; [done|].
    destruct Hend as [Hend|Hend].
    + left. assert (total = totalSize evicted + totalSize kept) as Ht.
      { unfold total. rewrite Hrd, <- Hed.
        rewrite <- (totalSize_perm _ _ Hperm), Hsplit.
        apply totalSize_app. }
      lia.
    + right. rewrite Hend in Hrest. apply Permutation_nil_r in Hrest.
      by apply fmap_nil_inv in Hrest.
Qed.

(** **** A directory of three files *)

Lemma threeFiles_healthy : healthy threeFiles.
Proof.
  intros e He. unfold threeFiles in He.
  repeat (apply elem_of_cons in He as [->|He]); try done.
  by apply not_elem_of_nil in He.
Qed.

Lemma threeFiles_distinct : NoDup ((name ∘ info) <$> threeFiles).
Proof. apply (bool_decide_unpack _). by vm_compute. Qed.

(** Writing 400000 bytes into the three files under a cap of 1 MB. *)
Lemma eviction_is_oldest_first_witness :
  ∃ (evicted kept : list FileInfo) (rest : list FileEntry),
    sortByMtime (info <$> evictable threeFiles) = evicted ++ kept
    ∧ evictOldestFiles smallCache 400000 (Some threeFiles) = (Ok (), Some rest)
    ∧ (totalSize (info <$> readable threeFiles) - totalSize evicted + 400000
       ≤ 1 * 1024 * 1024 ∨ kept = [])
    ∧ (∀ e k, e ∈ evicted → k ∈ kept → mtimeMs e ≤ mtimeMs k).
Proof.
  destruct (eviction_is_oldest_first posix smallCache 400000 1000 "uuid" ".jpg"
              threeFiles threeFiles_distinct)
    as (evicted & kept & rest & Hsplit & _ & _ & _ & _ & _ & Hev & _ & _ & _
        & _ & Hend & Hold & _).
  exists evicted, kept, rest. split; [exact Hsplit|].
  split; [exact Hev|]. split; [exact Hend|exact Hold].
Defined.

(** C2, as stated, fails when an entry cannot be deleted: the oldest file
    stays, a younger one is evicted in its place, and eviction ends with
    the directory neither under the cap nor empty; the new file is written
    all the same, and the cache is over the cap. *)
Lemma undeletable_entry_is_passed_over :
  let stuck := {| info := {| name := "a.jpg"; mtimeMs := 100; size := 900000 |};
                  statFails := false; unlinkFails := true |} in
  let d := [cached "b.jpg" 200 300000; stuck] in
  evictOldestFiles smallCache 400000 (Some d) = (Ok (), Some [stuck])
  ∧ mtimeMs (info stuck) < mtimeMs (info (cached "b.jpg" 200 300000))
  ∧ size (info stuck) + 400000 > cacheMaxSizeMB (media smallCache) * 1024 * 1024
  ∧ downloadMedia posix smallCache "uuid" ".jpg" (FetchBody 400000) 1000
      (Some d)
    = (Ok (Some "/tmp/cache/uuid.jpg"),
       Some [written "uuid.jpg" 400000 1000; stuck]).
Proof. vm_compute. repeat split; reflexivity. Qed.

Example eviction_examples :
  evictOldestFiles smallCache 400000 (Some threeFiles)
    = (Ok (), Some [cached "c.jpg" 200 300000])
  ∧ evictOldestFiles smallCache 0 (Some threeFiles)
    = (Ok (), Some [cached "b.jpg" 200 600000; cached "c.jpg" 200 300000])
  ∧ evictOldestFiles DEFAULT_CONFIG 400000 (Some threeFiles)
    = (Ok (), Some threeFiles)
  ∧ evictOldestFiles smallCache 2000000 (Some threeFiles) = (Ok (), Some [])
  ∧ downloadMedia posix smallCache "uuid" ".jpg" (FetchBody 400000) 1000
      (Some threeFiles)
    = (Ok (Some "/tmp/cache/uuid.jpg"),
       Some [cached "uuid.jpg" 1000 400000; cached "c.jpg" 200 300000])
  ∧ downloadMedia posix smallCache "uuid" ".jpg" FetchNotOk 1000 None
    = (Ok None, Some [])
  ∧ cleanExpiredCache smallCache (200 + 3600000) (Some threeFiles)
    = (Ok (), Some [cached "b.jpg" 200 600000; cached "c.jpg" 200 300000])
  ∧ cleanExpiredCache smallCache (201 + 3600000) (Some threeFiles)
    = (Ok (), Some []).
Proof. vm_compute. repeat split; reflexivity. Qed.

(** An entry that cannot be deleted is passed over, by eviction and by
    the sweep alike. *)
Example failure_examples :
  let stuck := {| info := {| name := "a.jpg"; mtimeMs := 100; size := 500000 |};
                  statFails := false; unlinkFails := true |} in
  let d := [cached "b.jpg" 200 600000; stuck; cached "c.jpg" 200 300000] in
  evictOldestFiles smallCache 400000 (Some d) = (Ok (), Some [stuck])
  ∧ cleanExpiredCache smallCache (201 + 3600000) (Some d) = (Ok (), Some [stuck]).
Proof. vm_compute. repeat split; reflexivity. Qed.

End CacheFacts.

(** *** Sending a reply *)

Module ReplyFacts.
Import Reply.

Lemma maxLen_pos : (0 < maxLen)%nat.
Proof. unfold maxLen. lia. Qed.

Lemma ceilDiv_lt (len m k : nat) :
  (0 < m)%nat → (k * m < len)%nat ↔ (k < ceilDiv len m)%nat.
Proof.
  intros Hm. unfold ceilDiv.
  pose proof (Nat.div_mod_eq len m) as Hdm.
  pose proof (Nat.mod_upper_bound len m ltac:(lia)) as Hub.
  destruct (Nat.eqb_spec (len mod m) 0) as [H0|H0]; split; intros; nia.
Qed.

Lemma substring_nil i n : substring i n "" = "".
Proof. by destruct i, n. Qed.

Lemma substring_app_next (s : string) :
  ∀ i a b, substring i a s +:+ substring (i + a) b s = substring i (a + b) s.
Proof.
  induction s as [|c s IH]; intros i a b.
  - by rewrite !substring_nil.
  - destruct i as [|i]; simpl.
    + destruct a as [|a]; simpl.
      * done.
      * by rewrite <- (IH 0%nat a b).
    + apply IH.
Qed.

Lemma substring_whole (s : string) :
  ∀ n, (String.length s ≤ n)%nat → substring 0 n s = s.
Proof.
  induction s as [|c s IH]; intros n Hn.
  - by destruct n.
  - destruct n as [|n]; simpl in *; [lia|]. f_equal. apply IH. lia.
Qed.


Section NoFailure.
Context (ctx : Ctx) (Hok : ∀ e, callThrows ctx e = None).

Lemma call_ok e : call ctx e = ([e], Ok ()).
Proof. unfold call. by rewrite Hok. Qed.

Lemma chunkLoop_trace action idKey idVal prefixSegs cleanText total :
  total = ceilDiv (String.length cleanText) maxLen → (1 < total)%nat →
  ∀ fuel k, (total - k ≤ fuel)%nat →
    chunkLoop fuel ctx action idKey idVal prefixSegs cleanText total (k * maxLen)
    = (flat_map (chunkRound action idKey idVal prefixSegs cleanText total)
         (seq k (total - k)), Ok ()).
Proof.
  intros Htot Hbig. pose proof maxLen_pos as Hm.
  assert (∀ k, (k * maxLen < String.length cleanText)%nat ↔ (k < total)%nat)
    as Hlt by (intros; subst total; by apply ceilDiv_lt).
  induction fuel as [|fuel IH]; intros k Hfuel.
  - replace (total - k)%nat with 0%nat by lia. done.
  - cbn [chunkLoop].
    destruct (Nat.ltb_spec (k * maxLen) (String.length cleanText)) as [Hin|Hout].
    + apply Hlt in Hin.
      replace (total - k)%nat with (S (total - S k)) by lia.
      cbn [seq flat_map].
      rewrite call_ok.
      replace (k * maxLen + maxLen)%nat with (S k * maxLen)%nat by lia.
      rewrite IH by lia.
      unfold chunkRound, chunkMessage.
      replace (k * maxLen / maxLen)%nat with k by (by rewrite Nat.div_mul by lia).
      assert ((1 <? total)%nat = true) as -> by (by apply Nat.ltb_lt).
      assert ((k * maxLen =? 0)%nat = (k =? 0)%nat) as ->.
      { destruct (Nat.eqb_spec k 0) as [->|Hk]; [done|].
        apply Nat.eqb_neq. nia. }
      assert ((S k * maxLen <? String.length cleanText)%nat
              = (k + 1 <? total)%nat) as ->.
      { destruct (Nat.ltb_spec (k + 1) total) as [H1|H1].
        - apply Nat.ltb_lt, Hlt. lia.
        - apply Nat.ltb_ge. destruct (Nat.le_gt_cases (String.length cleanText)
            (S k * maxLen)) as [|Hc]; [done|]. apply Hlt in Hc. lia. }
      replace (S k * maxLen)%nat with (k * maxLen + maxLen)%nat by lia.
      unfold mbind, Act_bind, mret, Act_ret, sleep.
      destruct (k + 1 <? total)%nat; simpl; by rewrite ?app_nil_r.
    + assert (total ≤ k)%nat.
      { destruct (Nat.le_gt_cases total k) as [|Hc]; [done|].
        apply Hlt in Hc. lia. }
      replace (total - k)%nat with 0%nat by lia. done.
Qed.

Lemma sendTextPart_trace action idKey idVal prefixSegs cleanText :
  cleanText ≠ "" →
  let len := String.length cleanText in
  let total := ceilDiv len maxLen in
  ((len ≤ maxLen)%nat →
     sendTextPart ctx action idKey idVal prefixSegs cleanText
     = ([SendMsg action idKey idVal (prefixSegs ++ [SegText cleanText])], Ok ()))
  ∧ ((maxLen < len)%nat →
     sendTextPart ctx action idKey idVal prefixSegs cleanText
     = (flat_map (chunkRound action idKey idVal prefixSegs cleanText total)
          (seq 0 total), Ok ())).
Proof.
  intros Hne len total. unfold sendTextPart.
  rewrite bool_decide_eq_false_2 by done. fold len. split; intros Hlen.
  - assert ((len <=? maxLen)%nat = true) as -> by (by apply Nat.leb_le).
    apply call_ok.
  - assert ((len <=? maxLen)%nat = false) as -> by (apply Nat.leb_gt; lia).
    fold total. pose proof maxLen_pos as Hm.
    assert (1 < total)%nat as Hbig.
    { apply (ceilDiv_lt len maxLen 1 Hm). lia. }
    assert (total ≤ len)%nat as Hfuel.
    { destruct (Nat.le_gt_cases total len) as [|Hc]; [done|].
      apply (ceilDiv_lt len maxLen len Hm) in Hc. nia. }
    pose proof (chunkLoop_trace action idKey idVal prefixSegs cleanText total
                  eq_refl Hbig len 0 ltac:(lia)) as Hloop.
    rewrite Nat.sub_0_r in Hloop. exact Hloop.
Qed.


End NoFailure.

Lemma chunkLoop_step ctx action idKey idVal prefixSegs cleanText total fuel k :
  total = ceilDiv (String.length cleanText) maxLen → (1 < total)%nat →
  (k < total)%nat →
  chunkLoop (S fuel) ctx action idKey idVal prefixSegs cleanText total
    (k * maxLen)
  = (call ctx (chunkMessage action idKey idVal prefixSegs cleanText total k);;
     (if (k + 1 <? total)%nat then sleep 1000 else mret ());;
     chunkLoop fuel ctx action idKey idVal prefixSegs cleanText total
       (S k * maxLen)).
Proof.
  intros Htot Hbig Hk. pose proof maxLen_pos as Hm.
  assert (∀ j, (j * maxLen < String.length cleanText)%nat ↔ (j < total)%nat)
    as Hlt by (intros; subst total; by apply ceilDiv_lt).
  cbn [chunkLoop].
  assert ((k * maxLen <? String.length cleanText)%nat = true) as ->
    by (by apply Nat.ltb_lt, Hlt).
  unfold chunkMessage.
  replace (k * maxLen / maxLen)%nat with k by (by rewrite Nat.div_mul by lia).
  assert ((1 <? total)%nat = true) as -> by (by apply Nat.ltb_lt).
  assert ((k * maxLen =? 0)%nat = (k =? 0)%nat) as ->.
  { destruct (Nat.eqb_spec k 0) as [->|Hk0]; [done|]. apply Nat.eqb_neq. nia. }
  replace (k * maxLen + maxLen)%nat with (S k * maxLen)%nat by lia.
  assert ((S k * maxLen <? String.length cleanText)%nat
          = (k + 1 <? total)%nat) as ->; [|done].
  destruct (Nat.ltb_spec (k + 1) total) as [H1|H1].
  - apply Nat.ltb_lt, Hlt. lia.
  - apply Nat.ltb_ge. destruct (Nat.le_gt_cases (String.length cleanText)
      (S k * maxLen)) as [|Hc]; [done|]. apply Hlt in Hc. lia.
Qed.

Lemma chunkLoop_failure ctx action idKey idVal prefixSegs cleanText total k e :
  total = ceilDiv (String.length cleanText) maxLen → (1 < total)%nat →
  (k < total)%nat →
  (∀ j, (j < k)%nat →
     callThrows ctx
       (chunkMessage action idKey idVal prefixSegs cleanText total j) = None) →
  callThrows ctx (chunkMessage action idKey idVal prefixSegs cleanText total k)
    = Some e →
  ∀ fuel j, (j ≤ k)%nat → (k - j < fuel)%nat →
    chunkLoop fuel ctx action idKey idVal prefixSegs cleanText total (j * maxLen)
    = (flat_map (chunkRound action idKey idVal prefixSegs cleanText total)
         (seq j (k - j))
       ++ [chunkMessage action idKey idVal prefixSegs cleanText total k],
       Thrown e).
Proof.
  intros Htot Hbig Hk Hbefore Hfail.
  induction fuel as [|fuel IH]; intros j Hj Hfuel; [lia|].
  rewrite chunkLoop_step by (done || lia).
  destruct (decide (j = k)) as [->|Hne].
  - rewrite Nat.sub_diag. unfold call. rewrite Hfail. done.
  - unfold call. rewrite Hbefore by lia.
    assert ((j + 1 <? total)%nat = true) as -> by (apply Nat.ltb_lt; lia).
    rewrite IH by lia.
    replace (k - j)%nat with (S (k - S j)) by lia.
    cbn [seq flat_map]. unfold chunkRound at 2.
    assert ((j + 1 <? total)%nat = true) as -> by (apply Nat.ltb_lt; lia).
    reflexivity.
Qed.





End ReplyFacts.

(** *** The message entry point *)

Module OnmessageFacts.
Import Session Reply Onmessage.

Lemma slice_length_le (s : string) :
  ∀ i n, (String.length (substring i n s) ≤ n)%nat.
Proof.
  induction s as [|c s IH]; intros i n.
  - rewrite ReplyFacts.substring_nil. simpl. lia.
  - destruct i as [|i]; simpl.
    + destruct n as [|n]; simpl; [lia|]. specialize (IH 0%nat n). lia.
    + apply IH.
Qed.

Lemma append_length (s t : string) :
  String.length (s +:+ t) = (String.length s + String.length t)%nat.
Proof. induction s as [|c s IH]; simpl; [done|]. by rewrite IH. Qed.

Lemma append_assoc (s t u : string) : (s +:+ t) +:+ u = s +:+ t +:+ u.
Proof.
  induction s as [|c s IH]; [done|].
  change (String c ((s +:+ t) +:+ u) = String c (s +:+ t +:+ u)). by f_equal.
Qed.

(** The download of a media file never throws. *)
Lemma downloadMedia_safe host cfg uuid ext fetched now fs :
  ∃ r fs', Cache.downloadMedia host cfg uuid ext fetched now fs = (Ok r, fs').
Proof.
  unfold Cache.downloadMedia, Cache.tryCatch.
  match goal with |- context [match ?m fs with _ => _ end] => destruct (m fs) as [[r|e] fs'] end;
    by eexists _, _.
Qed.

(** C9.  When the gateway round trip fails, in the connection or in the
    [chat.send] request, the local CLI is invoked with the same session
    key and message and a time-out of 180 s.  If the CLI fails too, the
    only thing sent is the reply made of the failure prefix and at most 100
    characters of the error message.  Whatever the downloads of the media
    come to, the message built for the gateway contains the text of the
    inbound message, and a download never throws. *)
Theorem gateway_failure_falls_back_to_cli :
  ∀ (env : Env) (cfg : PluginConfig) (messageType : string)
    (groupId : option jsid) (userId : jsid) (eventMessageId : option jsid)
    (sessionKey openclawMessage e : string),
    gateway env = ConnectFails e ∨ gateway env = RequestFails e →
    let reply text :=
      sendReply (ctx env) cfg messageType groupId userId text eventMessageId in
    let attempt :=
      match gateway env with
      | RequestFails _ =>
          [RegisterWaiter sessionKey;
           GatewayRequest "chat.send" sessionKey openclawMessage (uuid env)]
      | _ => []
      end in
    let command :=
      "OPENCLAW_TOKEN='" +:+ token (openclaw cfg) +:+ "' "
      +:+ cliPath (openclaw cfg) +:+ " agent --session-id '"
      +:+ sessionKey +:+ "' --message '" +:+ escapeQuotes openclawMessage
      +:+ "' 2>&1" in
    let fallback := [GatewayDisconnect; Exec command 180000 (1024 * 1024)] in
    let failure := FAILURE_PREFIX +:+ slice 0 100 e in
    let run := roundTrip env cfg messageType groupId userId eventMessageId
                 sessionKey openclawMessage in
    (∀ out, cli env = Ok out → trim out = "" →
       run = (attempt ++ fallback, Ok ()))
    ∧ (∀ out, cli env = Ok out → trim out ≠ "" → (reply (trim out)).2 = Ok () →
       run = (attempt ++ fallback ++ (reply (trim out)).1, Ok ()))
    ∧ (∀ e2, cli env = Thrown e2 →
       run = (attempt ++ fallback ++ (reply failure).1, (reply failure).2))
    ∧ (String.length failure ≤ String.length FAILURE_PREFIX + 100)%nat
    ∧ (∀ identity replyContext text extractedMedia,
         ∃ before after,
           buildMessage env cfg identity replyContext text extractedMedia
           = before +:+ text +:+ after)
    ∧ (∀ host uuid ext fetched now fs,
         ∃ r fs',
           Cache.downloadMedia host cfg uuid ext fetched now fs = (Ok r, fs')).
Proof.
  intros env cfg messageType groupId userId eventMessageId sessionKey
    openclawMessage e Hfail reply attempt command fallback failure run.
  assert (∀ (k : Result string),
            cli env = k →
            run = (let '(tr, r) :=
                     actCatch
                       (stdout ← ([Exec command 180000 (1024 * 1024)], k);
                        if bool_decide (trim stdout = "") then mret ()
                        else reply (trim stdout))
                       (λ _, reply failure) in
                   (attempt ++ GatewayDisconnect :: tr, r))) as Hrun.
  { intros k Hk. unfold run, roundTrip, attempt, execAsync, emit.
    fold reply. rewrite Hk.
    change (cliCommand cfg sessionKey openclawMessage) with command.
    change CLI_TIMEOUT_MS with 180000. change CLI_MAX_BUFFER with (1024 * 1024).
    fold failure.
    unfold reply, failure.
    destruct Hfail as [-> | ->]; unfold mbind, Act_bind, actCatch; simpl;
      (destruct k as [a|e0]; [destruct (bool_decide (trim a = ""))|]);
      repeat match goal with
             | |- context [sendReply ?c ?f ?m ?g ?u ?t ?i] =>
                 destruct (sendReply c f m g u t i) as [? [[]|?]]
             end; simpl; by rewrite ?app_nil_r. }
  split; [|split; [|split; [|split; [|split]]]].
  - intros out Hout Hblank. rewrite (Hrun _ Hout).
    unfold mbind, Act_bind, actCatch, mret, Act_ret.
    rewrite bool_decide_eq_true_2 by done. done.
  - intros out Hout Hblank Hsent. rewrite (Hrun _ Hout).
    unfold mbind, Act_bind, actCatch.
    rewrite bool_decide_eq_false_2 by done.
    destruct (reply (trim out)) as [tr r]. simpl in Hsent. subst r. done.
  - intros e2 He2. rewrite (Hrun _ He2).
    unfold mbind, Act_bind, actCatch.
    by destruct (reply failure) as [tr r].
  - unfold failure, slice. rewrite append_length.
    pose proof (slice_length_le e 0 (100 - 0)). lia.
  - intros identity replyContext text extractedMedia. unfold buildMessage.
    exists (identity +:+ LF
            +:+ (if bool_decide (replyContext = "") then ""
                 else replyContext +:+ LF)).
    eexists. by rewrite !append_assoc.
  - intros. apply downloadMedia_safe.
Qed.

(** **** The entry point on concrete events *)


(** C6, on the code.  With the debounce window at its default of 2000 ms,
    three private messages of one user give three requests to the gateway,
    one per message and each with its own text, whatever their arrival
    times: the entry point never reads [debounceMs] and keeps no buffer. *)
Lemma rapid_messages_are_not_coalesced :
  ∀ t1 t2 t3 : Z,
    debounceMs (behavior (currentConfig started)) = 2000
    ∧ requestsOf
        (onmessages started
           [(answering None, privateText t1 123 "a");
            (answering None, privateText t2 123 "b");
            (answering None, privateText t3 123 "c")]).1
      = [("qq-123", "[发送者: bob (QQ: 123) | 私聊]" +:+ LF +:+ "a");
         ("qq-123", "[发送者: bob (QQ: 123) | 私聊]" +:+ LF +:+ "b");
         ("qq-123", "[发送者: bob (QQ: 123) | 私聊]" +:+ LF +:+ "c")].
Proof. intros t1 t2 t3. vm_compute. split; reflexivity. Qed.

(** C7, on the code.  [sendReply] hands every message to the adapter at
    once.  The replies to two users follow each other without a pause, and
    so do the text and the image of one reply; the only pause the code ever
    makes is the 1000 ms between two chunks of one long text. *)
Lemma consecutive_sends_are_not_paced :
  ∀ t1 t2 : Z,
    (onmessages started
       [(answering (Some "x"), privateText t1 123 "a");
        (answering (Some "y"), privateText t2 456 "b")]).1
    = [SetInputStatus "123" 1; RegisterWaiter "qq-123";
       GatewayRequest "chat.send" "qq-123"
         ("[发送者: bob (QQ: 123) | 私聊]" +:+ LF +:+ "a") "run";
       SendMsg "send_private_msg" "user_id" "123" [SegText "x"];
       SetInputStatus "456" 1; RegisterWaiter "qq-456";
       GatewayRequest "chat.send" "qq-456"
         ("[发送者: bob (QQ: 456) | 私聊]" +:+ LF +:+ "b") "run";
       SendMsg "send_private_msg" "user_id" "456" [SegText "y"]]
    ∧ sendReply {| callThrows := λ _, None |} DEFAULT_CONFIG "private" None
        (IdNum 123) ("hi" +:+ LF +:+ "MEDIA: /tmp/a.png") (Some (IdNum 1))
      = ([SendMsg "send_private_msg" "user_id" "123" [SegText "hi"];
          SendMsg "send_private_msg" "user_id" "123"
            [SegImage "file:///tmp/a.png"]], Ok ())
    ∧ (sendReply {| callThrows := λ _, None |} DEFAULT_CONFIG "private" None
         (IdNum 123) (String.concat "" (replicate 3001 "a")) (Some (IdNum 1))).1
      = [SendMsg "send_private_msg" "user_id" "123"
           [SegText (chunkPrefix 1 2 +:+ String.concat "" (replicate 3000 "a"))];
         Sleep 1000;
         SendMsg "send_private_msg" "user_id" "123"
           [SegText (chunkPrefix 2 2 +:+ "a")]].
Proof. intros t1 t2. vm_compute. repeat split; reflexivity. Qed.

(** The gateway is down and the CLI fails as well. *)
Lemma gateway_failure_falls_back_to_cli_witness :
  let env := {| ctx := {| callThrows := λ _, None |}; getMsgResult := None;
                groupNameResult := ""; downloadResult := λ _ _, None;
                uuid := "run"; gateway := ConnectFails "socket closed";
                cli := Thrown "spawn ENOENT" |} in
  roundTrip env DEFAULT_CONFIG "private" None (IdNum 123) (Some (IdNum 1))
    "qq-123" "it's me"
  = ([GatewayDisconnect;
      Exec ("OPENCLAW_TOKEN='' openclaw agent --session-id 'qq-123' --message '"
            +:+ "it'\''s me" +:+ "' 2>&1") 180000 (1024 * 1024);
      SendMsg "send_private_msg" "user_id" "123"
        [SegText (FAILURE_PREFIX +:+ "socket closed")]], Ok ()).
Proof.
  intros env.
  destruct (gateway_failure_falls_back_to_cli env DEFAULT_CONFIG "private" None
              (IdNum 123) (Some (IdNum 1)) "qq-123" "it's me" "socket closed")
    as (_ & _ & Hcli & _).
  - by left.
  - rewrite (Hcli "spawn ENOENT" eq_refl). vm_compute. reflexivity.
Defined.

End OnmessageFacts.

(** *** The time-out of a reply waiter *)

Module TimeoutFacts.
Import Gateway GatewayFacts Onmessage.

Lemma timer_survives_step st a w key d :
  Inv st → closures st !! w = Some key → timers st !! w = Some d →
  (∀ p, a = Deliver "chat" (Some p) → correlates p key = true →
        terminal (state p) = false) →
  a ≠ TimerFires w →
  closures (step st a) !! w = Some key ∧ timers (step st a) !! w = Some d.
Proof.
  intros HI Hc Ht Hquiet Hne.
  pose proof (inv_closures _ HI _ _ Hc) as Hlt.
  destruct a as [k|ev payload|w']; simpl.
  - rewrite !lookup_insert_ne by lia. done.
  - unfold dispatchEvent.
    destruct (eventHandlers st !! ev) as [w'|] eqn:Hev; [|done].
    destruct (closures st !! w') as [key'|] eqn:Hk; [|done].
    destruct (chatHandler_effect w' key' payload st)
      as [->|(p & v & -> & Hcor & Hterm & ->)]; [done|].
    simpl. split; [done|].
    destruct (decide (w' = w)) as [->|Hw].
    + exfalso. destruct (inv_handlers _ HI _ _ Hev) as (-> & _).
      assert (key' = key) as -> by congruence.
      rewrite (Hquiet p eq_refl Hcor) in Hterm. discriminate.
    + by rewrite lookup_delete_ne.
  - unfold onTimeout. destruct (timers st !! w') eqn:Hw'; [|done].
    simpl. split; [done|]. rewrite lookup_delete_ne; [done|]. congruence.
Qed.

Lemma timer_survives_run acts : ∀ st w key d,
  Inv st → closures st !! w = Some key → timers st !! w = Some d →
  (∀ p, Deliver "chat" (Some p) ∈ acts → correlates p key = true →
        terminal (state p) = false) →
  TimerFires w ∉ acts →
  Inv (run st acts) ∧ timers (run st acts) !! w = Some d.
Proof.
  induction acts as [|a acts IH]; intros st w key d HI Hc Ht Hquiet Hno; [done|].
  simpl. destruct (timer_survives_step st a w key d HI Hc Ht) as [Hc' Ht'].
  - intros p -> Hcor. apply Hquiet; [left|done].
  - intros ->. apply Hno. left.
  - apply (IH _ w key d); [by apply Inv_step|done..| |].
    + intros p Hin. apply Hquiet. by right.
    + intros Hin. apply Hno. by right.
Qed.

(** C4.  A waiter is registered with a timer of 180 s.  If, until the
    timer fires, no chat event is delivered that both correlates with its
    session key and carries a terminal state, then the firing settles the
    promise with [null] and empties the slot, any event delivered right
    after it changes nothing, and whatever happens later the promise stays
    settled this once.  The caller that awaits the promise then ends
    normally, having sent nothing. *)
Theorem reply_timeout_is_no_reply :
  ∀ (before between later : list Action) (key : string) (env : Env)
    (cfg : PluginConfig) (messageType : string) (groupId : option jsid)
    (userId : jsid) (eventMessageId : option jsid) (openclawMessage : string),
    let st0 := run initial before in
    let w := nextWaiter st0 in
    let st1 := run (step st0 (Register key)) between in
    let st2 := step st1 (TimerFires w) in
    (∀ p, Deliver "chat" (Some p) ∈ between → correlates p key = true →
          terminal (state p) = false) →
    TimerFires w ∉ between →
    timers (step st0 (Register key)) !! w = Some 180000
    ∧ eventHandlers (step st0 (Register key)) !! "chat" = Some w
    ∧ promiseValue w st2 = Some None
    ∧ eventHandlers st2 !! "chat" = None
    ∧ timers st2 !! w = None
    ∧ (∀ ev payload, dispatchEvent ev payload st2 = st2)
    ∧ settlementsOf w (run st2 later)
      = [{| s_waiter := w; s_value := None; s_cause := ByTimeout |}]
    ∧ (gateway env = Replied None →
       roundTrip env cfg messageType groupId userId eventMessageId key
         openclawMessage
       = ([RegisterWaiter key;
           GatewayRequest "chat.send" key openclawMessage (uuid env)], Ok ())).
Proof.
  intros before between later key env cfg messageType groupId userId
    eventMessageId openclawMessage st0 w st1 st2 Hquiet Hno.
  pose proof (Inv_reachable before) as HI0. fold st0 in HI0.
  pose proof (Inv_step st0 (Register key) HI0) as HIr.
  assert (closures (step st0 (Register key)) !! w = Some key) as Hc
    by apply lookup_insert_eq.
  assert (timers (step st0 (Register key)) !! w = Some 180000) as Ht
    by apply lookup_insert_eq.
  destruct (timer_survives_run between _ w key 180000 HIr Hc Ht Hquiet Hno)
    as [HI1 Ht1]. fold st1 in HI1, Ht1.
  destruct (onTimeout_pending w st1 HI1) as (Hset & Hslot & Htimer);
    [by rewrite Ht1|].
  pose proof (Inv_step st1 (TimerFires w) HI1) as HI2. fold st2 in HI2.
  change (onTimeout w st1) with st2 in Hset, Hslot, Htimer.
  split; [done|]. split; [apply lookup_insert_eq|].
  split; [|split; [done|split; [done|split; [|split]]]].
  - unfold promiseValue. unfold settlementsOf in Hset. by rewrite Hset.
  - intros ev payload. by apply dispatch_nobody.
  - rewrite settlementsOf_run_stable; [done..|]. by rewrite Hset.
  - intros Hgw. unfold roundTrip. by rewrite Hgw.
Qed.

(** One delta event before the timer fires, a final event after it. *)
Lemma reply_timeout_is_no_reply_witness :
  let delta := {| Gateway.sessionKey := Some "qq-123"; Gateway.runId := None;
                  Gateway.state := "delta";
                  Gateway.message := Some (MsgStr "par");
                  Gateway.errorMessage := None |} in
  let final := {| Gateway.sessionKey := Some "qq-123"; Gateway.runId := None;
                  Gateway.state := "final";
                  Gateway.message := Some (MsgStr "partial");
                  Gateway.errorMessage := None |} in
  let st2 := run initial [Register "qq-123"; Deliver "chat" (Some delta);
                          TimerFires 0] in
  promiseValue 0 st2 = Some None
  ∧ settlementsOf 0 (run st2 [Deliver "chat" (Some final)])
    = [{| s_waiter := 0; s_value := None; s_cause := ByTimeout |}].
Proof.
  intros delta final st2.
  destruct (reply_timeout_is_no_reply [] [Deliver "chat" (Some delta)]
              [Deliver "chat" (Some final)] "qq-123"
              (answering None) DEFAULT_CONFIG "private" None
              (IdNum 123) (Some (IdNum 1)) "hello")
    as (_ & _ & Hv & _ & _ & _ & Hs & _).
  - intros p Hin _. apply list_elem_of_singleton in Hin.
    injection Hin as Hp. rewrite Hp. reflexivity.
  - intros Hin. apply list_elem_of_singleton in Hin. discriminate.
  - split; [exact Hv|exact Hs].
Defined.

End TimeoutFacts.

(** ** Further properties of the code *)

(** *** Replies *)

Module ReplyMore.
Import Reply ReplyFacts.

Lemma scanMedia_plain (s : string) :
  ∀ atStart, mediaLineAt s atStart = false → scanMedia s atStart 0 = ([], s).
Proof.
  induction s as [|c s IH]; intros atStart Hno; [done|].
  cbn [mediaLineAt] in Hno. apply orb_false_iff in Hno as [Hhere Hrest].
  cbn [scanMedia].
  assert ((if atStart then mediaMatch (String c s) else None) = None) as ->.
  { destruct atStart; [|done]. rewrite andb_true_l in Hhere.
    unfold mediaMatch. by rewrite Hhere. }
  by rewrite (IH _ Hrest).
Qed.

(** X1.  A reply in which no line begins with [MEDIA:] carries no media
    file, and outside a group it is sent as it is, trimmed: one message
    with one text segment when the trimmed text is not empty and has at
    most 3000 characters. *)
Theorem plain_reply_is_sent_trimmed :
  ∀ (ctx : Ctx) (cfg : PluginConfig) (messageType : string)
    (groupId : option jsid) (userId : jsid) (text : string)
    (eventMessageId : option jsid),
    (∀ e, callThrows ctx e = None) →
    mediaLineAt text true = false →
    messageType ≠ "group" →
    trim text ≠ "" →
    (String.length (trim text) ≤ 3000)%nat →
    mediaFilesOf text = []
    ∧ cleanTextOf cfg messageType userId eventMessageId text = trim text
    ∧ sendReply ctx cfg messageType groupId userId text eventMessageId
      = ([SendMsg "send_private_msg" "user_id" (idToString userId)
            [SegText (trim text)]], Ok ()).
Proof.
  intros ctx cfg messageType groupId userId text eventMessageId
    Hok Hplain Hmt Hne Hlen.
  assert (mediaFilesOf text = []) as Hfiles.
  { unfold mediaFilesOf. by rewrite (scanMedia_plain text true Hplain). }
  assert (cleanTextOf cfg messageType userId eventMessageId text = trim text)
    as Hclean.
  { unfold cleanTextOf, dedupPrefix, stripMedia.
    rewrite (scanMedia_plain text true Hplain).
    by rewrite (bool_decide_eq_false_2 (messageType = "group")) by done. }
  split; [done|]. split; [done|].
  unfold sendReply. rewrite Hfiles, Hclean.
  unfold prefixSegsOf, actionOf, idKeyOf, idValOf.
  rewrite !(bool_decide_eq_false_2 (messageType = "group")) by done.
  destruct (sendTextPart_trace ctx Hok "send_private_msg" "user_id"
              (idToString userId) [] (trim text) Hne) as [Hshort _].
  rewrite Hshort by exact Hlen. reflexivity.
Qed.

Lemma plain_reply_is_sent_trimmed_witness :
  sendReply {| callThrows := λ _, None |} DEFAULT_CONFIG "private" None
    (IdNum 123) (" hello" +:+ LF +:+ "world ") (Some (IdNum 7))
  = ([SendMsg "send_private_msg" "user_id" (idToString (IdNum 123))
        [SegText (trim (" hello" +:+ LF +:+ "world "))]], Ok ()).
Proof.
  apply (plain_reply_is_sent_trimmed {| callThrows := λ _, None |}
           DEFAULT_CONFIG "private" None (IdNum 123)
           (" hello" +:+ LF +:+ "world ") (Some (IdNum 7))).
  - reflexivity.
  - reflexivity.
  - discriminate.
  - vm_compute. discriminate.
  - vm_compute. lia.
Defined.

Lemma sendMediaFiles_spec ctx messageType action idKey idVal files :
  (sendMediaFiles ctx messageType action idKey idVal files).2 = Ok ()
  ∧ length (sendMediaFiles ctx messageType action idKey idVal files).1
    = length files
  ∧ Forall (λ e, toChat e = true ∧ isSleep e = false)
      (sendMediaFiles ctx messageType action idKey idVal files).1.
Proof.
  induction files as [|f files (IH2 & IHl & IHf)]; [by repeat split|].
  cbn [sendMediaFiles]. unfold mbind, Act_bind, actCatch, call, mret, Act_ret.
  destruct (sendMediaFiles ctx messageType action idKey idVal files)
    as [tr r]. simpl in *. subst r.
  repeat case_bool_decide;
    match goal with
    | |- context [callThrows ctx ?e] => destruct (callThrows ctx e)
    end; simpl; (split; [done|split; [by f_equal|]]);
    by constructor.
Qed.

(** X2.  What a failing action call does to a reply.  A media file whose
    sending fails is passed over: the media part never throws and makes
    one attempt per file, each an image message or a file upload.  A
    failure in the text part ends the reply at once, before any media file
    is tried. *)
Theorem reply_failure_behaviour :
  ∀ (ctx : Ctx) (cfg : PluginConfig) (messageType : string)
    (groupId : option jsid) (userId : jsid) (text : string)
    (eventMessageId : option jsid),
    let textPart :=
      sendTextPart ctx (actionOf messageType) (idKeyOf messageType)
        (idValOf messageType groupId userId)
        (prefixSegsOf cfg messageType userId eventMessageId)
        (cleanTextOf cfg messageType userId eventMessageId text) in
    let mediaPart :=
      sendMediaFiles ctx messageType (actionOf messageType)
        (idKeyOf messageType) (idValOf messageType groupId userId)
        (mediaFilesOf text) in
    let run := sendReply ctx cfg messageType groupId userId text
                 eventMessageId in
    mediaPart.2 = Ok ()
    ∧ length mediaPart.1 = length (mediaFilesOf text)
    ∧ Forall (λ e, toChat e = true ∧ isSleep e = false) mediaPart.1
    ∧ (∀ e, textPart.2 = Thrown e → run = (textPart.1, Thrown e))
    ∧ (textPart.2 = Ok () → run = (textPart.1 ++ mediaPart.1, Ok ())).
Proof.
  intros ctx cfg messageType groupId userId text eventMessageId
    textPart mediaPart run.
  destruct (sendMediaFiles_spec ctx messageType (actionOf messageType)
              (idKeyOf messageType) (idValOf messageType groupId userId)
              (mediaFilesOf text)) as (H2 & Hl & Hf).
  fold mediaPart in H2, Hl, Hf.
  split; [done|]. split; [done|]. split; [done|].
  unfold run, sendReply. fold textPart mediaPart.
  unfold mbind, Act_bind.
  destruct textPart as [tr [[]|e']], mediaPart as [tr' r']; simpl in *;
    split; intros; simplify_eq; done.
Qed.




(** X4.  When the sending of a chunk fails, the text part ends there: the
    chunks before it were sent, each followed by its pause, the failing
    chunk was attempted, and no later chunk is tried. *)
Theorem failed_chunk_ends_the_text :
  ∀ (ctx : Ctx) (action idKey idVal : string) (prefixSegs : list Segment)
    (cleanText : string) (k : nat) (e : string),
    let total := ceilDiv (String.length cleanText) maxLen in
    let message := chunkMessage action idKey idVal prefixSegs cleanText total in
    (3000 < String.length cleanText)%nat →
    (k < total)%nat →
    (∀ j, (j < k)%nat → callThrows ctx (message j) = None) →
    callThrows ctx (message k) = Some e →
    sendTextPart ctx action idKey idVal prefixSegs cleanText
    = (flat_map (λ j, [message j; Sleep 1000]) (seq 0 k) ++ [message k],
       Thrown e).
Proof.
  intros ctx action idKey idVal prefixSegs cleanText k e total message
    Hlen Hk Hbefore Hfail.
  change 3000%nat with maxLen in Hlen. pose proof maxLen_pos as Hm.
  assert (1 < total)%nat as Hbig.
  { apply (ceilDiv_lt (String.length cleanText) maxLen 1 Hm). lia. }
  assert (total ≤ String.length cleanText)%nat as Hfuel.
  { destruct (Nat.le_gt_cases total (String.length cleanText)) as [|Hc];
      [done|].
    apply (ceilDiv_lt (String.length cleanText) maxLen _ Hm) in Hc. nia. }
  unfold sendTextPart.
  rewrite bool_decide_eq_false_2
    by (intros Heq; rewrite Heq in Hlen; simpl in Hlen; lia).
  assert ((String.length cleanText <=? maxLen)%nat = false) as ->
    by (apply Nat.leb_gt; lia).
  fold total.
  pose proof (chunkLoop_failure ctx action idKey idVal prefixSegs cleanText
                total k e eq_refl Hbig Hk Hbefore Hfail
                (String.length cleanText) 0 ltac:(lia) ltac:(lia)) as Hloop.
  rewrite Nat.sub_0_r in Hloop. simpl (0 * maxLen)%nat in Hloop.
  rewrite Hloop. f_equal. f_equal.
  assert (∀ l : list nat, (∀ j, j ∈ l → (j + 1 < total)%nat) →
            flat_map (chunkRound action idKey idVal prefixSegs cleanText total) l
            = flat_map (λ j, [message j; Sleep 1000]) l) as Hrounds.
  { induction l as [|j l IHl]; intros Hall; [done|].
    cbn [flat_map]. rewrite IHl by (intros; apply Hall; by right).
    unfold chunkRound.
    assert ((j + 1 <? total)%nat = true) as ->; [|done].
    apply Nat.ltb_lt, Hall. left. }
  apply Hrounds. intros j Hj%elem_of_seq. lia.
Qed.

Lemma failed_chunk_ends_the_text_witness :
  let ctx := {| callThrows := λ e,
                  match e with
                  | SendMsg _ _ _ [SegText _] => Some "rate limited"
                  | _ => None
                  end |} in
  let text := String.concat "" (replicate 4500 "a") in
  let message := chunkMessage "send_group_msg" "group_id" "99" [SegAt "123"]
                   text 2 in
  sendTextPart ctx "send_group_msg" "group_id" "99" [SegAt "123"] text
  = (flat_map (λ j, [message j; Sleep 1000]) (seq 0 1) ++ [message 1%nat],
     Thrown "rate limited").
Proof.
  intros ctx text message.
  apply (failed_chunk_ends_the_text ctx "send_group_msg" "group_id" "99"
           [SegAt "123"] text 1%nat "rate limited").
  - vm_compute. lia.
  - vm_compute. lia.
  - intros j Hj. assert (j = 0%nat) as -> by lia. reflexivity.
  - reflexivity.
Defined.

End ReplyMore.

(** *** The media cache, further *)

Module CacheMore.
Import Cache CacheFacts.

(** X5.  The size of the cache, on a cache path that is missing or is a
    directory that can be listed: a missing path counts 0, and a directory
    with distinct names counts the sizes of exactly the entries [statSync]
    can read, an entry it cannot read counting nothing; the directory is
    left as it was. *)
Theorem cache_size_counts_readable_entries :
  ∀ (d : list FileEntry),
    getCacheDirSize None = (Ok 0, None)
    ∧ (NoDup ((name ∘ info) <$> d) →
       getCacheDirSize (Some d)
       = (Ok (totalSize (info <$> readable d)), Some d)
       ∧ (healthy d → readable d = d)
       ∧ (∀ e, e ∈ d → statFails e = true →
            ∃ pre post, d = pre ++ e :: post
              ∧ totalSize (info <$> readable d)
                = totalSize (info <$> readable (pre ++ post)))).
Proof.
  intros d. split; [done|]. intros Hnd. split; [|split].
  - unfold getCacheDirSize. fs_unfold. cbn [existsSync negb readdirSync].
    by rewrite (sumSizes_readable d Hnd d 0).
  - intros Hh. apply filter_all. intros e He. by apply Hh.
  - intros e He Hs. apply list_elem_of_split in He as (pre & post & ->).
    exists pre, post. split; [done|].
    unfold readable. rewrite !filter_app, filter_cons.
    by rewrite decide_False by (by rewrite Hs).
Qed.

Lemma totalSize_nonneg (l : list FileInfo) :
  (∀ f, f ∈ l → 0 ≤ size f) → 0 ≤ totalSize l.
Proof.
  induction l as [|f l IH]; intros Hall; simpl; [lia|].
  assert (0 ≤ size f) by (apply Hall; left).
  assert (0 ≤ totalSize l) by (apply IH; intros; apply Hall; by right).
  lia.
Qed.

Lemma evictPrefix_everything maxBytes needBytes (files : list FileInfo) :
  (∀ f, f ∈ files → 0 ≤ size f) → maxBytes < needBytes →
  evictPrefix maxBytes needBytes files (totalSize files) = files.
Proof.
  intros Hall Hbig. induction files as [|f files IH]; [done|].
  cbn [evictPrefix].
  pose proof (totalSize_nonneg (f :: files) Hall) as Hnn.
  assert ((totalSize (f :: files) + needBytes <=? maxBytes) = false) as ->
    by (apply Z.leb_gt; lia).
  f_equal. simpl. replace (size f + totalSize files - size f)
    with (totalSize files) by lia.
  apply IH. intros g Hg. apply Hall. by right.
Qed.

Lemma totalSize_insertAt n (x : FileInfo) l :
  totalSize (insertAt n x l) = size x + totalSize l.
Proof.
  unfold insertAt. rewrite totalSize_app. cbn [totalSize foldr].
  fold (totalSize (drop n l)).
  rewrite <- (take_drop n l) at 3. rewrite totalSize_app. lia.
Qed.

(** X6.  The size cap after a download.  On a directory whose entries can
    all be inspected and deleted, when the write is not refused, a fetched
    body of [needBytes] bytes is written under a name that was free, where
    the host enumerates it among the entries that were kept, and afterwards
    the cache holds at most the cap when [needBytes] itself is at most the
    cap.  A body larger than the cap evicts every entry and is written all
    the same, so that the cache then holds this one file, over the cap. *)
Theorem download_and_the_size_cap :
  ∀ (host : Host) (cfg : PluginConfig) (needBytes now : Z)
    (uuid ext : string) (d : list FileEntry),
    writeThrows host = None →
    healthy d → NoDup ((name ∘ info) <$> d) →
    uuid +:+ ext ∉ (name ∘ info) <$> d →
    (∀ e, e ∈ d → 0 ≤ size (info e)) →
    let cap := cacheMaxSizeMB (media cfg) * 1024 * 1024 in
    let file := written (uuid +:+ ext) needBytes now in
    ∃ rest,
      downloadMedia host cfg uuid ext (FetchBody needBytes) now (Some d)
      = (Ok (Some (pathJoin host (cachePath (media cfg)) (uuid +:+ ext))),
         Some (insertAt (slot host) file rest))
      ∧ rest ⊆ d
      ∧ (needBytes ≤ cap →
         totalSize (info <$> insertAt (slot host) file rest) ≤ cap)
      ∧ (cap < needBytes → rest = []).
Proof.
  intros host cfg needBytes now uuid ext d Hw Hh Hnd Hfresh Hsizes cap file.
  assert (evictable d = d) as Hed.
  { apply filter_all. intros e He. by apply Hh. }
  assert (readable d = d) as Hrd.
  { apply filter_all. intros e He. by apply Hh. }
  set (sorted := sortByMtime (info <$> d)).
  set (total := totalSize (info <$> d)).
  destruct (evictPrefix_spec cap needBytes sorted total)
    as (kept & Hsplit & _ & Hend & _).
  set (evicted := evictPrefix cap needBytes sorted total) in *.
  set (rest := filter (λ e, name (info e) ∉ name <$> evicted) d).
  pose proof (kept_entries d evicted kept Hnd Hsplit) as Hrest. fold rest in Hrest.
  assert (total = totalSize evicted + totalSize kept) as Htotal.
  { unfold total. rewrite <- (totalSize_perm _ _ (sortByMtime_perm (info <$> d))).
    fold sorted. rewrite Hsplit. apply totalSize_app. }
  exists rest. split; [|split; [|split]].
  - unfold downloadMedia, ensureCacheDir. fs_unfold. cbn [existsSync negb].
    rewrite (evictOldestFiles_general cfg needBytes d Hnd). rewrite Hed, Hrd.
    fold sorted total. change (maxBytesOf cfg) with cap. fold evicted rest.
    unfold writeFileSync. rewrite Hw. do 3 f_equal.
    apply filter_all. intros e He Heq. apply Hfresh.
    apply list_elem_of_filter in He as [_ He].
    apply list_elem_of_fmap. by exists e.
  - intros e He. by apply list_elem_of_filter in He as [_ He].
  - intros Hfits.
    assert (info <$> insertAt (slot host) file rest
            = insertAt (slot host) (info file) (info <$> rest)) as ->.
    { unfold insertAt. by rewrite fmap_app, fmap_cons, fmap_take, fmap_drop. }
    rewrite totalSize_insertAt, (totalSize_perm _ _ Hrest).
    destruct Hend as [Hend| ->]; simpl; lia.
  - intros Hbig.
    assert (evicted = sorted) as Hall.
    { unfold evicted, total.
      rewrite <- (totalSize_perm _ _ (sortByMtime_perm (info <$> d))).
      fold sorted. apply evictPrefix_everything; [|done].
      intros f Hf. unfold sorted in Hf. rewrite sortByMtime_perm in Hf.
      apply list_elem_of_fmap in Hf as (e & -> & He). by apply Hsizes. }
    apply filter_none. intros e He Hnot. apply Hnot. rewrite Hall.
    unfold sorted. rewrite sortByMtime_perm, <- list_fmap_compose.
    apply list_elem_of_fmap. by exists e.
Qed.

Lemma download_and_the_size_cap_witness :
  ∃ rest,
    downloadMedia posix smallCache "uuid" ".jpg" (FetchBody 400000) 1000
      (Some threeFiles)
    = (Ok (Some "/tmp/cache/uuid.jpg"),
       Some (insertAt 0 (written "uuid.jpg" 400000 1000) rest))
    ∧ totalSize (info <$> insertAt 0 (written "uuid.jpg" 400000 1000) rest)
      ≤ 1 * 1024 * 1024.
Proof.
  destruct (download_and_the_size_cap posix smallCache 400000 1000 "uuid"
              ".jpg" threeFiles eq_refl threeFiles_healthy
              threeFiles_distinct)
    as (rest & Hrun & _ & Hcap & _).
  - apply (bool_decide_unpack _). by vm_compute.
  - intros e He. unfold threeFiles in He.
    repeat (apply elem_of_cons in He as [->|He]); simpl; try lia.
    by apply not_elem_of_nil in He.
  - exists rest. split; [exact Hrun|]. apply Hcap. simpl. lia.
Defined.

Lemma evictOldestFiles_keeps_dir cfg needBytes d :
  ∃ d', evictOldestFiles cfg needBytes (Some d) = (Ok (), Some d').
Proof.
  unfold evictOldestFiles. fs_unfold. cbn [existsSync negb].
  destruct (getCacheDirSize_safe (Some d)) as [z ->].
  destruct (z + needBytes <=? maxBytesOf cfg); [by eexists|].
  cbn [readdirSync].
  destruct (statAll_safe ((name ∘ info) <$> d) (Some d)) as [rs ->].
  apply evictLoop_safe.
Qed.

(** X7.  What a download comes to, on a cache path that is missing or is
    a directory that can be listed, whatever fails in it.  The call never
    throws.  When the directory is missing and cannot be created, the
    result is [null] and nothing else happens.  Otherwise the directory
    exists afterwards.  When the fetch fails or answers with an error
    status, the result is [null] and nothing is evicted or written.  When
    a body was fetched, the eviction is done first; then, if the write is
    refused, the result is [null] and the evicted entries are gone with no
    file written; if not, the file is in the directory, where the host
    enumerates it, and its path is the result. *)
Theorem download_outcomes :
  ∀ (host : Host) (cfg : PluginConfig) (uuid ext : string) (fetched : Fetched)
    (now : Z) (fs : Fs),
    let run := downloadMedia host cfg uuid ext fetched now fs in
    let d := default [] fs in
    (∃ r fs', run = (Ok r, fs'))
    ∧ (∀ e, fs = None → mkdirThrows host = Some e → run = (Ok None, None))
    ∧ (fs ≠ None ∨ mkdirThrows host = None →
       match fetched with
       | FetchBody len =>
           ∃ rest,
             evictOldestFiles cfg len (Some d) = (Ok (), Some rest)
             ∧ (∀ e, writeThrows host = Some e → run = (Ok None, Some rest))
             ∧ (writeThrows host = None →
                run = (Ok (Some (pathJoin host (cachePath (media cfg))
                                   (uuid +:+ ext))),
                       Some (insertAt (slot host)
                               (written (uuid +:+ ext) len now)
                               (filter (λ e, name (info e) ≠ uuid +:+ ext)
                                  rest))))
       | _ => run = (Ok None, Some d)
       end).
Proof.
  intros host cfg uuid ext fetched now fs run d.
  split; [|split].
  - subst run. unfold downloadMedia, tryCatch.
    match goal with
    | |- context [match ?m fs with _ => _ end] =>
        destruct (m fs) as [[r|e] fs']
    end; by eexists _, _.
  - intros e -> Hmk. subst run.
    unfold downloadMedia, ensureCacheDir, mkdirSync. fs_unfold.
    cbn [existsSync negb]. by rewrite Hmk.
  - intros Hdir.
    assert (ensureCacheDir host fs = (Ok (), Some d)) as Hens.
    { unfold ensureCacheDir, mkdirSync. fs_unfold. subst d.
      destruct fs as [d0|]; cbn [existsSync negb default]; [done|].
      destruct Hdir as [Hdir| ->]; done. }
    subst run. unfold downloadMedia. fs_unfold. rewrite Hens.
    destruct fetched as [e| |len]; [done|done|].
    destruct (evictOldestFiles_keeps_dir cfg len d) as [rest Hev].
    exists rest. rewrite Hev. split; [done|]. unfold writeFileSync.
    split.
    + intros e Hw. by rewrite Hw.
    + intros Hw. by rewrite Hw.
Qed.

Example download_examples :
  let refusing := {| mkdirThrows := Some "EACCES"; writeThrows := Some "ENOSPC";
                     slot := 0; pathJoin := pathJoin posix |} in
  downloadMedia refusing smallCache "uuid" ".jpg" (FetchBody 400000) 1000 None
  = (Ok None, None)
  ∧ downloadMedia refusing smallCache "uuid" ".jpg" (FetchBody 400000) 1000
      (Some threeFiles)
    = (Ok None, Some [cached "c.jpg" 200 300000]).
Proof. vm_compute. split; reflexivity. Qed.

Lemma cleanExpiredCache_result cfg now (d : list FileEntry) :
  NoDup ((name ∘ info) <$> d) →
  cleanExpiredCache cfg now (Some d)
  = (Ok (), Some (filter (λ e, swept (ttlMsOf cfg) now e = false) d)).
Proof.
  intros Hnd. unfold cleanExpiredCache. fs_unfold.
  cbn [existsSync negb readdirSync].
  rewrite sweepLoop_spec by done. f_equal. f_equal.
  apply filter_ext_elem. intros e He. split.
  - intros Hnot. destruct (swept (ttlMsOf cfg) now e) eqn:Hs; [|done].
    exfalso. apply Hnot. split; [|done]. apply list_elem_of_fmap. by exists e.
  - intros Hs [_ Hs']. congruence.
Qed.

(** X8.  The expiry sweep on a directory with distinct names: what is left
    is a sublist of the directory in its order; an entry that is not older
    than the TTL is never deleted, whatever fails; when nothing fails, no
    entry older than the TTL is left; and a second sweep at the same time
    deletes nothing more. *)
Theorem sweep_leaves_the_fresh_entries :
  ∀ (cfg : PluginConfig) (now : Z) (d : list FileEntry),
    NoDup ((name ∘ info) <$> d) →
    ∃ d',
      cleanExpiredCache cfg now (Some d) = (Ok (), Some d')
      ∧ d' `sublist_of` d
      ∧ (∀ e, e ∈ d → now - mtimeMs (info e) ≤ ttlMsOf cfg → e ∈ d')
      ∧ (healthy d → ∀ e, e ∈ d' → now - mtimeMs (info e) ≤ ttlMsOf cfg)
      ∧ cleanExpiredCache cfg now (Some d') = (Ok (), Some d').
Proof.
  intros cfg now d Hnd.
  exists (filter (λ e, swept (ttlMsOf cfg) now e = false) d).
  split; [by apply cleanExpiredCache_result|].
  split; [apply sublist_filter|].
  split; [|split].
  - intros e He Hfresh. apply list_elem_of_filter. split; [|done].
    unfold swept.
    assert ((now - mtimeMs (info e) >? ttlMsOf cfg) = false) as ->.
    { rewrite Z.gtb_ltb. apply Z.ltb_ge. lia. }
    by rewrite andb_false_r.
  - intros Hh e [Hs He]%list_elem_of_filter.
    destruct (Hh e He) as [Hst Hun]. unfold swept in Hs.
    rewrite Hst, Hun in Hs. simpl in Hs. rewrite andb_true_r in Hs.
    rewrite Z.gtb_ltb in Hs. apply Z.ltb_ge in Hs. lia.
  - rewrite cleanExpiredCache_result by (by apply NoDup_names_filter).
    do 2 f_equal. apply filter_all.
    intros e [Hs _]%list_elem_of_filter. done.
Qed.

Lemma sweep_leaves_the_fresh_entries_witness :
  ∃ d',
    cleanExpiredCache smallCache (150 + 3600000) (Some threeFiles)
    = (Ok (), Some d')
    ∧ cached "b.jpg" 200 600000 ∈ d'.
Proof.
  destruct (sweep_leaves_the_fresh_entries smallCache (150 + 3600000)
              threeFiles threeFiles_distinct)
    as (d' & Hrun & _ & Hfresh & _).
  exists d'. split; [exact Hrun|]. apply Hfresh.
  - left.
  - vm_compute. discriminate.
Defined.

End CacheMore.

(** *** Correlation of events, and session identities *)

Module CorrelationMore.
Import Gateway GatewayFacts.

Lemma substring_skip (pre suf : string) :
  substring (String.length pre) (String.length suf) (pre +:+ suf) = suf.
Proof.
  induction pre as [|c pre IH]; simpl.
  - by apply ReplyFacts.substring_whole.
  - exact IH.
Qed.

Lemma endsWith_spec (s suf : string) :
  endsWith s suf = true ↔ ∃ pre, s = pre +:+ suf.
Proof.
  unfold endsWith. rewrite andb_true_iff, Nat.leb_le, bool_decide_eq_true.
  split.
  - intros [Hle Hsub].
    exists (substring 0 (String.length s - String.length suf) s).
    pose proof (ReplyFacts.substring_app_next s 0
                  (String.length s - String.length suf)
                  (String.length suf)) as Hcat.
    simpl in Hcat. rewrite Hsub in Hcat. rewrite Hcat.
    symmetry. apply ReplyFacts.substring_whole. lia.
  - intros [pre ->]. rewrite OnmessageFacts.append_length. split; [lia|].
    replace (String.length pre + String.length suf - String.length suf)%nat
      with (String.length pre) by lia.
    apply substring_skip.
Qed.

(** X9.  Which events a waiter takes.  An event correlates with a session
    key exactly when it carries a session key that is this key or ends with
    a colon followed by this key.  The handler changes something only for
    a payload that is present, correlates and carries a terminal state;
    every other delivery leaves promise, timer and slot as they were. *)
Theorem handler_takes_only_its_own_events :
  ∀ (w : nat) (key : string) (payload : option ChatEventPayload)
    (st : GwState),
    (∀ p, correlates p key = true
          ↔ ∃ k, sessionKey p = Some k
                 ∧ (k = key ∨ ∃ pre, k = pre +:+ ":" +:+ key))
    ∧ (chatHandler w key payload st ≠ st →
       ∃ p, payload = Some p ∧ correlates p key = true
            ∧ terminal (state p) = true).
Proof.
  intros w key payload st. split.
  - intros p. unfold correlates. destruct (sessionKey p) as [k|].
    + rewrite orb_true_iff, bool_decide_eq_true, endsWith_spec. split.
      * intros H. exists k. split; [done|]. exact H.
      * intros (k' & [= <-] & H). exact H.
    + split; [done|]. by intros (k & ? & _).
  - intros Hchanged.
    destruct (chatHandler_effect w key payload st)
      as [Hsame|(p & v & -> & Hc & Ht & _)]; [done|].
    by exists p.
Qed.

End CorrelationMore.

Module SessionMore.
Import Session.

Lemma allDigits_app (s t : string) :
  allDigits (s +:+ t) = allDigits s && allDigits t.
Proof.
  induction s as [|c s IH]; [done|].
  change (isDigit c && allDigits (s +:+ t)
          = isDigit c && allDigits s && allDigits t).
  rewrite IH. by rewrite andb_assoc.
Qed.

Lemma pretty_N_char_digit (x : N) : isDigit (pretty_N_char x) = true.
Proof. unfold pretty_N_char. by repeat case_match. Qed.

Lemma pretty_N_go_digits (x : N) :
  ∀ s, ∃ d, pretty_N_go x s = d +:+ s ∧ allDigits d = true
            ∧ ((0 < x)%N → d ≠ "").
Proof.
  induction (N.lt_wf_0 x) as [x _ IH]. intros s.
  destruct (decide (0 < x)%N) as [Hpos|Hzero].
  - rewrite pretty_N_go_step by done.
    destruct (IH (x `div` 10)%N) with (s := String (pretty_N_char (x `mod` 10)) s)
      as (d & Hd & Hdig & _).
    { apply N.div_lt; lia. }
    exists (d +:+ String (pretty_N_char (x `mod` 10)) "").
    rewrite Hd. split; [by rewrite OnmessageFacts.append_assoc|].
    split.
    + rewrite allDigits_app, Hdig. simpl.
      by rewrite pretty_N_char_digit.
    + intros _. by destruct d.
  - assert (x = 0%N) as -> by lia. exists "".
    rewrite pretty_N_go_0. split; [done|]. split; [done|]. lia.
Qed.

Lemma pretty_nonneg_digits (z : Z) :
  0 ≤ z → allDigits (pretty z) = true ∧ pretty z ≠ "".
Proof.
  intros Hz. destruct z as [|p|p]; [done| |lia].
  change (pretty (Z.pos p)) with (pretty_N_go (N.pos p) "").
  destruct (pretty_N_go_digits (N.pos p) "") as (d & -> & Hd & Hne).
  assert (d +:+ "" = d) as ->.
  { clear. induction d as [|c d IH]; [done|].
    change (String c (d +:+ "") = String c d). by rewrite IH. }
  split; [done|]. apply Hne. lia.
Qed.

Lemma digits_dash_split (a : string) :
  ∀ a' b b', allDigits a = true → allDigits a' = true →
    a +:+ "-" +:+ b = a' +:+ "-" +:+ b' → a = a' ∧ b = b'.
Proof.
  induction a as [|c a IH]; intros [|c' a'] b b' Ha Ha' Heq;
    cbn [append] in Heq.
  - injection Heq as Heq. by subst.
  - exfalso. injection Heq as Hc _. subst c'. simpl in Ha'. discriminate.
  - exfalso. injection Heq as Hc _. subst c. simpl in Ha. discriminate.
  - injection Heq as Hc Heq. subst c'. simpl in Ha, Ha'.
    apply andb_true_iff in Ha as [_ Ha], Ha' as [_ Ha'].
    destruct (IH a' b b' Ha Ha' Heq) as [-> ->]. done.
Qed.

Lemma pretty_Z_eq (x y : Z) : pretty x = pretty y → x = y.
Proof. apply pretty_Z_inj. Qed.

(** X10.  Session bases do not collide.  For private and group messages
    with numeric identifiers that are not negative, two messages get the
    same session base only if they have the same scope and, in a private
    chat, the same user; in a group, the same group and, under the
    per-user policy, the same user as well. *)
Theorem session_bases_do_not_collide :
  ∀ (cfg : PluginConfig) (mt1 mt2 : string) (u1 g1 u2 g2 : Z),
    mt1 = "private" ∨ mt1 = "group" →
    mt2 = "private" ∨ mt2 = "group" →
    0 ≤ u1 → 0 ≤ g1 → 0 ≤ u2 → 0 ≤ g2 →
    getSessionBase cfg mt1 (IdNum u1) (Some (IdNum g1))
    = getSessionBase cfg mt2 (IdNum u2) (Some (IdNum g2)) →
    mt1 = mt2
    ∧ (mt1 = "private" → u1 = u2)
    ∧ (mt1 = "group" →
       g1 = g2 ∧ (groupSessionMode (behavior cfg) = user → u1 = u2)).
Proof.
  intros cfg mt1 mt2 u1 g1 u2 g2 H1 H2 Hu1 Hg1 Hu2 Hg2.
  destruct (pretty_nonneg_digits u1 Hu1) as [Du1 Nu1].
  destruct (pretty_nonneg_digits u2 Hu2) as [Du2 Nu2].
  destruct (pretty_nonneg_digits g1 Hg1) as [Dg1 Ng1].
  destruct (pretty_nonneg_digits g2 Hg2) as [Dg2 Ng2].
  unfold getSessionBase.
  destruct H1 as [-> | ->], H2 as [-> | ->];
    repeat (rewrite decide_True by done);
    repeat (rewrite decide_False by done);
    destruct (groupSessionMode (behavior cfg));
    cbn [idToString optIdToString append]; intros Heq;
    injection Heq as Heq.
  - (* private, private *)
    apply pretty_Z_eq in Heq. split; [done|]. split; [done|]. done.
  - apply pretty_Z_eq in Heq. split; [done|]. split; [done|]. done.
  - (* private, group *)
    exfalso. destruct (pretty u1) as [|c r]; [done|].
    injection Heq as Hc _. subst c. simpl in Du1. discriminate.
  - exfalso. destruct (pretty u1) as [|c r]; [done|].
    injection Heq as Hc _. subst c. simpl in Du1. discriminate.
  - (* group, private *)
    exfalso. destruct (pretty u2) as [|c r]; [done|].
    injection Heq as Hc _. subst c. simpl in Du2. discriminate.
  - exfalso. destruct (pretty u2) as [|c r]; [done|].
    injection Heq as Hc _. subst c. simpl in Du2. discriminate.
  - (* group, group, per user *)
    destruct (digits_dash_split _ _ _ _ Dg1 Dg2 Heq) as [Hg Hu].
    apply pretty_Z_eq in Hg, Hu. subst.
    split; [done|]. split; [done|]. done.
  - (* group, group, shared *)
    apply pretty_Z_eq in Heq.
    split; [done|]. split; [done|]. intros _. split; [done|]. done.
Qed.

Lemma session_bases_do_not_collide_witness :
  getSessionBase DEFAULT_CONFIG "group" (IdNum 12) (Some (IdNum 3))
  = getSessionBase DEFAULT_CONFIG "group" (IdNum 12) (Some (IdNum 3))
  ∧ "group" = "group"
  ∧ ("group" = "private" → 12 = 12)
  ∧ ("group" = "group" →
     3 = 3 ∧ (groupSessionMode (behavior DEFAULT_CONFIG) = user → 12 = 12)).
Proof.
  split; [reflexivity|].
  apply (session_bases_do_not_collide DEFAULT_CONFIG "group" "group"
           12 3 12 3); (by right) || lia || reflexivity.
Defined.

End SessionMore.

(** *** The entry point: what reaches the gateway, the CLI and the chat *)

Module OnmessageMore.
Import Session Reply Onmessage.

Lemma chunkLoop_toChat ctx action idKey idVal prefixSegs cleanText total fuel :
  ∀ i, Forall (λ e, toChat e = true)
         (chunkLoop fuel ctx action idKey idVal prefixSegs cleanText total i).1.
Proof.
  induction fuel as [|fuel IH]; intros i; [constructor|].
  cbn [chunkLoop]. destruct (i <? _)%nat; [|constructor].
  specialize (IH (i + maxLen)%nat).
  unfold mbind, Act_bind, call, sleep, mret, Act_ret.
  destruct (chunkLoop fuel ctx action idKey idVal prefixSegs cleanText total
              (i + maxLen)) as [tr r].
  destruct (callThrows ctx _); destruct (_ <? _)%nat; cbn [fst app];
    repeat (constructor; [done|]); try constructor; exact IH.
Qed.

Lemma sendReply_toChat ctx cfg messageType groupId userId text eventMessageId :
  Forall (λ e, toChat e = true)
    (sendReply ctx cfg messageType groupId userId text eventMessageId).1.
Proof.
  unfold sendReply.
  pose proof (ReplyMore.sendMediaFiles_spec ctx messageType
                (actionOf messageType) (idKeyOf messageType)
                (idValOf messageType groupId userId) (mediaFilesOf text))
    as (_ & _ & Hmedia).
  assert (Forall (λ e, toChat e = true)
            (sendTextPart ctx (actionOf messageType) (idKeyOf messageType)
               (idValOf messageType groupId userId)
               (prefixSegsOf cfg messageType userId eventMessageId)
               (cleanTextOf cfg messageType userId eventMessageId text)).1)
    as Htext.
  { unfold sendTextPart. case_bool_decide; [constructor|].
    destruct (_ <=? _)%nat; [|apply chunkLoop_toChat].
    unfold call. destruct (callThrows ctx _); by repeat constructor. }
  unfold mbind, Act_bind.
  destruct (sendTextPart _ _ _ _ _ _) as [tr1 [[]|e]]; [|exact Htext].
  destruct (sendMediaFiles _ _ _ _ _ _) as [tr2 r2].
  cbn [fst] in *. apply Forall_app. split; [done|].
  eapply Forall_impl; [exact Hmedia|]. by intros e [? _].
Qed.

Lemma requestsOf_app (tr1 tr2 : list Effect) :
  requestsOf (tr1 ++ tr2) = requestsOf tr1 ++ requestsOf tr2.
Proof. apply omap_app. Qed.

Lemma requestsOf_toChat (tr : list Effect) :
  Forall (λ e, toChat e = true) tr → requestsOf tr = [].
Proof.
  induction 1 as [|e tr He _ IH]; [done|].
  destruct e; try discriminate; exact IH.
Qed.

Lemma requestsOf_sendReply ctx cfg messageType groupId userId text mid :
  requestsOf (sendReply ctx cfg messageType groupId userId text mid).1 = [].
Proof. apply requestsOf_toChat, sendReply_toChat. Qed.

Lemma requestsOf_catch_quiet {A} (m : Act A) (h : string → Act A) :
  (∀ e, requestsOf (h e).1 = []) →
  requestsOf (actCatch m h).1 = requestsOf m.1.
Proof.
  intros Hh. destruct m as [tr [a|e]]; [done|]. unfold actCatch.
  specialize (Hh e). destruct (h e) as [tr' r]. cbn [fst] in *.
  by rewrite requestsOf_app, Hh, app_nil_r.
Qed.

Lemma requestsOf_bind_quiet {A B} (m : Act A) (f : A → Act B) :
  (∀ a, requestsOf (f a).1 = []) →
  requestsOf (m ≫= f).1 = requestsOf m.1.
Proof.
  intros Hf. destruct m as [tr [a|e]]; [|done]. unfold mbind, Act_bind.
  specialize (Hf a). destruct (f a) as [tr' r]. cbn [fst] in *.
  by rewrite requestsOf_app, Hf, app_nil_r.
Qed.

Lemma requestsOf_emit {A} (e : Effect) (m : Act A) :
  requestsOf (emit e ≫= λ _, m).1 = requestsOf [e] ++ requestsOf m.1.
Proof.
  unfold mbind, Act_bind, emit. destruct m as [tr r]. cbn [fst].
  by rewrite requestsOf_app.
Qed.

(** The requests of one round trip: none when the connection fails, one
    otherwise; the fallback never calls the gateway. *)
Lemma roundTrip_requests env cfg messageType groupId userId mid key msg :
  requestsOf
    (roundTrip env cfg messageType groupId userId mid key msg).1
  = match gateway env with
    | ConnectFails _ => []
    | _ => [(key, msg)]
    end.
Proof.
  unfold roundTrip. rewrite requestsOf_catch_quiet.
  - destruct (gateway env) as [e|e|r]; [done|done|].
    destruct (truthyStr r) as [text|]; [|done].
    pose proof (requestsOf_sendReply (ctx env) cfg messageType groupId userId
                  text mid) as Hq.
    unfold mbind, Act_bind, emit.
    destruct (sendReply _ _ _ _ _ _ _) as [tr res]. cbn [fst app] in *.
    change (requestsOf (RegisterWaiter key
                        :: GatewayRequest "chat.send" key msg (uuid env) :: tr))
      with ((key, msg) :: requestsOf tr).
    by rewrite Hq.
  - intros e. rewrite requestsOf_emit.
    change (requestsOf [GatewayDisconnect]) with (@nil (string * string)).
    rewrite app_nil_l.
    rewrite requestsOf_catch_quiet
      by (intros; apply requestsOf_sendReply).
    rewrite requestsOf_bind_quiet; [done|].
    intros out. case_bool_decide; [done|]. apply requestsOf_sendReply.
Qed.

Lemma requestsOf_fetches (tr : list Effect) :
  Forall (λ e, fetches e = true) tr → requestsOf tr = [].
Proof.
  induction 1 as [|e tr He _ IH]; [done|].
  destruct e; try discriminate; exact IH.
Qed.

Lemma requestsOf_bind_ok {A B} (m : Act A) (f : A → Act B) tr a :
  m = (tr, Ok a) →
  requestsOf (m ≫= f).1 = requestsOf tr ++ requestsOf (f a).1.
Proof.
  intros ->. unfold mbind, Act_bind. destruct (f a) as [tr' r]. cbn [fst].
  apply requestsOf_app.
Qed.

Lemma downloadsOf_fetches cfg items :
  Forall (λ e, fetches e = true) (downloadsOf cfg items).
Proof.
  unfold downloadsOf. induction items as [|m items IH]; [constructor|].
  cbn [omap list_omap]. destruct (_ && _); [by constructor|exact IH].
Qed.

(** [resolveReply] never throws, and all it does is fetch. *)
Lemma resolveReply_spec env cfg messageId :
  ∃ tr r, resolveReply env cfg messageId = (tr, Ok r)
          ∧ Forall (λ e, fetches e = true) tr.
Proof.
  unfold resolveReply, call.
  destruct (callThrows (ctx env) (GetMsg messageId)).
  { eexists _, _. split; [reflexivity|]. by repeat constructor. }
  destruct (getMsgResult env) as [msg|].
  2: { eexists _, _. split; [reflexivity|]. by repeat constructor. }
  destruct (quotedParts msg) as [textParts mediaItems].
  pose proof (downloadsOf_fetches cfg mediaItems) as Hd.
  unfold emitAll, mbind, Act_bind, actCatch, mret, Act_ret.
  case_bool_decide; eexists _, _; (split; [reflexivity|]);
    cbn [app]; (constructor; [done|]); by rewrite app_nil_r.
Qed.

Lemma quoteOf_spec env cfg rid :
  ∃ tr r, quoteOf env cfg rid = (tr, Ok r)
          ∧ Forall (λ e, fetches e = true) tr.
Proof.
  unfold quoteOf. destruct (truthyStr rid) as [messageId|].
  - destruct (resolveReplyFlag (behavior cfg)); [apply resolveReply_spec|].
    by eexists _, _.
  - by eexists _, _.
Qed.

Lemma groupNameOf_spec env messageType gid :
  ∃ tr r, groupNameOf env messageType gid = (tr, Ok r)
          ∧ Forall (λ e, fetches e = true) tr.
Proof.
  unfold groupNameOf, call. destruct (_ && _); [|by eexists _, _].
  destruct (callThrows _ _); eexists _, _;
    (split; [reflexivity|]); by repeat constructor.
Qed.

Lemma typingOf_spec env messageType uid :
  ∃ tr, typingOf env messageType uid = (tr, Ok ())
        ∧ (tr = [] ∨ tr = [SetInputStatus (idToString uid) 1]).
Proof.
  unfold typingOf, call. case_bool_decide; [|by eexists; split; [|left]].
  destruct (callThrows _ _); eexists; (split; [reflexivity|]); by right.
Qed.

Lemma handle_requests env st event :
  requestsOf (handle env st event).1 = []
  ∨ ∃ msg, requestsOf (handle env st event).1 = [(keyOf st event, msg)].
Proof.
  unfold handle. cbv zeta.
  destruct (negb (bool_decide (userBlacklist _ = [])) && _); [by left|].
  destruct (negb (bool_decide (userWhitelist _ = [])) && _ && _); [by left|].
  match goal with
  | |- context [if negb ?c then _ else _] => destruct c
  end; cbn [negb]; [|by left].
  destruct (extractMessage _ _) as [[text media] rid].
  destruct (bool_decide (text = "") && _ && _); [by left|].
  destruct (quoteOf_spec env (currentConfig st) rid) as (qtr & res & Hq & Hqf).
  rewrite (requestsOf_bind_ok _ _ _ _ Hq), (requestsOf_fetches _ Hqf),
    app_nil_l.
  destruct (String.prefix "/" text && _ && _ && _); [by left|].
  match goal with
  | |- context [match ?o with Some _ => _ | None => _ end] => destruct o
  end.
  - left. apply requestsOf_sendReply.
  - destruct (groupNameOf_spec env (message_type event)
                (IdNum <$> group_id event)) as (gtr & gname & Hg & Hgf).
    rewrite (requestsOf_bind_ok _ _ _ _ Hg), (requestsOf_fetches _ Hgf),
      app_nil_l.
    rewrite (requestsOf_bind_ok (emitAll _) _ (downloadsOf _ _) () eq_refl),
      (requestsOf_fetches _ (downloadsOf_fetches _ _)), app_nil_l.
    destruct (typingOf_spec env (message_type event)
                (IdNum (user_id event))) as (ttr & Ht & Httr).
    rewrite (requestsOf_bind_ok _ _ _ _ Ht).
    assert (requestsOf ttr = []) as -> by (by destruct Httr as [-> | ->]).
    rewrite app_nil_l, roundTrip_requests.
    destruct (gateway env); [by left|right; by eexists..].
Qed.

Lemma plugin_onmessage_state env st event :
  currentConfig (plugin_onmessage env st event).2 = currentConfig st
  ∧ sessionEpochs (plugin_onmessage env st event).2 = sessionEpochs st
  ∧ loggerSet (plugin_onmessage env st event).2 = loggerSet st.
Proof.
  unfold plugin_onmessage.
  destruct (negb (loggerSet st)); [done|].
  destruct (negb (bool_decide (post_type event = "message"))); [done|].
  cbn [snd]. by destruct (truthyId (botUserId st)), (truthyNum (self_id event)).
Qed.

Lemma plugin_onmessage_requests env st event :
  requestsOf (plugin_onmessage env st event).1.1 = []
  ∨ ∃ msg, requestsOf (plugin_onmessage env st event).1.1
           = [(keyOf st event, msg)].
Proof.
  unfold plugin_onmessage.
  destruct (negb (loggerSet st)); [by left|].
  destruct (negb (bool_decide (post_type event = "message"))); [by left|].
  cbn [fst]. rewrite requestsOf_catch_quiet by done.
  match goal with
  | |- context [handle env ?st' event] =>
      assert (keyOf st' event = keyOf st event) as <-;
        [|apply handle_requests]
  end.
  by destruct (truthyId (botUserId st)), (truthyNum (self_id event)).
Qed.

(** X11.  One message, at most one request.  The entry point never throws,
    whatever the adapter, the gateway and the CLI do; it sends the gateway
    at most one request for a message, and that request carries the session
    key of the sender's conversation. *)
Theorem one_request_per_message :
  ∀ (env : Env) (st : Plugin) (event : Event),
    let out := (plugin_onmessage env st event).1 in
    out.2 = Ok ()
    ∧ (requestsOf out.1 = []
       ∨ ∃ msg, requestsOf out.1 = [(keyOf st event, msg)]).
Proof.
  intros env st event out. split; [|apply plugin_onmessage_requests].
  subst out. unfold plugin_onmessage.
  destruct (negb (loggerSet st)); [done|].
  destruct (negb (bool_decide (post_type event = "message"))); [done|].
  cbn [fst]. unfold actCatch.
  by destruct (handle env _ event) as [tr [[]|e]].
Qed.

Lemma onmessages_state (events : list (Env * Event)) :
  ∀ st, currentConfig (onmessages st events).2 = currentConfig st
        ∧ sessionEpochs (onmessages st events).2 = sessionEpochs st.
Proof.
  induction events as [|[env event] events IH]; intros st; [done|].
  cbn [onmessages].
  pose proof (plugin_onmessage_state env st event) as (Hc & He & _).
  destruct (plugin_onmessage env st event) as [act st'].
  specialize (IH st'). destruct (onmessages st' events) as [tr st''].
  cbn [snd] in *. destruct IH as [-> ->]. done.
Qed.

(** X12.  The requests of a whole run.  Handling any sequence of messages
    changes neither the configuration nor the epochs of the sessions; the
    gateway gets at most one request per message, each with the session key
    of one of the messages; and as long as no epoch is recorded, which no
    message changes, that key is the session base itself. *)
Theorem requests_over_a_run :
  ∀ (st : Plugin) (events : list (Env * Event)),
    let out := onmessages st events in
    currentConfig out.2 = currentConfig st
    ∧ sessionEpochs out.2 = sessionEpochs st
    ∧ (length (requestsOf out.1) ≤ length events)%nat
    ∧ (∀ key msg, (key, msg) ∈ requestsOf out.1 →
         ∃ env event, (env, event) ∈ events ∧ key = keyOf st event)
    ∧ (sessionEpochs st = ∅ →
       ∀ event, keyOf out.2 event
                = getSessionBase (currentConfig st) (message_type event)
                    (IdNum (user_id event)) (IdNum <$> group_id event)).
Proof.
  intros st events out. subst out.
  destruct (onmessages_state events st) as [Hc He].
  split; [done|]. split; [done|].
  assert (∀ st, (length (requestsOf (onmessages st events).1)
                 ≤ length events)%nat
            ∧ ∀ key msg, (key, msg) ∈ requestsOf (onmessages st events).1 →
                ∃ env event, (env, event) ∈ events ∧ key = keyOf st event)
    as Hrun.
  { clear. induction events as [|[env event] events IH]; intros st.
    - split; [done|]. intros key msg Hin. by apply elem_of_nil in Hin.
    - cbn [onmessages].
      pose proof (plugin_onmessage_requests env st event) as Hone.
      pose proof (plugin_onmessage_state env st event) as (Hc & He & _).
      destruct (plugin_onmessage env st event) as [act st'].
      destruct (IH st') as [Hlen Hkeys].
      destruct (onmessages st' events) as [tr st''].
      cbn [fst snd] in *. rewrite requestsOf_app, length_app.
      assert (∀ ev, keyOf st' ev = keyOf st ev) as Hkey.
      { intros ev. unfold keyOf. by rewrite Hc, He. }
      split.
      + destruct Hone as [-> | [m ->]]; cbn [length]; lia.
      + intros key msg [Hin|Hin]%elem_of_app.
        * destruct Hone as [Hn | [m Hn]]; rewrite Hn in Hin.
          { by apply elem_of_nil in Hin. }
          apply list_elem_of_singleton in Hin as [= -> _].
          exists env, event. split; [left|done].
        * destruct (Hkeys key msg Hin) as (env' & ev & Hev & ->).
          exists env', ev. split; [by right|apply Hkey]. }
  destruct (Hrun st) as [Hlen Hkeys].
  split; [done|]. split; [done|].
  intros Hempty event. unfold keyOf, getSessionKey, epochOf.
  rewrite He, Hc, Hempty, lookup_empty. done.
Qed.



(** X14.  A reply that cannot be delivered sends the message through the
    CLI as well.  When the gateway answered with a text and sending that
    text to the chat throws, the failure is taken for a failure of the
    gateway: the connection is dropped and the same message is handed to
    the CLI under the same session key, after the request the gateway had
    already accepted. *)
Theorem undelivered_reply_reruns_through_cli :
  ∀ (env : Env) (cfg : PluginConfig) (messageType : string)
    (groupId : option jsid) (userId : jsid) (mid : option jsid)
    (key msg text e : string) (tr : list Effect),
    gateway env = Replied (Some text) → text ≠ "" →
    sendReply (ctx env) cfg messageType groupId userId text mid
    = (tr, Thrown e) →
    ∃ rest,
      (roundTrip env cfg messageType groupId userId mid key msg).1
      = [RegisterWaiter key; GatewayRequest "chat.send" key msg (uuid env)]
        ++ tr
        ++ [GatewayDisconnect;
            Exec (cliCommand cfg key msg) CLI_TIMEOUT_MS CLI_MAX_BUFFER]
        ++ rest.
Proof.
  intros env cfg messageType groupId userId mid key msg text e tr
    Hgw Hne Hsend.
  unfold roundTrip. rewrite Hgw.
  assert (truthyStr (Some text) = Some text) as -> by by destruct text.
  unfold mbind, Act_bind, emit, actCatch, execAsync. rewrite Hsend.
  destruct (cli env) as [stdout|e2].
  - case_bool_decide.
    + exists []. done.
    + destruct (sendReply _ _ _ _ _ (trim stdout) _) as [tr2 [[]|e3]].
      * exists tr2. done.
      * destruct (sendReply _ _ _ _ _ (FAILURE_PREFIX +:+ _) _) as [tr3 r3].
        exists (tr2 ++ tr3). done.
  - destruct (sendReply _ _ _ _ _ (FAILURE_PREFIX +:+ _) _) as [tr2 r2].
    exists tr2. done.
Qed.

Lemma undelivered_reply_reruns_through_cli_witness :
  ∃ rest,
    (roundTrip (refusing (Some "hi")) DEFAULT_CONFIG "private" None
       (IdNum 1) None "qq-1" "m").1
    = [RegisterWaiter "qq-1"; GatewayRequest "chat.send" "qq-1" "m" "run"]
      ++ [SendMsg "send_private_msg" "user_id" "1" [SegText "hi"]]
      ++ [GatewayDisconnect;
          Exec (cliCommand DEFAULT_CONFIG "qq-1" "m")
            CLI_TIMEOUT_MS CLI_MAX_BUFFER]
      ++ rest.
Proof.
  apply (undelivered_reply_reruns_through_cli (refusing (Some "hi"))
           DEFAULT_CONFIG "private" None (IdNum 1) None "qq-1" "m" "hi"
           "rejected");
    [reflexivity | discriminate | reflexivity].
Defined.

(** The filters of [handle] that depend on the configuration and on the
    scope of the message only. *)
Lemma handle_silent env st event :
  let b := behavior (currentConfig st) in
  user_id event ∈ userBlacklist b
  ∨ (message_type event ≠ "private" ∧ message_type event ≠ "group")
  ∨ (message_type event = "private" ∧ privateChat b = false)
  ∨ (message_type event = "group"
     ∧ (group_id event = None ∨ group_id event = Some 0))
  ∨ (message_type event = "group" ∧ groupWhitelist b ≠ []
     ∧ ∀ g, group_id event = Some g → g ∉ groupWhitelist b)
  ∨ (message_type event = "group" ∧ groupAtOnly b = true
     ∧ Forall (λ seg, seg_type seg ≠ "at") (default [] (message event))) →
  handle env st event = ([], Ok ()).
Proof.
  intros b Hcase. unfold handle. cbv zeta. fold b.
  destruct Hcase as [Hblack|Hcase].
  { assert (userBlacklist b ≠ []) as Hne.
    { intros Hnil. rewrite Hnil in Hblack. by apply elem_of_nil in Hblack. }
    unfold listed at 1.
    rewrite (bool_decide_eq_false_2 _ Hne), (bool_decide_eq_true_2 _ Hblack).
    done. }
  destruct (negb (bool_decide (userBlacklist b = [])) && _); [done|].
  destruct (negb (bool_decide (userWhitelist b = [])) && _ && _); [done|].
  match goal with
  | |- context [if negb ?c then _ else _] =>
      assert (c = false) as ->; [|done]
  end.
  destruct Hcase
    as [[Hp Hg]|[[Hp Hoff]|[[Hg Hnone]|[(Hg & Hne & Hout)|(Hg & Hat & Hno)]]]].
  - by rewrite (bool_decide_eq_false_2 _ Hp), (bool_decide_eq_false_2 _ Hg).
  - by rewrite (bool_decide_eq_true_2 _ Hp).
  - rewrite Hg. cbn [bool_decide decide_rel]. 
    assert (bool_decide (is_Some (truthyNum (group_id event))) = false) as ->;
      [|done].
    apply bool_decide_eq_false_2.
    destruct Hnone as [-> | ->]; by intros [? ?].
  - rewrite Hg.
    assert (bool_decide ("group" = "private") = false) as -> by done.
    assert (bool_decide ("group" = "group") = true) as -> by done.
    rewrite (bool_decide_eq_false_2 _ Hne). cbn [orb].
    assert (match group_id event with
            | Some g => listed (groupWhitelist b) g
            | None => false
            end = false) as ->.
    { destruct (group_id event) as [g|]; [|done].
      apply bool_decide_eq_false_2, Hout. done. }
    by rewrite andb_false_r.
  - rewrite Hg, Hat.
    assert (bool_decide ("group" = "private") = false) as -> by done.
    assert (bool_decide ("group" = "group") = true) as -> by done.
    cbn [negb orb].
    destruct (message event) as [segs|]; cbv iota;
      [|by rewrite andb_false_r].
    match goal with
    | |- context [bool_decide (Exists ?P segs)] =>
        rewrite (bool_decide_eq_false_2 (Exists P segs));
          [by rewrite andb_false_r|]
    end.
    cbn [default] in Hno. intros (seg & Hin & Htype & _)%Exists_exists.
    by apply (proj1 (Forall_forall _ _) Hno seg Hin).
Qed.

(** X15.  Messages that are ignored leave no trace.  Before the plugin is
    initialised, for an event that is not a message, for a user on the
    blacklist (whatever the whitelists say), for a message that is neither
    private nor from a group, for a private message when private chat is
    off, for a group message without a group number, for a group that is
    not on a whitelist in use, and for a group message without any mention
    when only mentions of the bot are answered, the entry point does
    nothing at all: no message, no typing status, no request, no command. *)
Theorem ignored_messages_are_silent :
  ∀ (env : Env) (st : Plugin) (event : Event),
    let b := behavior (currentConfig st) in
    loggerSet st = false
    ∨ post_type event ≠ "message"
    ∨ user_id event ∈ userBlacklist b
    ∨ (message_type event ≠ "private" ∧ message_type event ≠ "group")
    ∨ (message_type event = "private" ∧ privateChat b = false)
    ∨ (message_type event = "group"
       ∧ (group_id event = None ∨ group_id event = Some 0))
    ∨ (message_type event = "group" ∧ groupWhitelist b ≠ []
       ∧ ∀ g, group_id event = Some g → g ∉ groupWhitelist b)
    ∨ (message_type event = "group" ∧ groupAtOnly b = true
       ∧ Forall (λ seg, seg_type seg ≠ "at") (default [] (message event))) →
    (plugin_onmessage env st event).1 = ([], Ok ()).
Proof.
  intros env st event b Hcase. unfold plugin_onmessage.
  destruct Hcase as [-> |Hcase]; [done|].
  destruct (negb (loggerSet st)); [done|].
  destruct Hcase as [Hpost|Hcase].
  { by rewrite (bool_decide_eq_false_2 _ Hpost). }
  destruct (negb (bool_decide (post_type event = "message"))); [done|].
  cbn [fst]. rewrite handle_silent; [done|].
  by destruct (truthyId (botUserId st)), (truthyNum (self_id event)).
Qed.

Lemma ignored_messages_are_silent_witness :
  (plugin_onmessage (answering (Some "hi")) started
     {| post_type := "message"; user_id := 5; nickname := None;
        message_type := "group"; group_id := None; message_id := None;
        self_id := None; message := Some [textSegment "hello"];
        time := 0 |}).1
  = ([], Ok ()).
Proof.
  apply ignored_messages_are_silent.
  do 5 right. left. split; [reflexivity|]. left. reflexivity.
Defined.

Lemma truthyStr_Some (o : option string) (t : string) :
  truthyStr o = Some t → o = Some t ∧ t ≠ "".
Proof. destruct o as [[|c r]|]; intros [= <-]; done. Qed.

Lemma extractStep_inv bot acc seg (good : ExtractedMedia → Prop) :
  (∀ type url name,
     url ≠ "" → type ∈ ["image"; "file"; "voice"; "video"] →
     (type ≠ "file" → name = None) →
     good {| m_type := type; m_url := url; m_name := name |}) →
  Forall good acc.1.2 →
  Forall good (extractStep bot acc seg).1.2
  ∧ (length (extractStep bot acc seg).1.2 ≤ S (length acc.1.2))%nat
  ∧ ((extractStep bot acc seg).2 ≠ acc.2 → seg_type seg = "reply").
Proof.
  intros Hgood Hacc. destruct acc as [[textParts media] rid].
  cbn [fst snd] in Hacc.
  assert (∀ type name,
            type ∈ ["image"; "file"; "voice"; "video"] →
            (type ≠ "file" → name = None) →
            let acc' :=
              match truthyStr (seg_data seg ≫= d_url) with
              | Some url =>
                  (textParts,
                   media ++ [{| m_type := type; m_url := url; m_name := name |}],
                   rid)
              | None => (textParts, media, rid)
              end in
            Forall good acc'.1.2
            ∧ (length acc'.1.2 ≤ S (length media))%nat
            ∧ (acc'.2 ≠ rid → seg_type seg = "reply")) as Hpush.
  { intros type name Htype Hname.
    destruct (truthyStr (seg_data seg ≫= d_url)) as [url|] eqn:Hurl;
      cbn [fst snd].
    - apply truthyStr_Some in Hurl as [_ Hne].
      split; [|split; [rewrite length_app; cbn [length]; lia|done]].
      apply Forall_app. split; [done|]. constructor; [|constructor].
      by apply Hgood.
    - split; [done|]. split; [lia|done]. }
  pose proof (Hpush "image" None ltac:(by left) ltac:(done)) as Himage.
  pose proof (Hpush "file" (seg_data seg ≫= d_name)
                ltac:(by right; left) ltac:(by intros [])) as Hfile.
  pose proof (Hpush "voice" None
                ltac:(by right; right; left) ltac:(done)) as Hvoice.
  pose proof (Hpush "video" None
                ltac:(by right; right; right; left) ltac:(done)) as Hvideo.
  clear Hpush. unfold extractStep.
  repeat case_bool_decide;
    first [exact Himage | exact Hfile | exact Hvoice | exact Hvideo
          | clear Himage Hfile Hvoice Hvideo; repeat case_match;
            cbn [fst snd]; (split; [done|split; [lia|done]])].
Qed.

Lemma extract_fold bot (good : ExtractedMedia → Prop) (segs : list InSegment) :
  (∀ type url name,
     url ≠ "" → type ∈ ["image"; "file"; "voice"; "video"] →
     (type ≠ "file" → name = None) →
     good {| m_type := type; m_url := url; m_name := name |}) →
  ∀ acc, Forall good acc.1.2 →
    let out := fold_left (extractStep bot) segs acc in
    Forall good out.1.2
    ∧ (length out.1.2 ≤ length acc.1.2 + length segs)%nat
    ∧ (out.2 ≠ acc.2 → ∃ seg, seg ∈ segs ∧ seg_type seg = "reply").
Proof.
  intros Hgood. induction segs as [|seg segs IH]; intros acc Hacc.
  - cbn. split; [done|]. split; [lia|done].
  - cbn [fold_left].
    destruct (extractStep_inv bot acc seg good Hgood Hacc) as (H1 & H2 & H3).
    destruct (IH _ H1) as (I1 & I2 & I3).
    split; [done|]. split; [cbn [length]; lia|].
    intros Hne.
    destruct (decide ((extractStep bot acc seg).2 = acc.2)) as [Heq|Hstep].
    + rewrite <- Heq in Hne. destruct (I3 Hne) as (s' & Hin & Hty).
      exists s'. split; [by right|done].
    + exists seg. split; [left|by apply H3].
Qed.

Lemma extract_texts bot (ts : list string) :
  ∀ textParts media rid,
    fold_left (extractStep bot) (textSegment <$> ts) (textParts, media, rid)
    = (textParts ++ filter (λ t, t ≠ "") (trim <$> ts), media, rid).
Proof.
  induction ts as [|t ts IH]; intros textParts media rid.
  - by rewrite app_nil_r.
  - rewrite fmap_cons. cbn [fold_left].
    assert (extractStep bot (textParts, media, rid) (textSegment t)
            = (textParts ++ filter (λ t, t ≠ "") [trim t], media, rid)) as ->.
    { unfold extractStep, textSegment. cbn [seg_type seg_data d_text].
      rewrite bool_decide_eq_true_2 by done.
      change (Some {| d_text := Some t; d_url := None; d_qq := None;
                      d_name := None; d_id := None; d_summary := None |}
              ≫= d_text) with (Some t).
      change (trim <$> Some t) with (Some (trim t)).
      destruct (trim t) as [|c r] eqn:Htrim.
      - by rewrite app_nil_r.
      - done. }
    rewrite IH, <- app_assoc. f_equal. f_equal.
    rewrite fmap_cons. change (trim t :: (trim <$> ts))
      with ([trim t] ++ (trim <$> ts)).
    by rewrite filter_app.
Qed.

(** X16.  What [extractMessage] returns.  Every attachment it reports has
    a URL that is not empty and one of the four kinds, only a file has a
    name, and there are no more attachments than segments; it reports a
    quoted message only when the message has a reply segment; and for a
    message made of text segments the text is the trimmed texts that are not
    empty, joined by one space, with no attachment and no quoted message. *)
Theorem extracted_message_shape :
  ∀ (bot : option jsid) (segs : list InSegment),
    let out := extractMessage bot segs in
    Forall (λ m, m_url m ≠ ""
                 ∧ m_type m ∈ ["image"; "file"; "voice"; "video"]
                 ∧ (m_type m ≠ "file" → m_name m = None)) out.1.2
    ∧ (length out.1.2 ≤ length segs)%nat
    ∧ (out.2 ≠ None → ∃ seg, seg ∈ segs ∧ seg_type seg = "reply")
    ∧ (∀ ts, segs = textSegment <$> ts →
         out = (String.concat " " (filter (λ t, t ≠ "") (trim <$> ts)),
                [], None)).
Proof.
  intros bot segs out. subst out. unfold extractMessage.
  pose proof (extract_fold bot
                (λ m, m_url m ≠ ""
                      ∧ m_type m ∈ ["image"; "file"; "voice"; "video"]
                      ∧ (m_type m ≠ "file" → m_name m = None)) segs) as Hfold.
  destruct (Hfold (λ type url name Hu Ht Hn, conj Hu (conj Ht Hn))
              ([], [], None)) as (H1 & H2 & H3); [constructor|].
  pose proof (extract_texts bot) as Htexts.
  destruct (fold_left (extractStep bot) segs ([], [], None))
    as [[textParts media] rid] eqn:Hrun.
  cbn [fst snd length] in *.
  split; [done|]. split; [lia|]. split; [done|].
  intros ts ->. rewrite Htexts in Hrun. by injection Hrun as <- <- <-.
Qed.

Lemma shellRead_escaped (msg : string) :
  shellRead (escapeQuotes msg +:+ "'") true = Some msg.
Proof.
  induction msg as [|c msg IH]; [done|].
  cbn [escapeQuotes]. destruct (Ascii.eqb c "'") eqn:Hc.
  - apply Ascii.eqb_eq in Hc as ->.
    change (String "'" <$> shellRead (escapeQuotes msg +:+ "'") true
            = Some (String "'" msg)).
    by rewrite IH.
  - change (shellRead (String c (escapeQuotes msg +:+ "'")) true
            = Some (String c msg)).
    cbn [shellRead]. rewrite Hc. by rewrite IH.
Qed.

(** X17.  The message reaches the CLI unchanged.  The fallback writes the
    message between single quotes after replacing every single quote in it;
    a shell reads that word back as exactly the message, whatever
    characters it contains, so two different messages never give the same
    word. *)
Theorem quoted_message_reads_back :
  ∀ (msg : string),
    shellRead ("'" +:+ escapeQuotes msg +:+ "'") false = Some msg
    ∧ ∀ msg', escapeQuotes msg = escapeQuotes msg' → msg = msg'.
Proof.
  intros msg. split; [apply shellRead_escaped|].
  intros msg' Heq.
  pose proof (shellRead_escaped msg) as H1.
  pose proof (shellRead_escaped msg') as H2.
  rewrite Heq, H2 in H1. by injection H1.
Qed.

End OnmessageMore.

(** *** A mention the reply already carries *)

Module DedupMore.
Import Reply ReplyFacts.

Lemma trimStart_dropWhile (s : string) : trimStart s = dropWhile isWhiteSpace s.
Proof. induction s as [|c s IH]; [done|]. cbn. by rewrite IH. Qed.

Lemma trimStart_length (s : string) :
  (String.length (trimStart s) ≤ String.length s)%nat.
Proof. induction s as [|c s IH]; cbn; [lia|]. destruct (isWhiteSpace c); cbn; lia. Qed.

Lemma trimEnd_length (s : string) :
  (String.length (trimEnd s) ≤ String.length s)%nat.
Proof.
  induction s as [|c s IH]; cbn [trimEnd]; [done|].
  destruct (trimEnd s) as [|d t]; [destruct (isWhiteSpace c)|]; cbn in *; lia.
Qed.

Lemma trimmed_start (s : string) : trim s = s → trimStart s = s.
Proof.
  intros Htrim. destruct s as [|c s]; [done|]. cbn [trimStart].
  destruct (isWhiteSpace c) eqn:Hc; [|done]. exfalso.
  pose proof (trimEnd_length (trimStart (String c s))) as H1.
  fold (trim (String c s)) in H1. rewrite Htrim in H1.
  cbn [trimStart] in H1. rewrite Hc in H1.
  pose proof (trimStart_length s). cbn [String.length] in H1. lia.
Qed.

Lemma trimEnd_app (a b : string) :
  trimEnd b ≠ "" → trimEnd (a +:+ b) = a +:+ trimEnd b.
Proof.
  intros Hb. induction a as [|c a IH]; [done|].
  change (trimEnd (String c (a +:+ b)) = String c (a +:+ trimEnd b)).
  cbn [trimEnd]. rewrite IH.
  destruct (a +:+ trimEnd b) as [|d t] eqn:Hcat; [|done].
  destruct a; [|done]. by destruct (trimEnd b).
Qed.

Lemma append_cons (c : ascii) (a b : string) :
  String c a +:+ b = String c (a +:+ b).
Proof. reflexivity. Qed.

Lemma takeWhile_app (p : ascii → bool) (a : string) (c : ascii) (r : string) :
  takeWhile p a = a → p c = false → takeWhile p (a +:+ String c r) = a.
Proof.
  intros Ha Hc. induction a as [|d a IH].
  - change (takeWhile p (String c r) = ""). cbn. by rewrite Hc.
  - rewrite append_cons. cbn in *. destruct (p d); [|done].
    injection Ha as Ha. by rewrite IH.
Qed.

Lemma dropChars_app (a b : string) : dropChars (String.length a) (a +:+ b) = b.
Proof. induction a as [|c a IH]; [done|]. exact IH. Qed.

Lemma prefix_app (a b : string) : String.prefix a (a +:+ b) = true.
Proof.
  induction a as [|c a IH]; [by destruct b|].
  rewrite append_cons. cbn. by destruct (ascii_dec c c).
Qed.

Lemma stripLeadingAt_mention (idText nick body : string) :
  nick ≠ "" → takeWhile (λ c, negb (isWhiteSpace c)) nick = nick →
  trimStart body = body →
  stripLeadingAt idText
    ("@" +:+ nick +:+ " (" +:+ idText +:+ ") " +:+ body)
  = Some body.
Proof.
  intros Hnick Hns Hbody.
  change ("@" +:+ nick +:+ " (" +:+ idText +:+ ") " +:+ body)
    with (String "@" (nick +:+ String " " (String "(" (idText +:+ ") " +:+ body)))).
  cbn [stripLeadingAt]. rewrite takeWhile_app by done.
  destruct (String.length nick) as [|k] eqn:Hlen; [by destruct nick|].
  cbn [stripAtFrom]. rewrite <- Hlen, dropChars_app.
  assert (dropWhile isWhiteSpace
            (String " " (String "(" (idText +:+ ") " +:+ body)))
          = ("(" +:+ idText +:+ ")") +:+ (" " +:+ body)) as ->.
  { change (String "(" (idText +:+ ") " +:+ body)
            = String "(" ((idText +:+ ")") +:+ " " +:+ body)).
    f_equal. symmetry.
    exact (OnmessageFacts.append_assoc idText ")" (" " +:+ body)). }
  rewrite prefix_app, dropChars_app.
  change (Some (dropWhile isWhiteSpace (String " " body)) = Some body).
  cbn [dropWhile]. change (isWhiteSpace " ") with true. cbv iota.
  by rewrite <- trimStart_dropWhile, Hbody.
Qed.

(** X18.  A mention the reply already carries is not sent twice.  In a
    group, with mentions of the sender switched on, a reply that opens with
    [@name (id)] for the number [id] of the sender loses that opening: the text that is sent is
    what follows it, after the quote and mention segments, in one message
    when it is short. *)
Theorem repeated_mention_is_removed :
  ∀ (ctx : Ctx) (cfg : PluginConfig) (groupId : option jsid) (u : Z)
    (eventMessageId : option jsid) (nick body : string),
    let userId := IdNum u in
    let text :=
      "@" +:+ nick +:+ " (" +:+ idToString userId +:+ ") " +:+ body in
    (∀ e, callThrows ctx e = None) →
    replyAtSender (behavior cfg) = true →
    nick ≠ "" →
    takeWhile (λ c, negb (isWhiteSpace c)) nick = nick →
    trim body = body → body ≠ "" →
    String.prefix "[CQ:reply" body = false →
    (String.length body ≤ 3000)%nat →
    mediaLineAt text true = false →
    cleanTextOf cfg "group" userId eventMessageId text = body
    ∧ sendReply ctx cfg "group" groupId userId text eventMessageId
      = ([SendMsg "send_group_msg" "group_id" (optIdToString groupId)
            (prefixSegsOf cfg "group" userId eventMessageId
             ++ [SegText body])], Ok ()).
Proof.
  intros ctx cfg groupId u eventMessageId nick body userId text
    Hok Hat Hnick Hns Htrim Hne Hcq Hlen Hplain.
  pose proof (trimmed_start body Htrim) as Hstart.
  assert (trimEnd body = body) as Hend.
  { unfold trim in Htrim. by rewrite Hstart in Htrim. }
  assert (trim text = text) as Htext.
  { unfold trim.
    assert (trimStart text = text) as -> by done.
    subst text.
    rewrite <- !OnmessageFacts.append_assoc.
    rewrite trimEnd_app; rewrite Hend; done. }
  assert (mediaFilesOf text = []) as Hfiles.
  { unfold mediaFilesOf. by rewrite (ReplyMore.scanMedia_plain text true Hplain). }
  assert (cleanTextOf cfg "group" userId eventMessageId text = body) as Hclean.
  { unfold cleanTextOf, dedupPrefix, stripMedia.
    rewrite (ReplyMore.scanMedia_plain text true Hplain). cbn [snd].
    rewrite Htext.
    assert (prefixSegsOf cfg "group" userId eventMessageId ≠ []) as Hpre.
    { unfold prefixSegsOf. rewrite bool_decide_eq_true_2 by done.
      rewrite Hat. by destruct (_ && _). }
    rewrite bool_decide_eq_true_2 by done.
    rewrite (bool_decide_eq_false_2 _ Hpre). cbn [negb andb].
    rewrite Hat. subst text.
    rewrite (stripLeadingAt_mention (idToString userId) nick body)
      by done.
    rewrite Htrim. unfold stripLeadingCqReply. rewrite Hcq.
    by destruct (replyQuoteMessage (behavior cfg)). }
  split; [done|].
  unfold sendReply. rewrite Hfiles, Hclean.
  destruct (sendTextPart_trace ctx Hok (actionOf "group") (idKeyOf "group")
              (idValOf "group" groupId userId)
              (prefixSegsOf cfg "group" userId eventMessageId) body Hne)
    as [Hshort _].
  rewrite Hshort by exact Hlen. reflexivity.
Qed.

Lemma repeated_mention_is_removed_witness :
  sendReply {| callThrows := λ _, None |} DEFAULT_CONFIG "group"
    (Some (IdNum 77)) (IdNum 123) "@bob (123) hello there" (Some (IdNum 5))
  = ([SendMsg "send_group_msg" "group_id" "77"
        (prefixSegsOf DEFAULT_CONFIG "group" (IdNum 123) (Some (IdNum 5))
         ++ [SegText "hello there"])], Ok ()).
Proof.
  apply (repeated_mention_is_removed {| callThrows := λ _, None |}
           DEFAULT_CONFIG (Some (IdNum 77)) 123 (Some (IdNum 5))
           "bob" "hello there");
    first [reflexivity | discriminate | vm_compute; lia].
Defined.

End DedupMore.

(** *** Commands reserved to administrators *)

Module AdminMore.
Import Session Reply Onmessage OnmessageMore.


(** A command from someone who is no administrator, quoting nothing. *)
Example admin_only_example :
  let strict := setCommandAdminOnly true
                  {| loggerSet := true; botUserId := None;
                     currentConfig :=
                       {| openclaw := openclaw DEFAULT_CONFIG;
                          behavior :=
                            {| privateChat := true; groupAtOnly := true;
                               adminQQ := [1]; commandAdminOnly := true;
                               userWhitelist := []; groupWhitelist := [];
                               groupBypassUserWhitelist := false;
                               userBlacklist := []; debounceMs := 2000;
                               resolveReplyFlag := true; replyMaxDepth := 1;
                               groupSessionMode := user;
                               replyAtSender := true;
                               replyQuoteMessage := false |};
                          media := media DEFAULT_CONFIG |};
                     sessionEpochs := ∅ |} in
  handle (answering (Some "hi")) strict (privateText 0 123 "/new")
  = ([], Ok ()).
Proof. vm_compute. reflexivity. Qed.

End AdminMore.

(** *** A private message and its reply, end to end *)

Module RoundTripMore.
Import Session Reply Onmessage ReplyFacts.

Lemma sendReply_plain_private ctx cfg groupId userId text mid :
  (∀ e, callThrows ctx e = None) →
  mediaLineAt text true = false → trim text ≠ "" →
  (String.length (trim text) ≤ 3000)%nat →
  sendReply ctx cfg "private" groupId userId text mid
  = ([SendMsg "send_private_msg" "user_id" (idToString userId)
        [SegText (trim text)]], Ok ()).
Proof.
  intros Hok Hplain Hne Hlen.
  pose proof (ReplyMore.scanMedia_plain text true Hplain) as Hscan.
  unfold sendReply, mediaFilesOf, cleanTextOf, dedupPrefix, stripMedia,
    prefixSegsOf, actionOf, idKeyOf, idValOf.
  rewrite Hscan.
  rewrite !(bool_decide_eq_false_2 ("private" = "group")) by done.
  cbn [fst snd andb].
  destruct (sendTextPart_trace ctx Hok "send_private_msg" "user_id"
              (idToString userId) [] (trim text) Hne) as [Hshort _].
  rewrite Hshort by exact Hlen. reflexivity.
Qed.

(** X20.  A private message and its reply, end to end.  For a private
    message that passes the filters, has a text that is no command, and to
    which the gateway replies with a short text without [MEDIA:] lines,
    with no action call rejected, the plugin does exactly this, in this
    order: it resolves the quoted message if there is one and resolving is
    on (the call of [get_msg] and the downloads of its media); it downloads
    the attachments when caching is on; it sets the typing status of the
    sender; it registers the waiter and sends one request under the
    session key of the sender, whose message is the identity header, the
    quoted context if any, the text and the attachments; then it sends the
    trimmed reply to the sender as one private message.  The CLI is not
    run, and [get_group_info] is not called. *)
Theorem private_message_round_trip :
  ∀ (env : Env) (st : Plugin) (event : Event) (text reply : string)
    (attachments : list ExtractedMedia) (rid : option string),
    let cfg := currentConfig st in
    let b := behavior cfg in
    let uid := IdNum (user_id event) in
    let gid := IdNum <$> group_id event in
    let nick := orElse (default "" (nickname event)) NICKNAME_DEFAULT in
    let quote := quoteOf env cfg rid in
    let replyContext :=
      match quote.2 with
      | Ok resolved => default "" (truthyStr resolved)
      | Thrown _ => ""
      end in
    message_type event = "private" →
    privateChat b = true →
    user_id event ∉ userBlacklist b →
    userWhitelist b = [] ∨ user_id event ∈ userWhitelist b →
    extractMessage (botUserId st) (default [] (message event))
    = (text, attachments, rid) →
    text ≠ "" → String.prefix "/" text = false →
    (∀ e, callThrows (ctx env) e = None) →
    gateway env = Replied (Some reply) →
    mediaLineAt reply true = false → trim reply ≠ "" →
    (String.length (trim reply) ≤ 3000)%nat →
    handle env st event
    = (quote.1
       ++ downloadsOf cfg attachments
       ++ [SetInputStatus (idToString uid) 1;
           RegisterWaiter (keyOf st event);
           GatewayRequest "chat.send" (keyOf st event)
             (buildMessage env cfg (identityHeader "" nick "private" uid gid)
                replyContext text attachments)
             (uuid env);
           SendMsg "send_private_msg" "user_id" (idToString uid)
             [SegText (trim reply)]],
       Ok ())
    ∧ Forall (λ e, fetches e = true) quote.1
    ∧ (rid = None → quote.1 = []).
Proof.
  intros env st event text reply attachments rid cfg b uid gid nick
    quote replyContext Hmt Hpc Hblack Hwhite Hex Htext Hslash Hok Hgw Hplain
    Hne Hlen.
  destruct (OnmessageMore.quoteOf_spec env cfg rid)
    as (qtr & res & Hq & Hqf).
  assert (quote = (qtr, Ok res)) as Hquote by exact Hq.
  split; [|split; [by rewrite Hquote|by intros ->]].
  unfold handle, keyOf. cbv zeta. fold cfg b uid gid nick.
  rewrite Hmt, Hex, Hslash, Hpc.
  assert (negb (bool_decide (userBlacklist b = []))
          && listed (userBlacklist b) (user_id event) = false) as ->.
  { unfold listed. rewrite (bool_decide_eq_false_2 _ Hblack).
    apply andb_false_r. }
  assert (bool_decide ("private" = "group") = false) as -> by done.
  assert (bool_decide ("private" = "private") = true) as -> by done.
  cbn [andb negb]. rewrite andb_true_r.
  assert (negb (bool_decide (userWhitelist b = []))
          && negb (listed (userWhitelist b) (user_id event)) = false) as ->.
  { unfold listed. destruct Hwhite as [Hnil|Hin].
    - by rewrite (bool_decide_eq_true_2 _ Hnil).
    - rewrite (bool_decide_eq_true_2 _ Hin). apply andb_false_r. }
  rewrite (bool_decide_eq_false_2 (text = "")) by done.
  cbn [andb].
  fold quote. subst replyContext. rewrite Hquote. cbn [fst snd].
  unfold groupNameOf, typingOf, roundTrip. rewrite Hgw.
  assert (bool_decide ("private" = "group") = false) as -> by done.
  assert (bool_decide ("private" = "private") = true) as -> by done.
  cbn [andb].
  assert (truthyStr (Some reply) = Some reply) as ->.
  { destruct reply; [|done]. by vm_compute in Hne. }
  rewrite (sendReply_plain_private (ctx env) cfg gid uid reply
             (IdNum <$> message_id event) Hok Hplain Hne Hlen).
  unfold call. rewrite Hok.
  unfold mbind, Act_bind, actCatch, emit, emitAll, mret, Act_ret.
  cbn [app]. rewrite ?app_nil_r. reflexivity.
Qed.

Lemma private_message_round_trip_witness :
  handle (answering (Some " hi ")) started (privateText 0 123 "hello")
  = ([SetInputStatus "123" 1;
      RegisterWaiter "qq-123";
      GatewayRequest "chat.send" "qq-123"
        (buildMessage (answering (Some " hi ")) DEFAULT_CONFIG
           (identityHeader "" "bob" "private" (IdNum 123) None)
           "" "hello" [])
        "run";
      SendMsg "send_private_msg" "user_id" "123" [SegText "hi"]],
     Ok ()).
Proof.
  apply (private_message_round_trip (answering (Some " hi ")) started
           (privateText 0 123 "hello") "hello" " hi " [] None);
    first [reflexivity | discriminate | by left
          | by apply not_elem_of_nil | vm_compute; lia].
Defined.

(** A private message that quotes another and carries an image, with
    caching on. *)
Example quoted_message_example :
  let quoted := {| q_nickname := Some "al"; q_user_id := Some (IdNum 5);
                   q_message := None;
                   q_raw_message := Some "see [CQ:image,url=http://x/a.png]" |} in
  let env := {| ctx := {| callThrows := λ _, None |};
                getMsgResult := Some quoted; groupNameResult := "";
                downloadResult := λ _ _, None; uuid := "run";
                gateway := Replied None; cli := Ok "" |} in
  let st := {| loggerSet := true; botUserId := None;
               currentConfig := Cache.smallCache; sessionEpochs := ∅ |} in
  let seg type data := {| seg_type := type; seg_data := Some data |} in
  let event :=
    {| post_type := "message"; user_id := 123; nickname := Some "bob";
       message_type := "private"; group_id := None; message_id := Some 1;
       self_id := Some 999;
       message :=
         Some [seg "reply" {| d_text := None; d_url := None; d_qq := None;
                              d_name := None; d_id := Some (IdNum 42);
                              d_summary := None |};
               seg "text" {| d_text := Some "look"; d_url := None;
                             d_qq := None; d_name := None; d_id := None;
                             d_summary := None |};
               seg "image" {| d_text := None; d_url := Some "http://x/b.png";
                              d_qq := None; d_name := None; d_id := None;
                              d_summary := None |}];
       time := 0 |} in
  (handle env st event).1
  = [GetMsg "42"; Download "http://x/a.png" ".jpg";
     Download "http://x/b.png" ".jpg";
     SetInputStatus "123" 1; RegisterWaiter "qq-123";
     GatewayRequest "chat.send" "qq-123"
       ("[发送者: bob (QQ: 123) | 私聊]" +:+ LF
        +:+ "[引用 al(5) 的消息]" +:+ LF +:+ "see" +:+ LF
        +:+ "[image: http://x/a.png]" +:+ LF +:+ "[/引用]" +:+ LF
        +:+ "look" +:+ LF +:+ LF +:+ "[image: http://x/b.png]")
       "run"].
Proof. vm_compute. reflexivity. Qed.

End RoundTripMore.
